(** * The RBAC policy bundle compiler of zadig's policy service

    A shallow embedding of package [bundle]
    (pkg/microservice/policy/core/service/bundle) and of the handler
    [DownloadBundle] that serves what it publishes, with the properties
    of the compiler stated and proved on the embedding.

    Go strings are [string]; [==] is [String.eqb] and [<] is
    [String.ltb] (both compare byte by byte).  Slices are lists, Go maps
    are [gmap]s, and the package-level variables are fields of explicit
    state records that the functions thread through. *)

From Stdlib Require Import String Ascii List Permutation.
From Stdlib Require Import Sorting.Sorted.
From stdpp Require Import base list sorting gmap strings.

Open Scope string_scope.
Open Scope list_scope.
Open Scope stdpp_scope.

(** * Part I: the embedding *)

(** ** Ordering and [sort.Sort] *)

(** Two-level comparison, the shape of every [Less] of the package that
    looks at two fields: the first field decides unless it is equal. *)
Definition lex2 (p q : string * string) : bool :=
  if String.eqb (fst p) (fst q) then String.ltb (snd p) (snd q)
  else String.ltb (fst p) (fst q).

(** What [sort.Sort] needs of a [Less] to deliver a sorted slice: a
    strict weak order, given here by asymmetry and by transitivity of
    "not less". *)
Record StrictWeak {A} (less : A -> A -> bool) : Prop := {
  sw_asym : forall x y, less x y = true -> less y x = false;
  sw_negtrans : forall x y z,
    less y x = false -> less z y = false -> less z x = false
}.

(** [x] may stand before [y] in a slice sorted by [less]. *)
Definition before {A} (less : A -> A -> bool) (x y : A) : Prop :=
  less y x = false.

(** Go's [sort.Sort(data)].  The library promises a rearrangement of
    the slice (it only ever calls [Swap]) in which no element is [Less]
    than one before it; it does not promise stability.  The package's
    five [sort.Interface] implementations differ in [Less] only, so the
    interface is given by that function. *)
Class Sorter := {
  sort_Sort : forall {A}, (A -> A -> bool) -> list A -> list A;
  sort_Sort_perm : forall A (less : A -> A -> bool) l,
    sort_Sort less l ≡ₚ l;
  sort_Sort_sorted : forall A (less : A -> A -> bool) l,
    StrictWeak less -> StronglySorted (before less) (sort_Sort less l)
}.

(** [for k, v := range m] over a Go map visits every entry once, in an
    order the language leaves open. *)
Class MapRange := {
  rangeOf : forall {V}, gmap string V -> list (string * V);
  rangeOf_perm : forall V (m : gmap string V), rangeOf m ≡ₚ map_to_list m
}.

(** The algorithm [sort.Sort] runs on a short slice (of at most 6
    elements in every version of the library, of at most 12 since Go
    1.19), [insertionSort]: element [i] is swapped leftwards while it
    is [Less] than its left neighbour.  [insert_left] works on the
    already sorted prefix held in reverse, so its head is the left
    neighbour. *)
Fixpoint insert_left {A} (less : A -> A -> bool) (x : A) (rprefix : list A)
  : list A :=
  match rprefix with
  | [] => [x]
  | y :: rest =>
      if less x y then y :: insert_left less x rest else x :: y :: rest
  end.

Definition insertionSort {A} (less : A -> A -> bool) (l : list A) : list A :=
  rev (foldl (fun rprefix x => insert_left less x rprefix) [] l).

(** [for _, p := range ps { body }] over a slice of pointers, where the
    body may assign to fields of [*p]: the loop state is threaded
    through and the pointees are returned as the body left them. *)
Fixpoint range_ptr {S X} (body : S -> X -> S * X) (s : S) (xs : list X)
  : S * list X :=
  match xs with
  | [] => (s, [])
  | x :: xs' =>
      let '(s1, x1) := body s x in
      let '(s2, xs2) := range_ptr body s1 xs' in
      (s2, x1 :: xs2)
  end.

(** ** Package [models] (stored entities) *)

Module models.

(** Modelled from the spec: the declarations of package [models] are not
    among the sources.  Fields are those the compiler reads; as
    everywhere in the repository a slice of structs is a slice of
    pointers ([[]*models.Role], [[]*rule]), so a [Role] reaches its
    rules by reference. *)
Record Rule := {
  Rule_Verbs : list string;
  Rule_Resources : list string;
  Rule_Kind : string
}.

Record Role := {
  Role_Name : string;
  Role_Namespace : string;
  Role_Rules : list Rule
}.

Record Subject := {
  Subject_Kind : string;
  Subject_UID : string
}.

Record RoleRef := {
  RoleRef_Name : string;
  RoleRef_Namespace : string
}.

Record RoleBinding := {
  RoleBinding_Namespace : string;
  RoleBinding_Subjects : list Subject;
  RoleBinding_RoleRef : RoleRef
}.

(** Modelled from the spec: the wildcard verb, written ["*"] there. *)
Definition MethodAll : string := "*".

End models.
Import models.

(** ** Package [bundle]: compiled forms *)

Definition MethodGet : string := "GET".
Definition MethodPost : string := "POST".
Definition MethodPut : string := "PUT".
Definition MethodPatch : string := "PATCH".
Definition MethodDelete : string := "DELETE".

Definition AllMethods : list string :=
  [MethodGet; MethodPost; MethodPut; MethodPatch; MethodDelete].

Record rule := { Method : string; Endpoint : string }.

Record role := {
  role_Name : string;
  role_Namespace : string;
  role_Rules : list rule
}.

Record opaRoles := { Roles : list role }.

Record roleRef := { roleRef_Name : string; roleRef_Namespace : string }.

Record binding := {
  binding_Namespace : string;
  binding_RoleRefs : list roleRef
}.

Record roleBinding := {
  roleBinding_UID : string;
  roleBinding_Bindings : list binding
}.

Record opaRoleBindings := { RoleBindings : list roleBinding }.

Record opaManifest := { Revision : string; Roots : list string }.

(** One entry of the static endpoint tables [publicURLs],
    [systemAdminURLs] and [adminURLs] (fields as the compiler reads
    them). *)
Record policyRule := { Methods : list string; Endpoints : list string }.

Record exemptionURLs := {
  Public : list rule;
  Privileged : list rule;
  Registered : list rule
}.

(** The three package-level tables; [generateOPAExemptionURLs] assigns
    to their entries, so they are state. *)
Record urlTables := {
  publicURLs : list policyRule;
  systemAdminURLs : list policyRule;
  adminURLs : list policyRule
}.

(** [rules.Less], [roles.Less], [bindings.Less], [roleRefs.Less] and
    [roleBindings.Less], on the two elements compared. *)
Definition rules_Less (a b : rule) : bool :=
  if String.eqb (Endpoint a) (Endpoint b)
  then String.ltb (Method a) (Method b)
  else String.ltb (Endpoint a) (Endpoint b).

Definition roles_Less (a b : role) : bool :=
  if String.eqb (role_Namespace a) (role_Namespace b)
  then String.ltb (role_Name a) (role_Name b)
  else String.ltb (role_Namespace a) (role_Namespace b).

Definition bindings_Less (a b : binding) : bool :=
  String.ltb (binding_Namespace a) (binding_Namespace b).

Definition roleRefs_Less (a b : roleRef) : bool :=
  if String.eqb (roleRef_Namespace a) (roleRef_Namespace b)
  then String.ltb (roleRef_Name a) (roleRef_Name b)
  else String.ltb (roleRef_Namespace a) (roleRef_Namespace b).

Definition roleBindings_Less (a b : roleBinding) : bool :=
  String.ltb (roleBinding_UID a) (roleBinding_UID b).

(** [len(v) == 1 && v[0] == models.MethodAll] *)
Definition isMethodAll (v : list string) : bool :=
  match v with
  | [x] => String.eqb x MethodAll
  | _ => false
  end.

(** The doubly nested loop shared by the endpoint branch of the role
    compiler and by the three table loops: for each method, for each
    endpoint, append one rule. *)
Definition appendPairs (acc : list rule) (methods endpoints : list string)
  : list rule :=
  foldl (fun acc method =>
           foldl (fun acc endpoint =>
                    acc ++ [{| Method := method; Endpoint := endpoint |}])
                 acc endpoints)
        acc methods.

(** ** What the sources leave out *)

(** The compiler calls into parts of the repository that are not among
    the sources: the [Policy] type of package [models] and two of its
    constants, and the rule expansion table ([getResourceActionMappings]
    with its method [GetRules]).  They are parameters of the embedding.
    The table's type is read off the three nested [range] loops of
    [generateOPAExemptionURLs] and off [GetRules]: resource, then verb,
    then a slice of rules. *)
Class Repository := {
  Policy : Type;
  KindResource : string;
  UserKind : string;
  getResourceActionMappings :
    list Policy -> gmap string (gmap string (list rule));
  GetRules :
    gmap string (gmap string (list rule)) -> string -> list string -> list rule
}.

(** ** The compilers *)

Section Compilers.
Context {srt : Sorter} {rng : MapRange} {repo : Repository}.

(** The body of [for _, r := range ro.Rules] in [generateOPARoles]:
    the rules appended so far, and [*r] as the body leaves it (the
    endpoint branch assigns [r.Verbs = AllMethods]). *)
Definition compileRule (resourceMappings : gmap string (gmap string (list rule)))
    (rules : list rule) (r : Rule) : list rule * Rule :=
  if String.eqb (Rule_Kind r) KindResource then
    (foldl (fun rules res => rules ++ GetRules resourceMappings res (Rule_Verbs r))
           rules (Rule_Resources r),
     r)
  else
    let r :=
      if isMethodAll (Rule_Verbs r)
      then {| Rule_Verbs := AllMethods;
              Rule_Resources := Rule_Resources r;
              Rule_Kind := Rule_Kind r |}
      else r in
    (appendPairs rules (Rule_Verbs r) (Rule_Resources r), r).

(** The body of [for _, ro := range roles]. *)
Definition compileRole (resourceMappings : gmap string (gmap string (list rule)))
    (data : list role) (ro : Role) : list role * Role :=
  let '(rules, rs) := range_ptr (compileRule resourceMappings) [] (Role_Rules ro) in
  (data ++ [{| role_Name := Role_Name ro;
               role_Namespace := Role_Namespace ro;
               role_Rules := sort_Sort rules_Less rules |}],
   {| Role_Name := Role_Name ro;
      Role_Namespace := Role_Namespace ro;
      Role_Rules := rs |}).

(** [generateOPARoles]: the compiled roles, and the caller's role
    objects as the call leaves them. *)
Definition generateOPARoles (roles : list Role) (policies : list Policy)
  : opaRoles * list Role :=
  let resourceMappings := getResourceActionMappings policies in
  let '(data, roles') := range_ptr (compileRole resourceMappings) [] roles in
  ({| Roles := sort_Sort roles_Less data |}, roles').

(** The body of [for _, s := range rb.Subjects] in
    [generateOPARoleBindings]. *)
Definition addSubject (rb : RoleBinding)
    (userRoleMap : gmap string (gmap string (list roleRef))) (s : Subject)
  : gmap string (gmap string (list roleRef)) :=
  if String.eqb (Subject_Kind s) UserKind then
    let userRoleMap :=
      match userRoleMap !! Subject_UID s with
      | Some _ => userRoleMap
      | None => <[Subject_UID s := ∅]> userRoleMap
      end in
    let nb := default ∅ (userRoleMap !! Subject_UID s) in
    let refs := default [] (nb !! RoleBinding_Namespace rb) in
    <[Subject_UID s :=
        <[RoleBinding_Namespace rb :=
            refs ++ [{| roleRef_Name := RoleRef_Name (RoleBinding_RoleRef rb);
                        roleRef_Namespace :=
                          RoleRef_Namespace (RoleBinding_RoleRef rb) |}]]> nb]>
      userRoleMap
  else userRoleMap.

(** The first loop of [generateOPARoleBindings]. *)
Definition buildUserRoleMap (rbs : list RoleBinding)
  : gmap string (gmap string (list roleRef)) :=
  foldl (fun m rb => foldl (addSubject rb) m (RoleBinding_Subjects rb)) ∅ rbs.

(** [for n, b := range nb], then [sort.Sort(bindings(bindingsData))]. *)
Definition compileBindings (nb : gmap string (list roleRef)) : list binding :=
  sort_Sort bindings_Less
    (foldl (fun bindingsData nb =>
              bindingsData ++ [{| binding_Namespace := fst nb;
                                  binding_RoleRefs :=
                                    sort_Sort roleRefs_Less (snd nb) |}])
           [] (rangeOf nb)).

Definition generateOPARoleBindings (rbs : list RoleBinding) : opaRoleBindings :=
  let userRoleMap := buildUserRoleMap rbs in
  {| RoleBindings :=
       sort_Sort roleBindings_Less
         (foldl (fun data unb =>
                   data ++ [{| roleBinding_UID := fst unb;
                               roleBinding_Bindings := compileBindings (snd unb) |}])
                [] (rangeOf userRoleMap)) |}.

(** The body of the three loops over a static table: [r.Methods] is
    overwritten when it is the wildcard, then the pairs are appended. *)
Definition expandPolicyRule (acc : list rule) (r : policyRule)
  : list rule * policyRule :=
  let r :=
    if isMethodAll (Methods r)
    then {| Methods := AllMethods; Endpoints := Endpoints r |}
    else r in
  (appendPairs acc (Methods r) (Endpoints r), r).

(** The three nested loops over the rule expansion table. *)
Definition appendMappings (acc : list rule)
    (resourceMappings : gmap string (gmap string (list rule))) : list rule :=
  foldl (fun acc resourceMappings =>
           foldl (fun acc rs =>
                    foldl (fun acc r => acc ++ [r]) acc (snd rs))
                 acc (rangeOf (snd resourceMappings)))
        acc (rangeOf resourceMappings).

(** [generateOPAExemptionURLs]: the three lists, and the package's
    tables as the call leaves them. *)
Definition generateOPAExemptionURLs (policies : list Policy) (t : urlTables)
  : exemptionURLs * urlTables :=
  let '(public, publicURLs') := range_ptr expandPolicyRule [] (publicURLs t) in
  let public := sort_Sort rules_Less public in
  let '(privileged, systemAdminURLs') :=
    range_ptr expandPolicyRule [] (systemAdminURLs t) in
  let privileged := sort_Sort rules_Less privileged in
  let resourceMappings := getResourceActionMappings policies in
  let registered := appendMappings [] resourceMappings in
  let '(registered, adminURLs') :=
    range_ptr expandPolicyRule registered (adminURLs t) in
  let registered := sort_Sort rules_Less registered in
  ({| Public := public; Privileged := privileged; Registered := registered |},
   {| publicURLs := publicURLs';
      systemAdminURLs := systemAdminURLs';
      adminURLs := adminURLs' |}).

(** [generateOPAManifest]; the fresh [uuid.New().String()] is an input. *)
Definition generateOPAManifest (uuid : string) : opaManifest :=
  {| Revision := uuid; Roots := [EmptyString] |}.

End Compilers.

(** ** The publisher, the revision reader and the handler *)

(** A Go [[]byte] and a Go [error] (its message). *)
Abbreviation bytes := string (only parsing).
Abbreviation error := string (only parsing).

(** The result of a call that may end in a run-time panic. *)
Inductive outcome (A : Type) : Type :=
| Ret (a : A)
| Panic.
Arguments Ret {A} a.
Arguments Panic {A}.

(** What an [opaDataSpec] carries in its [interface{}] field, by
    dynamic type: raw bytes, or one of the four structs that
    [GenerateOPABundle] puts there (the [default] case of the type
    switch in [save]). *)
Inductive opaStruct : Type :=
| ofManifest (m : opaManifest)
| ofRoles (r : opaRoles)
| ofRoleBindings (b : opaRoleBindings)
| ofExemptionURLs (e : exemptionURLs).

Inductive opaDataValue : Type :=
| rawBytes (c : bytes)
| structValue (c : opaStruct).

Record opaDataSpec := { data : opaDataValue; path : string }.

Definition manifestPath : string := ".manifest".
Definition policyPath : string := "authz.rego".
Definition rolesPath : string := "roles/data.json".
Definition rolebindingsPath : string := "bindings/data.json".
Definition exemptionPath : string := "exemptions/data.json".

(** The [afero.Fs] interface as the package uses it.  A file system is a
    value; an operation that fails returns the error and leaves the
    file system as it was. *)
Class Afero := {
  Fs : Type;
  NewMemMapFs : Fs;
  MkdirAll : Fs -> string -> error + Fs;
  WriteFile : Fs -> string -> bytes -> error + Fs;
  ReadFile : Fs -> string -> error + bytes
}.

(** [encoding/json] on the values the package hands to it. *)
Class Json := {
  MarshalIndent : opaStruct -> error + bytes;
  Unmarshal : bytes -> error + opaManifest
}.

(** The request and the response held by a [gin.Context], as far as
    [DownloadBundle] touches them: the request headers and the route
    parameters, and of the response the status, the headers set by the
    handler, and the body. *)
Record Context := {
  RequestHeader : gmap string string;
  Params : gmap string string;
  Status : nat;
  Header : gmap string string;
  Body : bytes
}.

(** The host: the files under the data directory, [config.DataPath()],
    the static policy text [authz], [fsutil.Tar], which writes the
    archive of a file system to a path on the host and may fail,
    leaving behind whatever it returns, and [http.ServeFile], to which
    gin's [c.File] hands the request: given the host's files, the
    context (the request and the response headers set so far) and a
    path, it decides the status and the body of the response.  It is
    library code, not among the sources. *)
Class Host `{Afero} := {
  DataPath : string;
  authz : bytes;
  Tar : Fs -> string -> gmap string bytes -> option error * gmap string bytes;
  ServeFile : gmap string bytes -> Context -> string -> nat * bytes
}.

(** The part of [s] before its last slash, if it has one. *)
Fixpoint beforeLastSlash (s : string) : option string :=
  match s with
  | EmptyString => None
  | String c s' =>
      match beforeLastSlash s' with
      | Some d => Some (String c d)
      | None => if Ascii.eqb c "/" then Some EmptyString else None
      end
  end.

(** [filepath.Dir] and [filepath.Join] on slash-separated paths that are
    already clean (no [..], no doubled or trailing slash), which the
    five bundle paths are. *)
Definition filepath_Dir (p : string) : string :=
  match beforeLastSlash p with
  | None => "."
  | Some EmptyString => "/"
  | Some d => d
  end.

Definition filepath_Join (a b : string) : string :=
  match a, b with
  | EmptyString, _ => b
  | _, EmptyString => a
  | _, _ => String.append a (String.append "/" b)
  end.

(** The package variable [cacheFS] (a nil interface until the first
    [save]), the three URL tables, and the host's files. *)
Record state `{Afero} := {
  cacheFS : option Fs;
  urls : urlTables;
  disk : gmap string bytes
}.

Definition c_GetHeader (c : Context) (key : string) : string :=
  default EmptyString (RequestHeader c !! key).

Definition c_Param (c : Context) (key : string) : string :=
  default EmptyString (Params c !! key).

Definition c_Status (c : Context) (code : nat) : Context :=
  {| RequestHeader := RequestHeader c; Params := Params c;
     Status := code; Header := Header c; Body := Body c |}.

(** [c.Header(key, value)] sets the response header, or removes it when
    the value is empty. *)
Definition c_Header (c : Context) (key value : string) : Context :=
  {| RequestHeader := RequestHeader c; Params := Params c;
     Status := Status c;
     Header := if String.eqb value EmptyString
               then delete key (Header c)
               else <[key := value]> (Header c);
     Body := Body c |}.

Section Publisher.
Context {srt : Sorter} {rng : MapRange} {repo : Repository}.
Context {afero : Afero} {json : Json} {host : Host}.

(** [c.File(filepath)] is [http.ServeFile(c.Writer, c.Request,
    filepath)]: the status and the body of the response are the file
    server's, read off the files of the host. *)
Definition c_File (c : Context) (filepath : string)
    (files : gmap string bytes) : Context :=
  let '(code, body) := ServeFile files c filepath in
  {| RequestHeader := RequestHeader c; Params := Params c;
     Status := code; Header := Header c; Body := body |}.

(** One round of the loop of [save]: marshal unless the data is raw
    bytes, make the directory, write the file.  The error, if any, and
    the scratch file system as the round leaves it. *)
Definition saveFile (fs : Fs) (file : opaDataSpec) : option error * Fs :=
  let content :=
    match data file with
    | rawBytes c => inr c
    | structValue c => MarshalIndent c
    end in
  match content with
  | inl err => (Some err, fs)
  | inr content =>
      match MkdirAll fs (filepath_Dir (path file)) with
      | inl err => (Some err, fs)
      | inr fs =>
          match WriteFile fs (path file) content with
          | inl err => (Some err, fs)
          | inr fs => (None, fs)
          end
      end
  end.

Fixpoint saveFiles (fs : Fs) (o : list opaDataSpec) : option error * Fs :=
  match o with
  | [] => (None, fs)
  | file :: o' =>
      match saveFile fs file with
      | (Some err, fs) => (Some err, fs)
      | (None, fs) => saveFiles fs o'
      end
  end.

Definition withCacheFS (st : state) (fs : Fs) : state :=
  {| cacheFS := Some fs; urls := urls st; disk := disk st |}.

(** [opaData.save]: [cacheFS] is assigned the fresh file system before
    the loop, so every write of the loop is a write to [cacheFS]. *)
Definition save (o : list opaDataSpec) (st : state) : option error * state :=
  let '(err, fs) := saveFiles NewMemMapFs o in
  match err with
  | Some err => (Some err, withCacheFS st fs)
  | None =>
      let tarball := "bundle.tar.gz" in
      let path := filepath_Join DataPath tarball in
      let '(err, disk') := Tar fs path (disk st) in
      (err, {| cacheFS := Some fs; urls := urls st; disk := disk' |})
  end.

(** [GenerateOPABundle].  [rs], [bs] and [ps] are what the three [List]
    calls of the store returned (an error there is only logged), and
    [uuid] is the revision drawn by [generateOPAManifest]. *)
Definition GenerateOPABundle (uuid : string) (rs : list Role)
    (bs : list RoleBinding) (ps : list Policy) (st : state)
  : option error * state :=
  let '(opaRoles, _) := generateOPARoles rs ps in
  let opaRoleBindings := generateOPARoleBindings bs in
  let '(exemptions, urls') := generateOPAExemptionURLs ps (urls st) in
  save [ {| data := structValue (ofManifest (generateOPAManifest uuid));
            path := manifestPath |};
         {| data := rawBytes authz; path := policyPath |};
         {| data := structValue (ofRoles opaRoles); path := rolesPath |};
         {| data := structValue (ofRoleBindings opaRoleBindings);
            path := rolebindingsPath |};
         {| data := structValue (ofExemptionURLs exemptions);
            path := exemptionPath |} ]
       {| cacheFS := cacheFS st; urls := urls'; disk := disk st |}.

(** [GetRevision]: [afero.ReadFile] calls [Open] on [cacheFS], which
    panics on the nil interface. *)
Definition GetRevision (st : state) : outcome string :=
  match cacheFS st with
  | None => Panic
  | Some fs =>
      match ReadFile fs manifestPath with
      | inl _ => Ret EmptyString
      | inr data =>
          match Unmarshal data with
          | inl _ => Ret EmptyString
          | inr mf => Ret (Revision mf)
          end
      end
  end.

(** [handler.DownloadBundle] *)
Definition DownloadBundle (c : Context) (st : state) : outcome Context :=
  match GetRevision st with
  | Panic => Panic
  | Ret revision =>
      let matching := c_GetHeader c "If-None-Match" in
      if negb (String.eqb revision EmptyString) && String.eqb revision matching
      then Ret (c_Status c 304)
      else
        let c := c_Header c "Content-Type" "application/gzip" in
        let c := if negb (String.eqb revision EmptyString)
                 then c_Header c "Etag" revision
                 else c in
        Ret (c_File c (filepath_Join DataPath (c_Param c "name")) (disk st))
  end.

End Publisher.

(** * Part II: instances to run the embedding on *)

Module example.

(** Modelled from the spec: the [Policy] entity and the rule expansion
    table of section 4.1, which are not among the sources.  A policy
    names a resource and lists, per verb, the concrete rules registered
    for it; the table files them under resource and verb; [GetRules]
    returns the rules registered under the resource for the requested
    verbs, and nothing for a resource that is not mapped. *)
Record Policy := {
  Resource : string;
  Rules : list (string * list rule)
}.

Definition getResourceActionMappings (policies : list Policy)
  : gmap string (gmap string (list rule)) :=
  foldl (fun data p =>
           <[Resource p :=
               foldl (fun m vr =>
                        <[fst vr := default [] (m !! fst vr) ++ snd vr]> m)
                     (default ∅ (data !! Resource p)) (Rules p)]> data)
        ∅ policies.

Definition GetRules (m : gmap string (gmap string (list rule)))
    (resource : string) (actions : list string) : list rule :=
  match m !! resource with
  | None => []
  | Some mappings => flat_map (fun a => default [] (mappings !! a)) actions
  end.

(** Modelled from the spec: the spellings of the two kind constants are
    not among the sources; these stand for ResourceKind and for the
    subject kind User. *)
Definition KindResource : string := "resource".
Definition UserKind : string := "user".

End example.

Definition exampleRepository : Repository := {|
  Policy := example.Policy;
  KindResource := example.KindResource;
  UserKind := example.UserKind;
  getResourceActionMappings := example.getResourceActionMappings;
  GetRules := example.GetRules
|}.

(** The scenario of the spec: one role [viewer] in [proj1] with a
    single endpoint rule on [/api/builds] for every verb. *)
Definition viewerRule : Rule :=
  {| Rule_Verbs := ["*"]; Rule_Resources := ["/api/builds"];
     Rule_Kind := "endpoint" |}.

Definition viewer : Role :=
  {| Role_Name := "viewer"; Role_Namespace := "proj1";
     Role_Rules := [viewerRule] |}.

(** A role whose two rules grant the same pair. *)
Definition twice : Role :=
  {| Role_Name := "twice"; Role_Namespace := "proj1";
     Role_Rules :=
       [ {| Rule_Verbs := ["GET"]; Rule_Resources := ["/api/builds"];
            Rule_Kind := "endpoint" |};
         {| Rule_Verbs := ["GET"; "POST"]; Rule_Resources := ["/api/builds"];
            Rule_Kind := "endpoint" |} ] |}.

(** Two roles under one (namespace, name), with different rules. *)
Definition editorA : Role :=
  {| Role_Name := "editor"; Role_Namespace := "proj1";
     Role_Rules :=
       [ {| Rule_Verbs := ["GET"]; Rule_Resources := ["/api/a"];
            Rule_Kind := "endpoint" |} ] |}.

Definition editorB : Role :=
  {| Role_Name := "editor"; Role_Namespace := "proj1";
     Role_Rules :=
       [ {| Rule_Verbs := ["GET"]; Rule_Resources := ["/api/b"];
            Rule_Kind := "endpoint" |} ] |}.

(** A role with a resource rule, and policies that map its resource. *)
Definition builder : Role :=
  {| Role_Name := "builder"; Role_Namespace := "proj2";
     Role_Rules :=
       [ {| Rule_Verbs := ["get"; "run"]; Rule_Resources := ["Workflow"];
            Rule_Kind := "resource" |};
         {| Rule_Verbs := ["*"; "GET"]; Rule_Resources := ["/api/logs"];
            Rule_Kind := "endpoint" |} ] |}.

Definition workflowPolicy : example.Policy :=
  {| example.Resource := "Workflow";
     example.Rules :=
       [ ("get", [ {| Method := "GET"; Endpoint := "/api/workflow" |} ]);
         ("run", [ {| Method := "POST"; Endpoint := "/api/workflow/run" |} ]) ] |}.

Definition testPolicy : example.Policy :=
  {| example.Resource := "Test";
     example.Rules :=
       [ ("get", [ {| Method := "GET"; Endpoint := "/api/test" |} ]) ] |}.

(** Bindings: one with a User subject only, one with a group only, one
    with both. *)
Definition userBinding : RoleBinding :=
  {| RoleBinding_Namespace := "proj1";
     RoleBinding_Subjects := [ {| Subject_Kind := "user"; Subject_UID := "u1" |} ];
     RoleBinding_RoleRef :=
       {| RoleRef_Name := "viewer"; RoleRef_Namespace := "proj1" |} |}.

Definition groupBinding : RoleBinding :=
  {| RoleBinding_Namespace := "proj1";
     RoleBinding_Subjects := [ {| Subject_Kind := "group"; Subject_UID := "g1" |} ];
     RoleBinding_RoleRef :=
       {| RoleRef_Name := "editor"; RoleRef_Namespace := "proj1" |} |}.

Definition mixedBinding : RoleBinding :=
  {| RoleBinding_Namespace := "proj2";
     RoleBinding_Subjects :=
       [ {| Subject_Kind := "group"; Subject_UID := "g1" |};
         {| Subject_Kind := "user"; Subject_UID := "u2" |} ];
     RoleBinding_RoleRef :=
       {| RoleRef_Name := "builder"; RoleRef_Namespace := "proj2" |} |}.

(** Static tables: a public health endpoint, a privileged cluster
    endpoint open to every method, and one administrator endpoint. *)
Definition exampleTables : urlTables :=
  {| publicURLs :=
       [ {| Methods := ["GET"]; Endpoints := ["/api/health"] |} ];
     systemAdminURLs :=
       [ {| Methods := ["*"]; Endpoints := ["/api/cluster"] |} ];
     adminURLs :=
       [ {| Methods := ["*"; "GET"]; Endpoints := ["/api/project"] |} ] |}.

(** ** An in-memory file system, a JSON codec and two hosts *)

(** [afero.MemMapFs] holding files only: a directory holds nothing the
    package reads back, and none of the three operations fails on the
    paths of the bundle except reading a file that is not there. *)
Definition memMapFs : Afero := {|
  Fs := gmap string string;
  NewMemMapFs := ∅;
  MkdirAll fs _ := inr fs;
  WriteFile fs name content := inr (<[name := content]> fs);
  ReadFile fs name :=
    match fs !! name with
    | Some content => inr content
    | None => inl "file does not exist"
    end
|}.

Module json.

(** JSON texts as far as the bundle needs them: no numbers, no
    booleans. *)
#[local] Unset Elimination Schemes.
Inductive value : Type :=
| Null
| Str (s : string)
| Arr (l : list value)
| Obj (l : list (string * value)).
#[local] Set Elimination Schemes.

Definition dquote : ascii := "034"%char.
Definition backslash : ascii := "\"%char.
Definition newline : string := String "010"%char EmptyString.
Definition step : string := "    ".

(** Quoting escapes the quote and the backslash; the encoder's other
    escapes (control characters, [<], [>], [&], invalid UTF-8) do not
    occur in the examples. *)
Fixpoint escape (s : string) : string :=
  match s with
  | EmptyString => EmptyString
  | String c s' =>
      if Ascii.eqb c dquote || Ascii.eqb c backslash
      then String backslash (String c (escape s'))
      else String c (escape s')
  end.

Definition quote (s : string) : string :=
  String dquote (String.append (escape s) (String dquote EmptyString)).

(** The layout of [json.MarshalIndent(v, "", "    ")]: one element or
    member per line, indented one step further than the enclosing
    bracket. *)
Fixpoint render (indent : string) (v : value) : string :=
  let inner := String.append indent step in
  let lines (items : list string) (opening closing : string) : string :=
    String.concat EmptyString
      [opening; newline; inner;
       String.concat (String.concat EmptyString [","; newline; inner]) items;
       newline; indent; closing] in
  match v with
  | Null => "null"
  | Str s => quote s
  | Arr [] => "[]"
  | Arr l => lines (map (render inner) l) "[" "]"
  | Obj [] => "{}"
  | Obj l =>
      lines (map (fun kv =>
                    String.concat EmptyString
                      [quote (fst kv); ": "; render inner (snd kv)]) l)
            "{" "}"
  end.

(** A nil slice is encoded as [null]; every slice of the compiled forms
    starts out nil and is only appended to. *)
Definition slice {X} (f : X -> value) (l : list X) : value :=
  match l with
  | [] => Null
  | _ => Arr (map f l)
  end.

Definition ofRule (r : rule) : value :=
  Obj [("method", Str (Method r)); ("endpoint", Str (Endpoint r))].

Definition ofRole (r : role) : value :=
  Obj [("name", Str (role_Name r)); ("namespace", Str (role_Namespace r));
       ("rules", slice ofRule (role_Rules r))].

Definition ofRoleRef (r : roleRef) : value :=
  Obj [("name", Str (roleRef_Name r)); ("namespace", Str (roleRef_Namespace r))].

Definition ofBinding (b : binding) : value :=
  Obj [("namespace", Str (binding_Namespace b));
       ("role_refs", slice ofRoleRef (binding_RoleRefs b))].

Definition ofRoleBinding (b : roleBinding) : value :=
  Obj [("uid", Str (roleBinding_UID b));
       ("bindings", slice ofBinding (roleBinding_Bindings b))].

Definition ofStruct (c : opaStruct) : value :=
  match c with
  | ofManifest m =>
      Obj [("revision", Str (Revision m)); ("roots", slice Str (Roots m))]
  | ofRoles r => Obj [("roles", slice ofRole (Roles r))]
  | ofRoleBindings b =>
      Obj [("role_bindings", slice ofRoleBinding (RoleBindings b))]
  | ofExemptionURLs e =>
      Obj [("public", slice ofRule (Public e));
           ("privileged", slice ofRule (Privileged e));
           ("registered", slice ofRule (Registered e))]
  end.

Definition isSpace (c : ascii) : bool :=
  Ascii.eqb c " " || Ascii.eqb c "009" || Ascii.eqb c "010" || Ascii.eqb c "013".

Fixpoint skipSpace (s : string) : string :=
  match s with
  | String c s' => if isSpace c then skipSpace s' else s
  | EmptyString => s
  end.

(** After an opening quote: the string up to the closing quote, and
    what follows it. *)
Fixpoint scanString (s : string) : option (string * string) :=
  match s with
  | EmptyString => None
  | String c s' =>
      if Ascii.eqb c dquote then Some (EmptyString, s')
      else if Ascii.eqb c backslash then
        match s' with
        | String e s'' =>
            if Ascii.eqb e dquote || Ascii.eqb e backslash then
              match scanString s'' with
              | Some (t, rest) => Some (String e t, rest)
              | None => None
              end
            else None
        | EmptyString => None
        end
      else
        match scanString s' with
        | Some (t, rest) => Some (String c t, rest)
        | None => None
        end
  end.

(** A recursive-descent reader; [fuel] bounds the nesting and the
    number of elements, and the length of the text is enough. *)
Fixpoint parseValue (fuel : nat) (s : string) : option (value * string) :=
  match fuel with
  | 0 => None
  | S fuel =>
      match skipSpace s with
      | String "n" (String "u" (String "l" (String "l" rest))) => Some (Null, rest)
      | String c rest =>
          if Ascii.eqb c dquote then
            match scanString rest with
            | Some (t, rest) => Some (Str t, rest)
            | None => None
            end
          else if Ascii.eqb c "[" then
            match skipSpace rest with
            | String "]" rest => Some (Arr [], rest)
            | _ =>
                match parseElements fuel rest with
                | Some (l, rest) => Some (Arr l, rest)
                | None => None
                end
            end
          else if Ascii.eqb c "{" then
            match skipSpace rest with
            | String "}" rest => Some (Obj [], rest)
            | _ =>
                match parseMembers fuel rest with
                | Some (l, rest) => Some (Obj l, rest)
                | None => None
                end
            end
          else None
      | EmptyString => None
      end
  end
with parseElements (fuel : nat) (s : string) : option (list value * string) :=
  match fuel with
  | 0 => None
  | S fuel =>
      match parseValue fuel s with
      | Some (v, rest) =>
          match skipSpace rest with
          | String "]" rest => Some ([v], rest)
          | String "," rest =>
              match parseElements fuel rest with
              | Some (l, rest) => Some (v :: l, rest)
              | None => None
              end
          | _ => None
          end
      | None => None
      end
  end
with parseMembers (fuel : nat) (s : string)
  : option (list (string * value) * string) :=
  match fuel with
  | 0 => None
  | S fuel =>
      match skipSpace s with
      | String c rest =>
          if Ascii.eqb c dquote then
            match scanString rest with
            | Some (k, rest) =>
                match skipSpace rest with
                | String ":" rest =>
                    match parseValue fuel rest with
                    | Some (v, rest) =>
                        match skipSpace rest with
                        | String "}" rest => Some ([(k, v)], rest)
                        | String "," rest =>
                            match parseMembers fuel rest with
                            | Some (l, rest) => Some ((k, v) :: l, rest)
                            | None => None
                            end
                        | _ => None
                        end
                    | None => None
                    end
                | _ => None
                end
            | None => None
            end
          else None
      | EmptyString => None
      end
  end.

Definition parse (s : string) : option value :=
  match parseValue (S (String.length s)) s with
  | Some (v, rest) =>
      match skipSpace rest with
      | EmptyString => Some v
      | _ => None
      end
  | None => None
  end.

Definition asString (v : value) : option string :=
  match v with
  | Str s => Some s
  | Null => Some EmptyString
  | _ => None
  end.

Fixpoint asStrings (l : list value) : option (list string) :=
  match l with
  | [] => Some []
  | Str s :: l =>
      match asStrings l with
      | Some ss => Some (s :: ss)
      | None => None
      end
  | _ => None
  end.

(** Fill a zero [opaManifest] from the members of an object, a later
    member overriding an earlier one of the same name; other members
    are skipped. *)
Fixpoint fill (mf : opaManifest) (members : list (string * value))
  : option opaManifest :=
  match members with
  | [] => Some mf
  | (k, v) :: members =>
      if String.eqb k "revision" then
        match asString v with
        | Some s => fill {| Revision := s; Roots := Roots mf |} members
        | None => None
        end
      else if String.eqb k "roots" then
        match v with
        | Null => fill mf members
        | Arr l =>
            match asStrings l with
            | Some ss => fill {| Revision := Revision mf; Roots := ss |} members
            | None => None
            end
        | _ => None
        end
      else fill mf members
  end.

Definition unmarshalManifest (text : string) : string + opaManifest :=
  match parse text with
  | Some (Obj members) =>
      match fill {| Revision := EmptyString; Roots := [] |} members with
      | Some mf => inr mf
      | None => inl "json: cannot unmarshal into Go struct field"
      end
  | Some Null => inr {| Revision := EmptyString; Roots := [] |}
  | Some _ => inl "json: cannot unmarshal into Go value of type opaManifest"
  | None => inl "invalid character"
  end.

End json.

(** [encoding/json] on the manifest and the three data files: texts are
    laid out as [MarshalIndent] does for strings without the bytes the
    library escapes beyond the quote and the backslash, and read back
    by a reader that knows strings, arrays, objects and [null] and
    takes member names as they are written (any other text is an
    error, where the library would also accept numbers and booleans in
    members it skips, and member names in another case). *)
Definition exampleJson : Json := {|
  MarshalIndent c := inr (json.render EmptyString (json.ofStruct c));
  Unmarshal := json.unmarshalManifest
|}.

(** Stands for the bytes of the archive of a tree: its files, each as
    its path and its content on lines of their own. *)
Definition archiveOf (fs : gmap string string) : string :=
  String.concat EmptyString
    (map (fun pc => String.concat json.newline [fst pc; snd pc; EmptyString])
         (map_to_list fs)).

(** Whether an If-None-Match value asks for any entity tag: its first
    byte after blanks and commas is [*]. *)
Fixpoint asksForAny (value : string) : bool :=
  match value with
  | String c value' =>
      if Ascii.eqb c " " || Ascii.eqb c "009" || Ascii.eqb c ","
      then asksForAny value'
      else Ascii.eqb c "*"
  | EmptyString => false
  end.

(** A file server that answers as [http.ServeFile] does a GET request
    for a regular file or for a path that names nothing, when the
    request carries no conditional or range header other than
    If-None-Match, with no quoted entity tag in it: 404 when there is
    no such file; 304 without a body for If-None-Match [*]; and
    otherwise (a value without quotes is no entity tag to the library,
    so it matches nothing) 200 with the bytes of the file. *)
Definition serveFile (files : gmap string string) (c : Context)
    (filepath : string) : nat * string :=
  match files !! filepath with
  | None => (404, String.append "404 page not found" json.newline)
  | Some content =>
      if asksForAny (c_GetHeader c "If-None-Match")
      then (304, EmptyString)
      else (200, content)
  end.

(** A host on which the archive step works, and the same host with no
    room left for the archive. *)
Definition workingHost : @Host memMapFs :=
  @Build_Host memMapFs "/var/lib/policy" "package rbac"
    (fun fs name files => (None, <[name := archiveOf fs]> files))
    serveFile.

Definition fullHost : @Host memMapFs :=
  @Build_Host memMapFs "/var/lib/policy" "package rbac"
    (fun fs name files => (Some "no space left on device", files))
    serveFile.

(** A file system on which the directory of the roles cannot be made,
    and a host with it. *)
Definition lockedFs : Afero := {|
  Fs := gmap string string;
  NewMemMapFs := ∅;
  MkdirAll fs dir :=
    if String.eqb dir "roles" then inl "mkdir roles: permission denied"
    else inr fs;
  WriteFile fs name content := inr (<[name := content]> fs);
  ReadFile fs name :=
    match fs !! name with
    | Some content => inr content
    | None => inl "file does not exist"
    end
|}.

Definition lockedHost : @Host lockedFs :=
  @Build_Host lockedFs "/var/lib/policy" "package rbac"
    (fun fs name files => (None, <[name := archiveOf fs]> files))
    serveFile.

(** The package before its first compile, on an empty data directory. *)
Definition initialState : @state memMapFs :=
  {| cacheFS := None; urls := exampleTables; disk := ∅ |}.

(** A request for the archive, in a fresh context. *)
Definition newContext (requestHeader : gmap string string) : Context :=
  {| RequestHeader := requestHeader;
     Params := {["name" := "bundle.tar.gz"]};
     Status := 200;
     Header := ∅;
     Body := EmptyString |}.

(** * Part III: general facts *)

(** ** Byte-wise string order *)

Module StrOrder.

Lemma compare_refl (s : string) : String.compare s s = Eq.
Proof.
  induction s as [|c s IH]; simpl; [reflexivity|].
  unfold Ascii.compare. rewrite N.compare_refl. exact IH.
Qed.

Lemma ascii_compare_lt_trans (a b c : ascii) :
  Ascii.compare a b = Lt -> Ascii.compare b c = Lt -> Ascii.compare a c = Lt.
Proof.
  unfold Ascii.compare. rewrite !N.compare_lt_iff. lia.
Qed.

Lemma compare_lt_trans (s1 s2 s3 : string) :
  String.compare s1 s2 = Lt -> String.compare s2 s3 = Lt ->
  String.compare s1 s3 = Lt.
Proof.
  revert s2 s3.
  induction s1 as [|a s1 IH]; intros [|b s2] [|c s3]; simpl; try congruence.
  destruct (Ascii.compare a b) eqn:Hab; try discriminate;
    destruct (Ascii.compare b c) eqn:Hbc; try discriminate; intros H1 H2.
  - apply Ascii.compare_eq_iff in Hab, Hbc. subst.
    unfold Ascii.compare. rewrite N.compare_refl. eauto.
  - apply Ascii.compare_eq_iff in Hab. subst. rewrite Hbc. reflexivity.
  - apply Ascii.compare_eq_iff in Hbc. subst. rewrite Hab. reflexivity.
  - rewrite (ascii_compare_lt_trans _ _ _ Hab Hbc). reflexivity.
Qed.

Lemma ltb_irrefl (s : string) : String.ltb s s = false.
Proof. unfold String.ltb. rewrite compare_refl. reflexivity. Qed.

Lemma ltb_trans (a b c : string) :
  String.ltb a b = true -> String.ltb b c = true -> String.ltb a c = true.
Proof.
  unfold String.ltb.
  destruct (String.compare a b) eqn:H1; try discriminate.
  destruct (String.compare b c) eqn:H2; try discriminate.
  rewrite (compare_lt_trans _ _ _ H1 H2). reflexivity.
Qed.

Lemma ltb_asym (a b : string) :
  String.ltb a b = true -> String.ltb b a = false.
Proof.
  unfold String.ltb. rewrite (String.compare_antisym b a).
  destruct (String.compare a b); simpl; congruence.
Qed.

Lemma ltb_trichotomy (a b : string) :
  String.ltb a b = false -> String.ltb b a = false -> a = b.
Proof.
  unfold String.ltb. rewrite (String.compare_antisym b a).
  destruct (String.compare a b) eqn:H; simpl; try congruence.
  intros _ _. apply String.compare_eq_iff. exact H.
Qed.

Lemma ltb_negtrans (a b c : string) :
  String.ltb b a = false -> String.ltb c b = false -> String.ltb c a = false.
Proof.
  intros H1 H2.
  destruct (String.ltb c a) eqn:Hca; [|reflexivity].
  destruct (String.ltb a b) eqn:Hab.
  - rewrite (ltb_trans _ _ _ Hca Hab) in H2. discriminate.
  - pose proof (ltb_trichotomy _ _ Hab H1). subst. congruence.
Qed.

Lemma lex2_asym p q : lex2 p q = true -> lex2 q p = false.
Proof.
  unfold lex2. rewrite (String.eqb_sym (fst q) (fst p)).
  destruct (String.eqb (fst p) (fst q)); apply ltb_asym.
Qed.

Lemma lex2_trichotomy p q : lex2 p q = false -> lex2 q p = false -> p = q.
Proof.
  unfold lex2. rewrite (String.eqb_sym (fst q) (fst p)).
  destruct p as [p1 p2], q as [q1 q2]; simpl.
  destruct (String.eqb p1 q1) eqn:E; intros H1 H2.
  - apply String.eqb_eq in E. subst. f_equal. by apply ltb_trichotomy.
  - apply String.eqb_neq in E. destruct E. by apply ltb_trichotomy.
Qed.

Lemma lex2_trans p q r : lex2 p q = true -> lex2 q r = true -> lex2 p r = true.
Proof.
  unfold lex2. destruct p as [p1 p2], q as [q1 q2], r as [r1 r2]; simpl.
  destruct (String.eqb p1 q1) eqn:E1; destruct (String.eqb q1 r1) eqn:E2;
    try apply String.eqb_eq in E1; try apply String.eqb_eq in E2; subst;
    intros H1 H2.
  - rewrite String.eqb_refl. eapply ltb_trans; eauto.
  - rewrite E2. exact H2.
  - rewrite E1. exact H1.
  - destruct (String.eqb p1 r1) eqn:E3.
    + apply String.eqb_eq in E3. subst.
      rewrite (ltb_asym _ _ H1) in H2. discriminate.
    + eapply ltb_trans; eauto.
Qed.

Lemma lex2_negtrans p q r :
  lex2 q p = false -> lex2 r q = false -> lex2 r p = false.
Proof.
  intros H1 H2.
  destruct (lex2 r p) eqn:Hrp; [|reflexivity].
  destruct (lex2 p q) eqn:Hpq.
  - rewrite (lex2_trans _ _ _ Hrp Hpq) in H2. discriminate.
  - pose proof (lex2_trichotomy _ _ Hpq H1). subst. congruence.
Qed.

End StrOrder.

(** ** The five [Less] functions are strict weak orders *)

Section KeyOrder.
Context {A : Type} (key : A -> string * string).

Lemma StrictWeak_lex2_key : StrictWeak (fun x y => lex2 (key x) (key y)).
Proof.
  split.
  - intros x y. apply StrOrder.lex2_asym.
  - intros x y z. apply StrOrder.lex2_negtrans.
Qed.

Lemma before_lex2_antisym x y :
  before (fun x y => lex2 (key x) (key y)) x y ->
  before (fun x y => lex2 (key x) (key y)) y x ->
  key x = key y.
Proof. unfold before. intros H1 H2. by apply StrOrder.lex2_trichotomy. Qed.

End KeyOrder.

Section KeyOrder1.
Context {A : Type} (key : A -> string).

Lemma StrictWeak_ltb_key : StrictWeak (fun x y => String.ltb (key x) (key y)).
Proof.
  split.
  - intros x y. apply StrOrder.ltb_asym.
  - intros x y z. apply StrOrder.ltb_negtrans.
Qed.

Lemma before_ltb_antisym x y :
  before (fun x y => String.ltb (key x) (key y)) x y ->
  before (fun x y => String.ltb (key x) (key y)) y x ->
  key x = key y.
Proof. unfold before. intros H1 H2. by apply StrOrder.ltb_trichotomy. Qed.

End KeyOrder1.

Definition rule_key (r : rule) : string * string := (Endpoint r, Method r).
Definition role_key (r : role) : string * string := (role_Namespace r, role_Name r).
Definition roleRef_key (r : roleRef) : string * string :=
  (roleRef_Namespace r, roleRef_Name r).

Lemma rules_Less_lex2 a b : rules_Less a b = lex2 (rule_key a) (rule_key b).
Proof. reflexivity. Qed.

Lemma StrictWeak_rules_Less : StrictWeak rules_Less.
Proof. exact (StrictWeak_lex2_key rule_key). Qed.

Lemma StrictWeak_roles_Less : StrictWeak roles_Less.
Proof. exact (StrictWeak_lex2_key role_key). Qed.

Lemma StrictWeak_roleRefs_Less : StrictWeak roleRefs_Less.
Proof. exact (StrictWeak_lex2_key roleRef_key). Qed.

Lemma StrictWeak_bindings_Less : StrictWeak bindings_Less.
Proof. exact (StrictWeak_ltb_key binding_Namespace). Qed.

Lemma StrictWeak_roleBindings_Less : StrictWeak roleBindings_Less.
Proof. exact (StrictWeak_ltb_key roleBinding_UID). Qed.

Lemma rules_before_antisym a b :
  before rules_Less a b -> before rules_Less b a -> a = b.
Proof.
  intros H1 H2. pose proof (before_lex2_antisym rule_key _ _ H1 H2) as E.
  destruct a, b. unfold rule_key in E. simpl in E. congruence.
Qed.

Lemma roleRefs_before_antisym a b :
  before roleRefs_Less a b -> before roleRefs_Less b a -> a = b.
Proof.
  intros H1 H2. pose proof (before_lex2_antisym roleRef_key _ _ H1 H2) as E.
  destruct a, b. unfold roleRef_key in E. simpl in E. congruence.
Qed.

(** ** Consequences of the contract of [sort.Sort] *)

Section SortFacts.
Context {srt : Sorter}.

Lemma sort_Sort_elem_of {A} (less : A -> A -> bool) l x :
  x ∈ sort_Sort less l <-> x ∈ l.
Proof. by rewrite (sort_Sort_perm A less l). Qed.

Lemma sort_Sort_nil {A} (less : A -> A -> bool) : sort_Sort less [] = [].
Proof. apply Permutation_nil_r. apply sort_Sort_perm. Qed.

Lemma sort_Sort_eq_nil {A} (less : A -> A -> bool) l :
  sort_Sort less l = [] -> l = [].
Proof.
  intros H. apply Permutation_nil. rewrite <- H. apply sort_Sort_perm.
Qed.

(** Where [Less] tells any two distinct elements of the slice apart, the
    sorted slice does not depend on the order of the input. *)
Lemma sort_Sort_canonical {A} (less : A -> A -> bool) l1 l2 :
  StrictWeak less ->
  (forall x y, x ∈ l1 -> y ∈ l1 -> before less x y -> before less y x -> x = y) ->
  l1 ≡ₚ l2 ->
  sort_Sort less l1 = sort_Sort less l2.
Proof.
  intros Hsw Hanti Hperm.
  apply (StronglySorted_unique_strong (before less)).
  - intros x y Hx Hy. apply Hanti.
    + by apply sort_Sort_elem_of in Hx.
    + apply sort_Sort_elem_of in Hy. by rewrite Hperm.
  - by apply sort_Sort_sorted.
  - by apply sort_Sort_sorted.
  - by rewrite !sort_Sort_perm.
Qed.

Lemma sort_rules_canonical l1 l2 :
  l1 ≡ₚ l2 -> sort_Sort rules_Less l1 = sort_Sort rules_Less l2.
Proof.
  intros. apply sort_Sort_canonical; auto using StrictWeak_rules_Less.
  intros x y _ _. apply rules_before_antisym.
Qed.

Lemma sort_roleRefs_canonical l1 l2 :
  l1 ≡ₚ l2 -> sort_Sort roleRefs_Less l1 = sort_Sort roleRefs_Less l2.
Proof.
  intros. apply sort_Sort_canonical; auto using StrictWeak_roleRefs_Less.
  intros x y _ _. apply roleRefs_before_antisym.
Qed.

End SortFacts.

(** ** [insertionSort] meets the contract *)

Section InsertionSort.
Context {A : Type} (less : A -> A -> bool).

Lemma insert_left_perm x l : insert_left less x l ≡ₚ x :: l.
Proof.
  induction l as [|y l IH]; simpl; [done|].
  destruct (less x y); [|done].
  rewrite IH. apply Permutation_swap.
Qed.

Lemma insertionSort_perm l : insertionSort less l ≡ₚ l.
Proof.
  unfold insertionSort.
  assert (forall acc, foldl (fun rp x => insert_left less x rp) acc l ≡ₚ l ++ acc)
    as H.
  { induction l as [|x l IH]; intros acc; simpl; [done|].
    rewrite IH, insert_left_perm. by rewrite Permutation_middle. }
  rewrite <- Permutation_rev. rewrite H. by rewrite app_nil_r.
Qed.

(** The reversed prefix is kept in descending order. *)
Definition after (x y : A) : Prop := less x y = false.

Lemma insert_left_sorted x l :
  StrictWeak less ->
  StronglySorted after l -> StronglySorted after (insert_left less x l).
Proof.
  intros [Hasym Hneg] Hl.
  induction Hl as [|y l Hl IH Hy]; simpl.
  - repeat constructor.
  - destruct (less x y) eqn:Hxy.
    + constructor; [exact IH|].
      rewrite (insert_left_perm x l). constructor; [|exact Hy].
      unfold after. by apply Hasym.
    + constructor; [by constructor|].
      constructor; [exact Hxy|].
      eapply Forall_impl; [exact Hy|].
      intros z Hz. unfold after in *. by apply (Hneg z y x).
Qed.

Lemma insertionSort_sorted l :
  StrictWeak less -> StronglySorted (before less) (insertionSort less l).
Proof.
  intros Hsw. unfold insertionSort.
  assert (forall acc, StronglySorted after acc ->
            StronglySorted after (foldl (fun rp x => insert_left less x rp) acc l))
    as H.
  { induction l as [|x l IH]; intros acc Hacc; simpl; [done|].
    apply IH. by apply insert_left_sorted. }
  specialize (H [] (SSorted_nil _)).
  revert H. generalize (foldl (fun rp x => insert_left less x rp) [] l).
  intros r Hr. induction Hr as [|y r Hr IH Hy]; simpl; [constructor|].
  apply StronglySorted_app_2; [|exact IH|repeat constructor].
  intros x1 x2 Hx1 Hx2. apply list_elem_of_singleton in Hx2. subst.
  apply list_elem_of_In, in_rev, list_elem_of_In in Hx1.
  rewrite Forall_forall in Hy. by apply Hy.
Qed.

End InsertionSort.

(** Two orders to range over a map in: that of [map_to_list], and its
    reverse. *)
Definition forwardRange : MapRange := {|
  rangeOf V m := map_to_list m;
  rangeOf_perm V m := reflexivity (map_to_list m)
|}.

Definition backwardRange : MapRange := {|
  rangeOf V m := rev (map_to_list m);
  rangeOf_perm V m := Permutation_sym (Permutation_rev (map_to_list m))
|}.

(** [sort.Sort] as it runs on a short slice. *)
Definition insertionSorter : Sorter := {|
  sort_Sort := @insertionSort;
  sort_Sort_perm := @insertionSort_perm;
  sort_Sort_sorted := @insertionSort_sorted
|}.

(** ** The loops as list functions *)

(** Every pair of a method and an endpoint, methods outermost. *)
Definition pairs (methods endpoints : list string) : list rule :=
  flat_map (fun m => map (fun e => {| Method := m; Endpoint := e |}) endpoints)
           methods.

Lemma foldl_append {X Y} (f : X -> list Y) (acc : list Y) (l : list X) :
  foldl (fun acc x => acc ++ f x) acc l = acc ++ flat_map f l.
Proof.
  revert acc. induction l as [|x l IH]; intros acc; simpl.
  - by rewrite app_nil_r.
  - by rewrite IH, app_assoc.
Qed.

Lemma flat_map_pointwise_perm {X Y} (f g : X -> list Y) l :
  (forall x, f x ≡ₚ g x) -> flat_map f l ≡ₚ flat_map g l.
Proof.
  intros H. induction l as [|x l IH]; simpl; [done|]. by rewrite H, IH.
Qed.

Lemma foldl_ext_in {X S} (f g : S -> X -> S) (l : list X) (s : S) :
  (forall s x, x ∈ l -> f s x = g s x) -> foldl f s l = foldl g s l.
Proof.
  revert s. induction l as [|x l IH]; intros s H; simpl; [done|].
  rewrite H by left. apply IH. intros. apply H. by right.
Qed.

Lemma appendPairs_eq acc methods endpoints :
  appendPairs acc methods endpoints = acc ++ pairs methods endpoints.
Proof.
  unfold appendPairs, pairs.
  rewrite <- (foldl_append
    (fun m => map (fun e => {| Method := m; Endpoint := e |}) endpoints)).
  apply foldl_ext_in. intros s m _.
  rewrite (foldl_append (fun e => [{| Method := m; Endpoint := e |}])).
  reflexivity.
Qed.

Lemma elem_of_pairs r methods endpoints :
  r ∈ pairs methods endpoints <-> Method r ∈ methods /\ Endpoint r ∈ endpoints.
Proof.
  unfold pairs. rewrite list_elem_of_In, in_flat_map. split.
  - intros (m & Hm & Hr). apply in_map_iff in Hr as (e & <- & He).
    simpl. by rewrite !list_elem_of_In.
  - intros [Hm He]. exists (Method r). rewrite <- list_elem_of_In. split; [done|].
    apply in_map_iff. exists (Endpoint r). rewrite <- list_elem_of_In.
    by destruct r.
Qed.

Lemma range_ptr_append {X Y} (f : X -> list Y) (g : X -> X)
    (body : list Y -> X -> list Y * X) (s : list Y) (xs : list X) :
  (forall s x, body s x = (s ++ f x, g x)) ->
  range_ptr body s xs = (s ++ flat_map f xs, map g xs).
Proof.
  intros Hbody. revert s.
  induction xs as [|x xs IH]; intros s; simpl.
  - by rewrite app_nil_r.
  - rewrite Hbody, IH. by rewrite app_assoc.
Qed.

Section CompilerFacts.
Context {srt : Sorter} {rng : MapRange} {repo : Repository}.

(** The verbs the endpoint branch iterates over. *)
Definition effectiveVerbs (verbs : list string) : list string :=
  if isMethodAll verbs then AllMethods else verbs.

(** The rules one stored rule contributes to its role. *)
Definition ruleExpansion (tbl : gmap string (gmap string (list rule))) (r : Rule)
  : list rule :=
  if String.eqb (Rule_Kind r) KindResource
  then flat_map (fun res => GetRules tbl res (Rule_Verbs r)) (Rule_Resources r)
  else pairs (effectiveVerbs (Rule_Verbs r)) (Rule_Resources r).

(** The stored rule as [generateOPARoles] leaves it. *)
Definition ruleAfter (r : Rule) : Rule :=
  if String.eqb (Rule_Kind r) KindResource then r
  else {| Rule_Verbs := effectiveVerbs (Rule_Verbs r);
          Rule_Resources := Rule_Resources r;
          Rule_Kind := Rule_Kind r |}.

Definition roleAfter (ro : Role) : Role :=
  {| Role_Name := Role_Name ro;
     Role_Namespace := Role_Namespace ro;
     Role_Rules := map ruleAfter (Role_Rules ro) |}.

Definition compiledRole (tbl : gmap string (gmap string (list rule))) (ro : Role)
  : role :=
  {| role_Name := Role_Name ro;
     role_Namespace := Role_Namespace ro;
     role_Rules :=
       sort_Sort rules_Less (flat_map (ruleExpansion tbl) (Role_Rules ro)) |}.

Lemma compileRule_eq tbl rules r :
  compileRule tbl rules r = (rules ++ ruleExpansion tbl r, ruleAfter r).
Proof.
  unfold compileRule, ruleExpansion, ruleAfter, effectiveVerbs.
  destruct (String.eqb (Rule_Kind r) KindResource).
  - by rewrite foldl_append.
  - destruct (isMethodAll (Rule_Verbs r)); rewrite appendPairs_eq;
      [done|by destruct r].
Qed.

Lemma compileRole_eq tbl data ro :
  compileRole tbl data ro = (data ++ [compiledRole tbl ro], roleAfter ro).
Proof.
  unfold compileRole.
  rewrite (range_ptr_append (ruleExpansion tbl) ruleAfter)
    by apply compileRule_eq.
  reflexivity.
Qed.

Lemma generateOPARoles_eq roles policies :
  generateOPARoles roles policies =
  ({| Roles := sort_Sort roles_Less
                 (map (compiledRole (getResourceActionMappings policies)) roles) |},
   map roleAfter roles).
Proof.
  unfold generateOPARoles.
  rewrite (range_ptr_append
             (fun ro => [compiledRole (getResourceActionMappings policies) ro])
             roleAfter)
    by apply compileRole_eq.
  reflexivity.
Qed.

(** The table loops. *)
Definition tableExpansion (r : policyRule) : list rule :=
  pairs (effectiveVerbs (Methods r)) (Endpoints r).

Definition policyRuleAfter (r : policyRule) : policyRule :=
  {| Methods := effectiveVerbs (Methods r); Endpoints := Endpoints r |}.

Lemma expandPolicyRule_eq acc r :
  expandPolicyRule acc r = (acc ++ tableExpansion r, policyRuleAfter r).
Proof.
  unfold expandPolicyRule, tableExpansion, policyRuleAfter, effectiveVerbs.
  destruct (isMethodAll (Methods r)); rewrite appendPairs_eq;
    [done|by destruct r].
Qed.

(** Every rule held by the rule expansion table: in the order of the
    three nested loops, and in the order of [map_to_list]. *)
Definition rangedRules (tbl : gmap string (gmap string (list rule))) : list rule :=
  flat_map (fun rm => flat_map snd (rangeOf (snd rm))) (rangeOf tbl).

Definition mappedRules (tbl : gmap string (gmap string (list rule))) : list rule :=
  flat_map (fun rm => flat_map snd (map_to_list (snd rm))) (map_to_list tbl).

Lemma appendMappings_eq acc tbl : appendMappings acc tbl = acc ++ rangedRules tbl.
Proof.
  unfold appendMappings, rangedRules.
  rewrite <- (foldl_append (fun rm => flat_map snd (rangeOf (snd rm)))).
  apply foldl_ext_in. intros s rm _.
  rewrite <- (foldl_append snd). apply foldl_ext_in. intros s' rs _.
  rewrite (foldl_append (fun r => [r])).
  f_equal. induction (snd rs); simpl; congruence.
Qed.

Lemma rangedRules_perm tbl : rangedRules tbl ≡ₚ mappedRules tbl.
Proof.
  unfold rangedRules, mappedRules. rewrite (rangeOf_perm _ tbl).
  apply flat_map_pointwise_perm. intros rm. by rewrite rangeOf_perm.
Qed.

Lemma generateOPAExemptionURLs_eq policies t :
  generateOPAExemptionURLs policies t =
  ({| Public := sort_Sort rules_Less (flat_map tableExpansion (publicURLs t));
      Privileged :=
        sort_Sort rules_Less (flat_map tableExpansion (systemAdminURLs t));
      Registered :=
        sort_Sort rules_Less
          (mappedRules (getResourceActionMappings policies)
           ++ flat_map tableExpansion (adminURLs t)) |},
   {| publicURLs := map policyRuleAfter (publicURLs t);
      systemAdminURLs := map policyRuleAfter (systemAdminURLs t);
      adminURLs := map policyRuleAfter (adminURLs t) |}).
Proof.
  unfold generateOPAExemptionURLs.
  rewrite !(range_ptr_append tableExpansion policyRuleAfter)
    by apply expandPolicyRule_eq.
  rewrite appendMappings_eq. simpl. do 2 f_equal.
  apply sort_rules_canonical. by rewrite rangedRules_perm.
Qed.

End CompilerFacts.

(** ** Sorting the entries of a Go map *)

Section SortMap.
Context {srt : Sorter}.
Context {V B : Type} (h : string -> V -> B) (key : B -> string).
Context (less : B -> B -> bool).
Hypothesis key_h : forall k v, key (h k v) = k.
Hypothesis less_key : forall x y, less x y = String.ltb (key x) (key y).

Let entries (m : gmap string V) : list B :=
  map (fun kv => h (fst kv) (snd kv)) (map_to_list m).

Lemma StrictWeak_less_key : StrictWeak less.
Proof.
  split.
  - intros x y. rewrite !less_key. apply StrOrder.ltb_asym.
  - intros x y z. rewrite !less_key. apply StrOrder.ltb_negtrans.
Qed.

Lemma elem_of_entries m x :
  x ∈ entries m <-> exists k, h k <$> (m !! k) = Some x.
Proof.
  unfold entries. rewrite list_elem_of_In, in_map_iff. split.
  - intros ([k v] & <- & Hin). apply list_elem_of_In, elem_of_map_to_list in Hin.
    exists k. simpl. by rewrite Hin.
  - intros (k & Hk). destruct (m !! k) as [v|] eqn:E; [|done].
    simpl in Hk. exists (k, v). split; [simpl; congruence|].
    by apply list_elem_of_In, elem_of_map_to_list.
Qed.

Lemma NoDup_entries m : NoDup (entries m).
Proof.
  apply (NoDup_fmap_1 key). unfold entries.
  change (NoDup (map key (map (fun kv => h (fst kv) (snd kv)) (map_to_list m)))).
  rewrite map_map.
  erewrite map_ext; [apply (NoDup_fst_map_to_list m)|].
  intros [k v]. apply key_h.
Qed.

Lemma entries_key_inj m x y :
  x ∈ entries m -> y ∈ entries m -> key x = key y -> x = y.
Proof.
  rewrite !elem_of_entries. intros (k & Hk) (k' & Hk') E.
  destruct (m !! k) as [v|] eqn:E1; [|done].
  destruct (m !! k') as [v'|] eqn:E2; [|done].
  simpl in *. simplify_eq. rewrite !key_h in E. subst. congruence.
Qed.

(** The order in which a map is ranged over does not show in the sorted
    slice, and neither does anything of the values that [h] drops. *)
Lemma sort_entries_ext m m' :
  (forall k, h k <$> (m !! k) = h k <$> (m' !! k)) ->
  sort_Sort less (entries m) = sort_Sort less (entries m').
Proof.
  intros Hext. apply sort_Sort_canonical.
  - apply StrictWeak_less_key.
  - intros x y Hx Hy H1 H2. apply (entries_key_inj m); [done..|].
    unfold before in *. rewrite less_key in H1, H2.
    by apply StrOrder.ltb_trichotomy.
  - apply NoDup_Permutation; [apply NoDup_entries..|].
    intros x. rewrite !elem_of_entries.
    split; intros (k & Hk); exists k; by rewrite <- Hk, Hext.
Qed.

Lemma sort_entries_any_order m l :
  l ≡ₚ entries m -> sort_Sort less l = sort_Sort less (entries m).
Proof.
  intros Hl. apply sort_Sort_canonical.
  - apply StrictWeak_less_key.
  - intros x y Hx Hy H1 H2. rewrite Hl in Hx, Hy.
    apply (entries_key_inj m); [done..|].
    unfold before in *. rewrite less_key in H1, H2.
    by apply StrOrder.ltb_trichotomy.
  - done.
Qed.

End SortMap.

(** ** The role binding compiler as a function of its grants *)

Section BindingFacts.
Context {srt : Sorter} {repo : Repository}.

Definition isUser (s : Subject) : bool := String.eqb (Subject_Kind s) UserKind.

Definition refOf (rb : RoleBinding) : roleRef :=
  {| roleRef_Name := RoleRef_Name (RoleBinding_RoleRef rb);
     roleRef_Namespace := RoleRef_Namespace (RoleBinding_RoleRef rb) |}.

(** One grant per subject of kind User, in the order of the two loops:
    the subject's UID, the binding's namespace, the role reference. *)
Definition userGrants (rbs : list RoleBinding) : list (string * string * roleRef) :=
  flat_map (fun rb =>
              map (fun s => (Subject_UID s, RoleBinding_Namespace rb, refOf rb))
                  (List.filter isUser (RoleBinding_Subjects rb)))
           rbs.

(** [userRoleMap[u][n]], nil where either key is missing. *)
Definition grantsAt {X} (m : gmap string (gmap string (list X))) (u n : string)
  : list X :=
  default [] (default ∅ (m !! u) !! n).

Definition addGrant (m : gmap string (gmap string (list roleRef)))
    (g : string * string * roleRef) : gmap string (gmap string (list roleRef)) :=
  <[fst (fst g) :=
      <[snd (fst g) := grantsAt m (fst (fst g)) (snd (fst g)) ++ [snd g]]>
        (default ∅ (m !! fst (fst g)))]> m.

Lemma addSubject_eq rb m s :
  addSubject rb m s =
  if isUser s
  then addGrant m (Subject_UID s, RoleBinding_Namespace rb, refOf rb)
  else m.
Proof.
  unfold addSubject, isUser, addGrant, grantsAt, refOf. simpl.
  destruct (String.eqb (Subject_Kind s) UserKind); [|done].
  destruct (m !! Subject_UID s) as [nb|] eqn:E; simpl.
  - by rewrite E.
  - rewrite lookup_insert_eq. simpl. by rewrite insert_insert_eq.
Qed.

Lemma buildUserRoleMap_eq rbs :
  buildUserRoleMap rbs = foldl addGrant ∅ (userGrants rbs).
Proof.
  unfold buildUserRoleMap, userGrants. generalize (∅ : gmap string (gmap string (list roleRef))).
  induction rbs as [|rb rbs IH]; intros m; simpl; [done|].
  rewrite foldl_app, IH. f_equal.
  generalize (RoleBinding_Subjects rb). clear. intros ss. revert m.
  induction ss as [|s ss IH]; intros m; simpl; [done|].
  rewrite addSubject_eq. destruct (isUser s); simpl; apply IH.
Qed.

Lemma grantsAt_addGrant m u n r u' n' :
  grantsAt (addGrant m (u, n, r)) u' n' =
  if decide (u = u' /\ n = n') then grantsAt m u n ++ [r] else grantsAt m u' n'.
Proof.
  unfold addGrant, grantsAt. simpl.
  destruct (decide (u = u')) as [->|Hu].
  - rewrite lookup_insert_eq. simpl.
    destruct (decide (n = n')) as [->|Hn].
    + rewrite lookup_insert_eq. simpl. by rewrite decide_True.
    + rewrite lookup_insert_ne by done. rewrite decide_False; [done|tauto].
  - rewrite lookup_insert_ne by done. rewrite decide_False; [done|tauto].
Qed.

Definition grantsFor (gs : list (string * string * roleRef)) (u n : string)
  : list roleRef :=
  map snd (List.filter (fun g => bool_decide (fst (fst g) = u /\ snd (fst g) = n)) gs).

Lemma grantsAt_foldl gs m u n :
  grantsAt (foldl addGrant m gs) u n = grantsAt m u n ++ grantsFor gs u n.
Proof.
  revert m. induction gs as [|[[u0 n0] r0] gs IH]; intros m; simpl.
  - by rewrite app_nil_r.
  - rewrite IH, grantsAt_addGrant. unfold grantsFor. simpl.
    destruct (decide (u0 = u /\ n0 = n)) as [[-> ->]|Hne].
    + rewrite bool_decide_true by done. simpl. by rewrite <- app_assoc.
    + by rewrite bool_decide_false.
Qed.

(** No empty namespace map and no empty slice of role references is
    ever stored. *)
Definition noEmpty (m : gmap string (gmap string (list roleRef))) : Prop :=
  forall u nb, m !! u = Some nb ->
    nb <> ∅ /\ forall n b, nb !! n = Some b -> b <> [].

Lemma noEmpty_addGrant m g : noEmpty m -> noEmpty (addGrant m g).
Proof.
  destruct g as [[u n] r]. intros Hm u' nb'. unfold addGrant. simpl.
  destruct (decide (u = u')) as [->|Hu].
  - rewrite lookup_insert_eq. intros [= <-]. split.
    + apply insert_non_empty.
    + intros n' b'. destruct (decide (n = n')) as [->|Hn].
      * rewrite lookup_insert_eq. intros [= <-]. by destruct (grantsAt m u' n').
      * rewrite lookup_insert_ne by done.
        destruct (m !! u') as [nb|] eqn:E; simpl.
        -- apply (Hm _ _ E).
        -- by rewrite lookup_empty.
  - rewrite lookup_insert_ne by done. apply Hm.
Qed.

Lemma noEmpty_foldl gs m : noEmpty m -> noEmpty (foldl addGrant m gs).
Proof.
  revert m. induction gs as [|g gs IH]; intros m Hm; simpl; [done|].
  by apply IH, noEmpty_addGrant.
Qed.

Lemma noEmpty_buildUserRoleMap rbs : noEmpty (buildUserRoleMap rbs).
Proof.
  rewrite buildUserRoleMap_eq. apply noEmpty_foldl.
  intros u nb. by rewrite lookup_empty.
Qed.

Lemma grantsAt_buildUserRoleMap rbs u n :
  grantsAt (buildUserRoleMap rbs) u n = grantsFor (userGrants rbs) u n.
Proof.
  rewrite buildUserRoleMap_eq, grantsAt_foldl. unfold grantsAt.
  by rewrite lookup_empty.
Qed.

End BindingFacts.

Section BindingOutput.
Context {srt : Sorter} {rng : MapRange} {repo : Repository}.

Definition bindingOf (n : string) (b : list roleRef) : binding :=
  {| binding_Namespace := n; binding_RoleRefs := sort_Sort roleRefs_Less b |}.

(** The compiled forms with the maps gone through in the order of
    [map_to_list]. *)
Definition canonicalBindings (nb : gmap string (list roleRef)) : list binding :=
  sort_Sort bindings_Less
    (map (fun kv => bindingOf (fst kv) (snd kv)) (map_to_list nb)).

Definition roleBindingOf (u : string) (nb : gmap string (list roleRef))
  : roleBinding :=
  {| roleBinding_UID := u; roleBinding_Bindings := canonicalBindings nb |}.

Lemma compileBindings_eq nb : compileBindings nb = canonicalBindings nb.
Proof.
  unfold compileBindings, canonicalBindings.
  rewrite (foldl_append (fun kv => [bindingOf (fst kv) (snd kv)])). simpl.
  apply (sort_entries_any_order bindingOf binding_Namespace); [done..|].
  change (map (fun kv => bindingOf (fst kv) (snd kv)) (rangeOf nb) ≡ₚ
          map (fun kv => bindingOf (fst kv) (snd kv)) (map_to_list nb)).
  by rewrite rangeOf_perm.
Qed.

Lemma generateOPARoleBindings_eq rbs :
  generateOPARoleBindings rbs =
  {| RoleBindings :=
       sort_Sort roleBindings_Less
         (map (fun kv => roleBindingOf (fst kv) (snd kv))
              (map_to_list (buildUserRoleMap rbs))) |}.
Proof.
  unfold generateOPARoleBindings. f_equal.
  rewrite (foldl_append
             (fun kv => [ {| roleBinding_UID := fst kv;
                             roleBinding_Bindings := compileBindings (snd kv) |} ])).
  simpl.
  apply (sort_entries_any_order roleBindingOf roleBinding_UID); [done..|].
  rewrite (rangeOf_perm _ (buildUserRoleMap rbs)).
  generalize (map_to_list (buildUserRoleMap rbs)). intros l.
  induction l as [|kv l IH]; simpl; [done|].
  rewrite compileBindings_eq. by apply perm_skip.
Qed.

Lemma canonicalBindings_ext nb nb' :
  (forall n, option_Forall2 Permutation (nb !! n) (nb' !! n)) ->
  canonicalBindings nb = canonicalBindings nb'.
Proof.
  intros H. unfold canonicalBindings.
  apply (sort_entries_ext bindingOf binding_Namespace); [done..|].
  intros n. destruct (H n) as [b b' Hb|]; simpl; [|done].
  unfold bindingOf. by rewrite (sort_roleRefs_canonical b b').
Qed.

(** Two maps that hold the same grants up to their order. *)
Definition sameGrants (m m' : gmap string (gmap string (list roleRef))) : Prop :=
  forall u n, grantsAt m u n ≡ₚ grantsAt m' u n.

Lemma noEmpty_lookup m u nb n :
  noEmpty m -> m !! u = Some nb -> nb !! n = None <-> grantsAt m u n = [].
Proof.
  intros Hm Hu. unfold grantsAt. rewrite Hu. simpl.
  destruct (nb !! n) as [b|] eqn:E; simpl; [|done].
  split; [done|]. intros ->. by destruct (proj2 (Hm _ _ Hu) _ _ E).
Qed.

Lemma noEmpty_some_grant m u nb :
  noEmpty m -> m !! u = Some nb -> exists n, grantsAt m u n <> [].
Proof.
  intros Hm Hu. destruct (Hm _ _ Hu) as [Hne Hb].
  apply map_choose in Hne as (n & b & Hn). exists n.
  unfold grantsAt. rewrite Hu. simpl. rewrite Hn. simpl. by eapply Hb.
Qed.

Lemma grantsAt_absent (m : gmap string (gmap string (list roleRef))) u n :
  m !! u = None -> grantsAt m u n = [].
Proof. intros H. unfold grantsAt. rewrite H. simpl. by rewrite lookup_empty. Qed.

Lemma sameGrants_lookup m m' u :
  noEmpty m -> noEmpty m' -> sameGrants m m' ->
  option_Forall2 (fun nb nb' => forall n, option_Forall2 Permutation (nb !! n) (nb' !! n))
                 (m !! u) (m' !! u).
Proof.
  intros Hm Hm' Hs.
  destruct (m !! u) as [nb|] eqn:E; destruct (m' !! u) as [nb'|] eqn:E'.
  - constructor. intros n. pose proof (Hs u n) as Hp.
    destruct (nb !! n) as [b|] eqn:Eb; destruct (nb' !! n) as [b'|] eqn:Eb'.
    + constructor. unfold grantsAt in Hp. rewrite E, E' in Hp. simpl in Hp.
      by rewrite Eb, Eb' in Hp.
    + apply (noEmpty_lookup m' u nb' n Hm' E') in Eb'. rewrite Eb' in Hp.
      apply Permutation_nil_r in Hp.
      apply (noEmpty_lookup m u nb n Hm E) in Hp. congruence.
    + apply (noEmpty_lookup m u nb n Hm E) in Eb. rewrite Eb in Hp.
      apply Permutation_nil in Hp.
      apply (noEmpty_lookup m' u nb' n Hm' E') in Hp. congruence.
    + constructor.
  - destruct (noEmpty_some_grant m u nb Hm E) as (n & Hn).
    pose proof (Hs u n) as Hp. rewrite (grantsAt_absent m' u n E') in Hp.
    by apply Permutation_nil_r in Hp.
  - destruct (noEmpty_some_grant m' u nb' Hm' E') as (n & Hn).
    pose proof (Hs u n) as Hp. rewrite (grantsAt_absent m u n E) in Hp.
    by apply Permutation_nil in Hp.
  - constructor.
Qed.

Lemma roleBindings_ext m m' :
  noEmpty m -> noEmpty m' -> sameGrants m m' ->
  sort_Sort roleBindings_Less
    (map (fun kv => roleBindingOf (fst kv) (snd kv)) (map_to_list m)) =
  sort_Sort roleBindings_Less
    (map (fun kv => roleBindingOf (fst kv) (snd kv)) (map_to_list m')).
Proof.
  intros Hm Hm' Hs.
  apply (sort_entries_ext roleBindingOf roleBinding_UID); [done..|].
  intros u. destruct (sameGrants_lookup m m' u Hm Hm' Hs) as [nb nb' Hnb|];
    simpl; [|done].
  unfold roleBindingOf. by rewrite (canonicalBindings_ext nb nb').
Qed.

Lemma grantsFor_perm gs gs' u n :
  gs ≡ₚ gs' -> grantsFor gs u n ≡ₚ grantsFor gs' u n.
Proof.
  intros H. unfold grantsFor. apply Permutation_map.
  induction H; simpl; try done.
  - destruct (bool_decide _); [by constructor|done].
  - destruct (bool_decide _), (bool_decide _); try done. apply perm_swap.
  - etransitivity; eauto.
Qed.

(** The compiled bindings are a function of the grants of the User
    subjects, whatever their order. *)
Lemma generateOPARoleBindings_grants rbs rbs' :
  userGrants rbs ≡ₚ userGrants rbs' ->
  generateOPARoleBindings rbs = generateOPARoleBindings rbs'.
Proof.
  intros H. rewrite !generateOPARoleBindings_eq. f_equal.
  apply roleBindings_ext; try apply noEmpty_buildUserRoleMap.
  intros u n. rewrite !grantsAt_buildUserRoleMap. by apply grantsFor_perm.
Qed.

End BindingOutput.

(** * Part IV: the properties *)

#[local] Instance rule_eq_dec : EqDecision rule.
Proof. solve_decision. Defined.

(** "Sorted by (endpoint, then method)" and "sorted by (namespace, then
    name)", as orders on the elements: strictly smaller first field, or
    equal first field and second field not greater. *)
Definition pair_le (p q : string * string) : Prop :=
  String.ltb (fst p) (fst q) = true \/
  (fst p = fst q /\ String.leb (snd p) (snd q) = true).

Definition rule_le (a b : rule) : Prop :=
  pair_le (Endpoint a, Method a) (Endpoint b, Method b).

Definition role_le (a b : role) : Prop :=
  pair_le (role_Namespace a, role_Name a) (role_Namespace b, role_Name b).

Lemma leb_not_ltb (a b : string) :
  String.leb a b = true <-> String.ltb b a = false.
Proof.
  unfold String.leb, String.ltb. rewrite (String.compare_antisym b a).
  destruct (String.compare a b); simpl; split; congruence.
Qed.

Lemma lex2_before_iff p q : lex2 q p = false <-> pair_le p q.
Proof.
  unfold lex2, pair_le. rewrite leb_not_ltb.
  destruct (String.eqb (fst q) (fst p)) eqn:E.
  - apply String.eqb_eq in E. rewrite E, StrOrder.ltb_irrefl. intuition congruence.
  - apply String.eqb_neq in E. split.
    + intros H. left.
      destruct (String.ltb (fst p) (fst q)) eqn:Hpq; [done|].
      destruct E. by apply StrOrder.ltb_trichotomy.
    + intros [H|[H _]]; [by apply StrOrder.ltb_asym|congruence].
Qed.

Lemma before_rules_Less a b : before rules_Less a b <-> rule_le a b.
Proof. apply (lex2_before_iff (rule_key a) (rule_key b)). Qed.

Lemma before_roles_Less a b : before roles_Less a b <-> role_le a b.
Proof. apply (lex2_before_iff (role_key a) (role_key b)). Qed.

Lemma StronglySorted_iff {A} (R R' : A -> A -> Prop) l :
  (forall x y, R x y <-> R' x y) -> StronglySorted R l -> StronglySorted R' l.
Proof.
  intros H. induction 1 as [|x l Hl IH Hx]; constructor; [done|].
  eapply Forall_impl; [exact Hx|]. intros y. apply H.
Qed.

Section RoleCompiler.
Context {srt : Sorter} {rng : MapRange} {repo : Repository}.

(** C4 (amended): for every role list and policy list, the compiled
    roles are sorted by (namespace, then name) and the rules of each
    compiled role are sorted by (endpoint, then method); the rules of a
    compiled role are those its stored rules expand to, each as often
    as it is produced (repeated pairs stay), and there is one compiled
    role per stored role. *)
Theorem generateOPARoles_sorted (roles : list Role) (policies : list Policy) :
  StronglySorted role_le (Roles (fst (generateOPARoles roles policies))) /\
  Forall (fun cr => StronglySorted rule_le (role_Rules cr))
         (Roles (fst (generateOPARoles roles policies))) /\
  Roles (fst (generateOPARoles roles policies)) ≡ₚ
    map (compiledRole (getResourceActionMappings policies)) roles /\
  forall ro,
    role_Rules (compiledRole (getResourceActionMappings policies) ro) ≡ₚ
    flat_map (ruleExpansion (getResourceActionMappings policies)) (Role_Rules ro).
Proof.
  rewrite generateOPARoles_eq. simpl. repeat split.
  - apply (StronglySorted_iff (before roles_Less)); [apply before_roles_Less|].
    apply sort_Sort_sorted, StrictWeak_roles_Less.
  - apply Forall_forall. intros cr Hcr.
    apply sort_Sort_elem_of, list_elem_of_In, in_map_iff in Hcr as (ro & <- & _).
    apply (StronglySorted_iff (before rules_Less)); [apply before_rules_Less|].
    apply sort_Sort_sorted, StrictWeak_rules_Less.
  - apply sort_Sort_perm.
  - intros ro. apply sort_Sort_perm.
Qed.

(** A sorted rearrangement of a slice of rules is what [sort.Sort]
    returns for it. *)
Lemma sort_rules_eq l l' :
  StronglySorted (before rules_Less) l' -> l ≡ₚ l' ->
  sort_Sort rules_Less l = l'.
Proof.
  intros Hs Hp. apply (StronglySorted_unique_strong (before rules_Less)).
  - intros x y _ _. apply rules_before_antisym.
  - apply sort_Sort_sorted, StrictWeak_rules_Less.
  - done.
  - by rewrite sort_Sort_perm.
Qed.

Lemma sort_Sort_singleton {A} (less : A -> A -> bool) x :
  sort_Sort less [x] = [x].
Proof. apply Permutation_length_1_inv. symmetry. apply sort_Sort_perm. Qed.

(** C5: a role whose single rule is of endpoint kind (any kind other
    than [KindResource]), on ["/api/builds"] with verbs exactly ["*"],
    compiles to exactly the five rules that pair /api/builds with
    DELETE, GET, PATCH, POST and PUT, in this (method) order. *)
Theorem wildcard_role_has_five_rules
    (name namespace kind : string) (policies : list Policy) :
  kind <> KindResource ->
  fst (generateOPARoles
         [ {| Role_Name := name; Role_Namespace := namespace;
              Role_Rules := [ {| Rule_Verbs := ["*"];
                                 Rule_Resources := ["/api/builds"];
                                 Rule_Kind := kind |} ] |} ]
         policies) =
  {| Roles :=
       [ {| role_Name := name; role_Namespace := namespace;
            role_Rules :=
              [ {| Method := "DELETE"; Endpoint := "/api/builds" |};
                {| Method := "GET"; Endpoint := "/api/builds" |};
                {| Method := "PATCH"; Endpoint := "/api/builds" |};
                {| Method := "POST"; Endpoint := "/api/builds" |};
                {| Method := "PUT"; Endpoint := "/api/builds" |} ] |} ] |}.
Proof.
  intros Hkind. rewrite generateOPARoles_eq. simpl.
  rewrite sort_Sort_singleton. unfold compiledRole, ruleExpansion. simpl.
  apply String.eqb_neq in Hkind. rewrite Hkind. simpl.
  do 3 f_equal. apply sort_rules_eq.
  - repeat constructor.
  - apply (bool_decide_unpack _). by vm_compute.
Qed.

End RoleCompiler.

Lemma isMethodAll_true v : isMethodAll v = true <-> v = [MethodAll].
Proof.
  destruct v as [|x [|y v]]; simpl; try (split; congruence).
  rewrite String.eqb_eq. split; congruence.
Qed.

Lemma effectiveVerbs_other v : v <> [MethodAll] -> effectiveVerbs v = v.
Proof.
  intros H. unfold effectiveVerbs.
  destruct (isMethodAll v) eqn:E; [|done]. by apply isMethodAll_true in E.
Qed.

Lemma effectiveVerbs_all : effectiveVerbs [MethodAll] = AllMethods.
Proof. reflexivity. Qed.

Section InputsAndWildcards.
Context {srt : Sorter} {rng : MapRange} {repo : Repository}.

(** What a call of [generateOPARoles] leaves of a stored rule: kind and
    resources as they were; the verbs as they were, unless the rule is
    not of resource kind and its verbs are exactly ["*"], in which case
    the verbs now are [AllMethods]. *)
Definition ruleLeftAs (r r' : Rule) : Prop :=
  Rule_Kind r' = Rule_Kind r /\
  Rule_Resources r' = Rule_Resources r /\
  (Rule_Kind r <> KindResource /\ Rule_Verbs r = [MethodAll] ->
   Rule_Verbs r' = AllMethods) /\
  (~ (Rule_Kind r <> KindResource /\ Rule_Verbs r = [MethodAll]) ->
   Rule_Verbs r' = Rule_Verbs r).

Lemma ruleAfter_ruleLeftAs r : ruleLeftAs r (ruleAfter r).
Proof.
  unfold ruleLeftAs, ruleAfter.
  destruct (String.eqb (Rule_Kind r) KindResource) eqn:E.
  - apply String.eqb_eq in E. repeat split; tauto.
  - apply String.eqb_neq in E. simpl. repeat split.
    + intros [_ ->]. reflexivity.
    + intros H. apply effectiveVerbs_other. tauto.
Qed.

(** C9 (amended): [generateOPARoles] leaves every stored role with its
    name, its namespace and the number of its rules, and every rule with
    its kind and resources; it leaves the verbs of a rule unchanged
    except where the rule is not of resource kind and its verbs are
    exactly ["*"]: that rule is left with the verbs [AllMethods]. *)
Theorem generateOPARoles_leaves_inputs (roles : list Role) (policies : list Policy) :
  Forall2 (fun ro ro' =>
             Role_Name ro' = Role_Name ro /\
             Role_Namespace ro' = Role_Namespace ro /\
             Forall2 ruleLeftAs (Role_Rules ro) (Role_Rules ro'))
          roles (snd (generateOPARoles roles policies)).
Proof.
  rewrite generateOPARoles_eq. simpl.
  assert (forall rs, Forall2 ruleLeftAs rs (map ruleAfter rs)) as Hrules.
  { induction rs as [|r rs IHr]; simpl; constructor;
      [apply ruleAfter_ruleLeftAs|exact IHr]. }
  induction roles as [|ro roles IH]; simpl; constructor; [|exact IH].
  repeat split. apply Hrules.
Qed.

Lemma ruleExpansion_endpoint tbl r :
  Rule_Kind r <> KindResource ->
  ruleExpansion tbl r = pairs (effectiveVerbs (Rule_Verbs r)) (Rule_Resources r).
Proof.
  intros H. unfold ruleExpansion. apply String.eqb_neq in H. by rewrite H.
Qed.

Lemma ruleAfter_other r :
  Rule_Kind r <> KindResource -> Rule_Verbs r <> [MethodAll] -> ruleAfter r = r.
Proof.
  intros Hk Hv. unfold ruleAfter. apply String.eqb_neq in Hk. rewrite Hk.
  rewrite effectiveVerbs_other by done. by destruct r.
Qed.

Lemma tableExpansion_other pr :
  Methods pr <> [MethodAll] -> tableExpansion pr = pairs (Methods pr) (Endpoints pr).
Proof. intros H. unfold tableExpansion. by rewrite effectiveVerbs_other. Qed.

(** C10: the wildcard is expanded only where the verb (method) list is
    exactly ["*"].  For a list [verbs] that holds "*" among other
    entries: a role whose one rule of endpoint kind carries [verbs]
    compiles to the pairs of [verbs] with its resources, the rule itself
    being left as it was; in any role list a rule with these verbs puts
    the rule with the literal method "*" into its compiled role for
    each of its resources; and an entry of a static table with these
    methods puts the literal "*" rules into the list compiled from that
    table. *)
Theorem wildcard_only_when_alone (verbs endpoints : list string) :
  MethodAll ∈ verbs -> verbs <> [MethodAll] ->
  (forall name namespace kind policies,
     kind <> KindResource ->
     generateOPARoles
       [ {| Role_Name := name; Role_Namespace := namespace;
            Role_Rules := [ {| Rule_Verbs := verbs;
                               Rule_Resources := endpoints;
                               Rule_Kind := kind |} ] |} ]
       policies =
     ({| Roles := [ {| role_Name := name; role_Namespace := namespace;
                       role_Rules :=
                         sort_Sort rules_Less (pairs verbs endpoints) |} ] |},
      [ {| Role_Name := name; Role_Namespace := namespace;
           Role_Rules := [ {| Rule_Verbs := verbs;
                              Rule_Resources := endpoints;
                              Rule_Kind := kind |} ] |} ])) /\
  (forall roles policies ro kind e,
     kind <> KindResource ->
     ro ∈ roles ->
     {| Rule_Verbs := verbs; Rule_Resources := endpoints; Rule_Kind := kind |}
       ∈ Role_Rules ro ->
     e ∈ endpoints ->
     exists cr,
       cr ∈ Roles (fst (generateOPARoles roles policies)) /\
       role_Name cr = Role_Name ro /\
       role_Namespace cr = Role_Namespace ro /\
       {| Method := "*"; Endpoint := e |} ∈ role_Rules cr) /\
  (forall policies t e,
     e ∈ endpoints ->
     let entry := {| Methods := verbs; Endpoints := endpoints |} in
     let out := fst (generateOPAExemptionURLs policies t) in
     (entry ∈ publicURLs t -> {| Method := "*"; Endpoint := e |} ∈ Public out) /\
     (entry ∈ systemAdminURLs t ->
      {| Method := "*"; Endpoint := e |} ∈ Privileged out) /\
     (entry ∈ adminURLs t -> {| Method := "*"; Endpoint := e |} ∈ Registered out)) /\
  (forall policies t,
     publicURLs t = [ {| Methods := verbs; Endpoints := endpoints |} ] ->
     Public (fst (generateOPAExemptionURLs policies t)) =
       sort_Sort rules_Less (pairs verbs endpoints) /\
     publicURLs (snd (generateOPAExemptionURLs policies t)) = publicURLs t).
Proof.
  intros Hstar Hmore.
  assert (forall e, e ∈ endpoints ->
            {| Method := "*"; Endpoint := e |} ∈ pairs verbs endpoints) as Hlit.
  { intros e He. by apply elem_of_pairs. }
  repeat split.
  - intros name namespace kind policies Hkind.
    rewrite generateOPARoles_eq. simpl. rewrite sort_Sort_singleton.
    unfold compiledRole, roleAfter. simpl.
    rewrite ruleExpansion_endpoint, ruleAfter_other by done. simpl.
    rewrite effectiveVerbs_other by done. by rewrite app_nil_r.
  - intros roles policies ro kind e Hkind Hro Hr He.
    exists (compiledRole (getResourceActionMappings policies) ro).
    rewrite generateOPARoles_eq. simpl. repeat split.
    + apply sort_Sort_elem_of, list_elem_of_In, in_map, list_elem_of_In, Hro.
    + apply sort_Sort_elem_of, list_elem_of_In, in_flat_map.
      eexists. split; [apply list_elem_of_In, Hr|].
      rewrite ruleExpansion_endpoint by done. simpl.
      rewrite effectiveVerbs_other by done. by apply list_elem_of_In, Hlit.
  - intros Hin. rewrite generateOPAExemptionURLs_eq. simpl.
    apply sort_Sort_elem_of, list_elem_of_In, in_flat_map.
    eexists. split; [apply list_elem_of_In, Hin|].
    rewrite tableExpansion_other by done. by apply list_elem_of_In, Hlit.
  - intros Hin. rewrite generateOPAExemptionURLs_eq. simpl.
    apply sort_Sort_elem_of, list_elem_of_In, in_flat_map.
    eexists. split; [apply list_elem_of_In, Hin|].
    rewrite tableExpansion_other by done. by apply list_elem_of_In, Hlit.
  - intros Hin. rewrite generateOPAExemptionURLs_eq. simpl.
    apply sort_Sort_elem_of, elem_of_app. right.
    apply list_elem_of_In, in_flat_map.
    eexists. split; [apply list_elem_of_In, Hin|].
    rewrite tableExpansion_other by done. by apply list_elem_of_In, Hlit.
  - rewrite generateOPAExemptionURLs_eq. simpl. rewrite H. simpl.
    rewrite tableExpansion_other by done. simpl. by rewrite app_nil_r.
  - rewrite generateOPAExemptionURLs_eq. simpl. rewrite H. simpl.
    unfold policyRuleAfter. simpl. by rewrite effectiveVerbs_other.
Qed.

End InputsAndWildcards.

(** A pair is known to the rule expansion table when some resource and
    verb have it among their rules. *)
Definition mapped (tbl : gmap string (gmap string (list rule))) (r : rule) : Prop :=
  exists resource verb (m : gmap string (list rule)) (rs : list rule),
    tbl !! resource = Some m /\ m !! verb = Some rs /\ r ∈ rs.

Lemma elem_of_mappedRules tbl r : r ∈ mappedRules tbl <-> mapped tbl r.
Proof.
  unfold mappedRules, mapped. rewrite list_elem_of_In, in_flat_map. split.
  - intros ([resource m] & Hm & Hr). simpl in Hr.
    apply in_flat_map in Hr as ([verb rs] & Hrs & Hr). simpl in Hr.
    apply list_elem_of_In, elem_of_map_to_list in Hm, Hrs.
    exists resource, verb, m, rs. by rewrite list_elem_of_In.
  - intros (resource & verb & m & rs & Hm & Hrs & Hr).
    exists (resource, m). split; [by apply list_elem_of_In, elem_of_map_to_list|].
    simpl. apply in_flat_map. exists (verb, rs).
    split; [by apply list_elem_of_In, elem_of_map_to_list|].
    by apply list_elem_of_In.
Qed.

Section Exemptions.
Context {srt : Sorter} {rng : MapRange} {repo : Repository}.

(** The pairs a static table stands for: each entry's endpoints under
    each of its methods, ["*"] alone standing for every method. *)
Definition listed (table : list policyRule) (r : rule) : Prop :=
  exists entry, entry ∈ table /\
    Endpoint r ∈ Endpoints entry /\
    Method r ∈ (if decide (Methods entry = [MethodAll]) then AllMethods
                else Methods entry).

Lemma elem_of_tableExpansion table r :
  r ∈ flat_map tableExpansion table <-> listed table r.
Proof.
  unfold listed. rewrite list_elem_of_In, in_flat_map.
  assert (forall entry,
            effectiveVerbs (Methods entry) =
            if decide (Methods entry = [MethodAll]) then AllMethods
            else Methods entry) as Heff.
  { intros entry. destruct (decide (Methods entry = [MethodAll])) as [->|H];
      [done|by apply effectiveVerbs_other]. }
  split; intros (entry & Hin & Hr); exists entry.
  - apply list_elem_of_In in Hin, Hr. apply elem_of_pairs in Hr.
    rewrite <- Heff. tauto.
  - rewrite <- list_elem_of_In. split; [done|].
    apply list_elem_of_In, elem_of_pairs. rewrite Heff. tauto.
Qed.

(** C2 (amended): for every policy list, Registered holds exactly the
    pairs known to the rule expansion table together with the pairs
    listed in [adminURLs]; Public holds exactly the pairs listed in
    [publicURLs] and Privileged those listed in [systemAdminURLs].  So
    Registered is a superset of every mapped pair, and it holds a
    Public or Privileged pair only where that pair is also mapped or
    listed in [adminURLs]. *)
Theorem Registered_is_mapped_and_admin (policies : list Policy) (t : urlTables)
    (r : rule) :
  (r ∈ Registered (fst (generateOPAExemptionURLs policies t)) <->
   mapped (getResourceActionMappings policies) r \/ listed (adminURLs t) r) /\
  (r ∈ Public (fst (generateOPAExemptionURLs policies t)) <->
   listed (publicURLs t) r) /\
  (r ∈ Privileged (fst (generateOPAExemptionURLs policies t)) <->
   listed (systemAdminURLs t) r).
Proof.
  rewrite generateOPAExemptionURLs_eq. simpl.
  rewrite !sort_Sort_elem_of, elem_of_app.
  rewrite elem_of_mappedRules, !elem_of_tableExpansion. tauto.
Qed.

End Exemptions.

Section Bindings.
Context {srt : Sorter} {rng : MapRange} {repo : Repository}.

(** The binding with its subjects of other kinds than User removed. *)
Definition usersOnly (rb : RoleBinding) : RoleBinding :=
  {| RoleBinding_Namespace := RoleBinding_Namespace rb;
     RoleBinding_Subjects := List.filter isUser (RoleBinding_Subjects rb);
     RoleBinding_RoleRef := RoleBinding_RoleRef rb |}.

Lemma filter_idem {X} (f : X -> bool) l :
  List.filter f (List.filter f l) = List.filter f l.
Proof.
  induction l as [|x l IH]; simpl; [done|].
  destruct (f x) eqn:E; simpl; [rewrite E; congruence|done].
Qed.

Lemma filter_none {X} (f : X -> bool) l :
  (forall x, x ∈ l -> f x = false) -> List.filter f l = [].
Proof.
  induction l as [|x l IH]; intros H; simpl; [done|].
  rewrite H by left. apply IH. intros. apply H. by right.
Qed.

Lemma userGrants_app rbs rbs' :
  userGrants (rbs ++ rbs') = userGrants rbs ++ userGrants rbs'.
Proof. unfold userGrants. apply flat_map_app. Qed.

Lemma userGrants_usersOnly rb rbs :
  userGrants (usersOnly rb :: rbs) = userGrants (rb :: rbs).
Proof.
  unfold userGrants, usersOnly, refOf. simpl. f_equal.
  by rewrite (filter_idem isUser).
Qed.

Lemma userGrants_no_user rb rbs :
  (forall s, s ∈ RoleBinding_Subjects rb -> Subject_Kind s <> UserKind) ->
  userGrants (rb :: rbs) = userGrants rbs.
Proof.
  intros H. unfold userGrants. simpl. rewrite filter_none; [done|].
  intros s Hs. unfold isUser. apply String.eqb_neq. by apply H.
Qed.

Lemma elem_of_grantsFor gs u n ref :
  ref ∈ grantsFor gs u n <-> (u, n, ref) ∈ gs.
Proof.
  unfold grantsFor. rewrite !list_elem_of_In, in_map_iff. split.
  - intros ([[u' n'] ref'] & <- & Hin). apply filter_In in Hin as [Hin Hd].
    apply bool_decide_eq_true in Hd as [<- <-]. done.
  - intros Hin. exists (u, n, ref). split; [done|].
    apply filter_In. split; [done|]. by apply bool_decide_eq_true.
Qed.

Lemma elem_of_userGrants rbs u n ref :
  (u, n, ref) ∈ userGrants rbs <->
  exists rb s, rb ∈ rbs /\ s ∈ RoleBinding_Subjects rb /\
    Subject_Kind s = UserKind /\ Subject_UID s = u /\
    RoleBinding_Namespace rb = n /\ refOf rb = ref.
Proof.
  unfold userGrants. rewrite list_elem_of_In, in_flat_map. split.
  - intros (rb & Hrb & Hin). apply in_map_iff in Hin as (s & Heq & Hs).
    apply filter_In in Hs as [Hs Hk]. unfold isUser in Hk.
    apply String.eqb_eq in Hk. exists rb, s. rewrite !list_elem_of_In.
    by simplify_eq.
  - intros (rb & s & Hrb & Hs & Hk & <- & <- & <-).
    exists rb. rewrite <- list_elem_of_In. split; [done|].
    apply in_map_iff. exists s. split; [done|].
    apply filter_In. rewrite <- list_elem_of_In. split; [done|].
    unfold isUser. by apply String.eqb_eq.
Qed.

(** Every compiled entry stems from grants: it names a UID, a namespace
    under it and a role reference there only if some stored binding in
    that namespace with that role reference has a User subject with
    that UID; and no entry and no namespace group is empty. *)
Lemma compiled_entry_grants rbs e :
  e ∈ RoleBindings (generateOPARoleBindings rbs) ->
  roleBinding_Bindings e <> [] /\
  forall b, b ∈ roleBinding_Bindings e ->
    binding_RoleRefs b <> [] /\
    forall ref, ref ∈ binding_RoleRefs b ->
      (roleBinding_UID e, binding_Namespace b, ref) ∈ userGrants rbs.
Proof.
  rewrite generateOPARoleBindings_eq. simpl. rewrite sort_Sort_elem_of.
  rewrite list_elem_of_In, in_map_iff. intros ([u nb] & <- & Hin).
  apply list_elem_of_In, elem_of_map_to_list in Hin. simpl.
  pose proof (noEmpty_buildUserRoleMap rbs u nb Hin) as [Hne Hb].
  unfold canonicalBindings. split.
  - intros Hnil. apply Hne. apply map_to_list_empty_iff.
    apply sort_Sort_eq_nil in Hnil. by destruct (map_to_list nb).
  - intros b. rewrite sort_Sort_elem_of, list_elem_of_In, in_map_iff.
    intros ([n refs] & <- & Hn). apply list_elem_of_In, elem_of_map_to_list in Hn.
    simpl. split.
    + intros Hnil. apply (Hb n refs Hn). by apply sort_Sort_eq_nil in Hnil.
    + intros ref. rewrite sort_Sort_elem_of. intros Href.
      apply elem_of_grantsFor. rewrite <- grantsAt_buildUserRoleMap.
      unfold grantsAt. rewrite Hin. simpl. by rewrite Hn.
Qed.

(** Every grant is compiled: a User subject of a stored binding has an
    entry under its UID, with a group for the binding's namespace that
    holds the binding's role reference. *)
Lemma grant_is_compiled rbs u n ref :
  (u, n, ref) ∈ userGrants rbs ->
  exists e b,
    e ∈ RoleBindings (generateOPARoleBindings rbs) /\
    roleBinding_UID e = u /\
    b ∈ roleBinding_Bindings e /\
    binding_Namespace b = n /\
    ref ∈ binding_RoleRefs b.
Proof.
  intros Hg. apply elem_of_grantsFor in Hg.
  rewrite <- grantsAt_buildUserRoleMap in Hg. unfold grantsAt in Hg.
  destruct (buildUserRoleMap rbs !! u) as [nb|] eqn:Eu; simpl in Hg;
    [|rewrite lookup_empty in Hg; by apply elem_of_nil in Hg].
  destruct (nb !! n) as [refs|] eqn:En; simpl in Hg;
    [|by apply elem_of_nil in Hg].
  exists (roleBindingOf u nb), (bindingOf n refs).
  rewrite generateOPARoleBindings_eq. simpl. split; [|split; [done|split]].
  - rewrite sort_Sort_elem_of. apply list_elem_of_In, in_map_iff.
    exists (u, nb). split; [done|].
    by apply list_elem_of_In, elem_of_map_to_list.
  - unfold canonicalBindings. rewrite sort_Sort_elem_of.
    apply list_elem_of_In, in_map_iff.
    exists (n, refs). split; [done|].
    by apply list_elem_of_In, elem_of_map_to_list.
  - split; [done|]. by rewrite sort_Sort_elem_of.
Qed.

(** C6: a binding all of whose subjects are of another kind than User
    contributes nothing to the compiled bindings (the output is the one
    compiled without it; alone it compiles to no entry at all), and any
    binding contributes what its User subjects contribute (the output
    is the one compiled from the binding stripped of its other
    subjects).  Every entry of the output carries the UID of a User
    subject and, per namespace, only role references bound there to
    such a subject; no entry and no namespace group is empty.  And
    every User subject of a binding, whatever other subjects the
    binding has, does contribute: the output has an entry under its
    UID, with a group for the binding's namespace that holds the
    binding's role reference. *)
Theorem only_User_subjects_contribute
    (pre post : list RoleBinding) (rb : RoleBinding) :
  ((forall s, s ∈ RoleBinding_Subjects rb -> Subject_Kind s <> UserKind) ->
   generateOPARoleBindings (pre ++ rb :: post) =
     generateOPARoleBindings (pre ++ post) /\
   generateOPARoleBindings [rb] = {| RoleBindings := [] |}) /\
  generateOPARoleBindings (pre ++ rb :: post) =
    generateOPARoleBindings (pre ++ usersOnly rb :: post) /\
  (forall e, e ∈ RoleBindings (generateOPARoleBindings (pre ++ rb :: post)) ->
     roleBinding_Bindings e <> [] /\
     forall b, b ∈ roleBinding_Bindings e ->
       binding_RoleRefs b <> [] /\
       forall ref, ref ∈ binding_RoleRefs b ->
         exists rb' s, rb' ∈ pre ++ rb :: post /\
           s ∈ RoleBinding_Subjects rb' /\
           Subject_Kind s = UserKind /\
           Subject_UID s = roleBinding_UID e /\
           RoleBinding_Namespace rb' = binding_Namespace b /\
           RoleRef_Name (RoleBinding_RoleRef rb') = roleRef_Name ref /\
           RoleRef_Namespace (RoleBinding_RoleRef rb') = roleRef_Namespace ref) /\
  (forall s, s ∈ RoleBinding_Subjects rb -> Subject_Kind s = UserKind ->
     exists e b,
       e ∈ RoleBindings (generateOPARoleBindings (pre ++ rb :: post)) /\
       roleBinding_UID e = Subject_UID s /\
       b ∈ roleBinding_Bindings e /\
       binding_Namespace b = RoleBinding_Namespace rb /\
       {| roleRef_Name := RoleRef_Name (RoleBinding_RoleRef rb);
          roleRef_Namespace := RoleRef_Namespace (RoleBinding_RoleRef rb) |}
         ∈ binding_RoleRefs b).
Proof.
  split; [|split; [|split]].
  - intros Hnone. split.
    + apply generateOPARoleBindings_grants.
      by rewrite !userGrants_app, userGrants_no_user.
    + rewrite (generateOPARoleBindings_grants [rb] []).
      * rewrite generateOPARoleBindings_eq. unfold buildUserRoleMap. simpl.
        rewrite map_to_list_empty. simpl. by rewrite sort_Sort_nil.
      * by rewrite userGrants_no_user.
  - apply generateOPARoleBindings_grants.
    by rewrite !userGrants_app, userGrants_usersOnly.
  - intros e He. destruct (compiled_entry_grants _ e He) as [Hne Hb].
    split; [exact Hne|].
    intros b Hbin. destruct (Hb b Hbin) as [Hrne Hrefs]. split; [exact Hrne|].
    intros ref Href.
    apply Hrefs, elem_of_userGrants in Href
      as (rb' & s & Hrb' & Hs & Hk & Hu & Hn & Hr).
    exists rb', s. rewrite <- Hr. by repeat split.
  - intros s Hs Hk. apply (grant_is_compiled _ _ _ (refOf rb)).
    apply elem_of_userGrants. exists rb, s.
    split; [|done]. apply elem_of_app. right. apply list_elem_of_here.
Qed.

End Bindings.

Lemma NoDup_map_inj_on {X K} (key : X -> K) (l : list X) x y :
  NoDup (map key l) -> x ∈ l -> y ∈ l -> key x = key y -> x = y.
Proof.
  induction l as [|z l IH]; simpl; intros Hnd Hx Hy E.
  - by apply elem_of_nil in Hx.
  - apply NoDup_cons in Hnd as [Hz Hnd].
    apply elem_of_cons in Hx as [->|Hx]; apply elem_of_cons in Hy as [->|Hy].
    + done.
    + destruct Hz. rewrite E. apply list_elem_of_In, in_map, list_elem_of_In, Hy.
    + destruct Hz. rewrite <- E. apply list_elem_of_In, in_map, list_elem_of_In, Hx.
    + by apply IH.
Qed.

Section Permutations.
Context {srt : Sorter} {repo : Repository} {json : Json}.

(** The rule expansion table does not depend on the order of the
    policies it is built from, up to the order of the rules it returns
    and holds. *)
Definition tableOrderInsensitive : Prop :=
  forall ps ps' : list Policy, ps ≡ₚ ps' ->
    (forall resource verbs,
       GetRules (getResourceActionMappings ps) resource verbs ≡ₚ
       GetRules (getResourceActionMappings ps') resource verbs) /\
    mappedRules (getResourceActionMappings ps) ≡ₚ
    mappedRules (getResourceActionMappings ps').

Lemma compiledRole_table tbl tbl' ro :
  (forall resource verbs, GetRules tbl resource verbs ≡ₚ GetRules tbl' resource verbs) ->
  compiledRole tbl ro = compiledRole tbl' ro.
Proof.
  intros H. unfold compiledRole. f_equal.
  apply sort_rules_canonical, flat_map_pointwise_perm.
  intros r. unfold ruleExpansion.
  destruct (String.eqb (Rule_Kind r) KindResource); [|done].
  by apply flat_map_pointwise_perm.
Qed.

(** C3: for roles as the store holds them, no two under one
    (namespace, name), and a rule expansion table that does not depend
    on the order of the policies, permuting the Role, RoleBinding and
    Policy lists changes nothing of what [generateOPARoles],
    [generateOPARoleBindings] and [generateOPAExemptionURLs] compile,
    and so nothing of the serialized bytes; nor does the order in which
    the two runs happen to range over their maps. *)
Theorem compile_permutation_invariant
    (rng rng' : MapRange)
    (roles roles' : list Role) (bs bs' : list RoleBinding)
    (ps ps' : list Policy) (t : urlTables) :
  roles ≡ₚ roles' -> bs ≡ₚ bs' -> ps ≡ₚ ps' ->
  NoDup (map (fun ro => (Role_Namespace ro, Role_Name ro)) roles) ->
  tableOrderInsensitive ->
  (fst (generateOPARoles roles ps) = fst (generateOPARoles roles' ps') /\
   generateOPARoleBindings (rng := rng) bs =
     generateOPARoleBindings (rng := rng') bs' /\
   fst (generateOPAExemptionURLs (rng := rng) ps t) =
     fst (generateOPAExemptionURLs (rng := rng') ps' t)) /\
  (MarshalIndent (ofRoles (fst (generateOPARoles roles ps))) =
     MarshalIndent (ofRoles (fst (generateOPARoles roles' ps'))) /\
   MarshalIndent (ofRoleBindings (generateOPARoleBindings (rng := rng) bs)) =
     MarshalIndent (ofRoleBindings (generateOPARoleBindings (rng := rng') bs')) /\
   MarshalIndent
     (ofExemptionURLs (fst (generateOPAExemptionURLs (rng := rng) ps t))) =
     MarshalIndent
       (ofExemptionURLs (fst (generateOPAExemptionURLs (rng := rng') ps' t)))).
Proof.
  intros Hroles Hbs Hps Hkeys Htable.
  destruct (Htable ps ps' Hps) as [Hget Hmapped].
  assert (fst (generateOPARoles roles ps) = fst (generateOPARoles roles' ps'))
    as E1.
  { rewrite !generateOPARoles_eq. simpl. f_equal.
    apply sort_Sort_canonical.
    - apply StrictWeak_roles_Less.
    - intros x y Hx Hy H1 H2.
      apply list_elem_of_In, in_map_iff in Hx as (rx & <- & Hx).
      apply list_elem_of_In, in_map_iff in Hy as (ry & <- & Hy).
      pose proof (before_lex2_antisym role_key _ _ H1 H2) as E.
      unfold role_key in E. simpl in E.
      f_equal.
      apply (NoDup_map_inj_on (fun ro => (Role_Namespace ro, Role_Name ro)) roles);
        [done|by apply list_elem_of_In..|done].
    - transitivity (map (compiledRole (getResourceActionMappings ps)) roles');
        [by apply Permutation_map|].
      erewrite map_ext; [reflexivity|].
      intros ro. by apply compiledRole_table. }
  assert (generateOPARoleBindings (rng := rng) bs =
          generateOPARoleBindings (rng := rng') bs') as E2.
  { rewrite (generateOPARoleBindings_eq (rng := rng)).
    rewrite (generateOPARoleBindings_eq (rng := rng')). f_equal.
    apply roleBindings_ext; try apply noEmpty_buildUserRoleMap.
    intros u n. rewrite !grantsAt_buildUserRoleMap. apply grantsFor_perm.
    unfold userGrants. by apply Permutation_flat_map. }
  assert (fst (generateOPAExemptionURLs (rng := rng) ps t) =
          fst (generateOPAExemptionURLs (rng := rng') ps' t)) as E3.
  { rewrite (generateOPAExemptionURLs_eq (rng := rng)).
    rewrite (generateOPAExemptionURLs_eq (rng := rng')). simpl. f_equal.
    apply sort_rules_canonical. by rewrite Hmapped. }
  by rewrite E1, E2, E3.
Qed.

End Permutations.

Section PublisherFacts.
Context {srt : Sorter} {rng : MapRange} {repo : Repository}.
Context {afero : Afero} {json : Json} {host : Host}.

(** The five files of a bundle, in the order [save] writes them. *)
Definition bundleFiles (uuid : string) (rs : list Role) (bs : list RoleBinding)
    (ps : list Policy) (t : urlTables) : list opaDataSpec :=
  [ {| data := structValue (ofManifest (generateOPAManifest uuid));
       path := manifestPath |};
    {| data := rawBytes authz; path := policyPath |};
    {| data := structValue (ofRoles (fst (generateOPARoles rs ps)));
       path := rolesPath |};
    {| data := structValue (ofRoleBindings (generateOPARoleBindings bs));
       path := rolebindingsPath |};
    {| data := structValue
                 (ofExemptionURLs (fst (generateOPAExemptionURLs ps t)));
       path := exemptionPath |} ].

Lemma GenerateOPABundle_eq uuid rs bs ps st :
  GenerateOPABundle uuid rs bs ps st =
  save (bundleFiles uuid rs bs ps (urls st))
       {| cacheFS := cacheFS st;
          urls := snd (generateOPAExemptionURLs ps (urls st));
          disk := disk st |}.
Proof.
  unfold GenerateOPABundle, bundleFiles.
  destruct (generateOPARoles rs ps) as [r rs'].
  by destruct (generateOPAExemptionURLs ps (urls st)) as [e t'].
Qed.

(** Where the loop of [save] fails, the rounds before the failing one
    went through. *)
Lemma saveFiles_stops_at_failure o fs err fs' :
  saveFiles fs o = (Some err, fs') ->
  exists written file rest fs0,
    o = written ++ file :: rest /\
    saveFiles fs written = (None, fs0) /\
    saveFile fs0 file = (Some err, fs').
Proof.
  revert fs. induction o as [|file o IH]; intros fs H; simpl in H; [done|].
  destruct (saveFile fs file) as [[e|] fs1] eqn:E.
  - exists [], file, o, fs. by simplify_eq.
  - destruct (IH _ H) as (written & file' & rest & fs0 & -> & Hw & Hf).
    exists (file :: written), file', rest, fs0. simpl. by rewrite E.
Qed.

(** [GetRevision] fails soft once a tree is in place. *)
Lemma GetRevision_missing_manifest st fs err :
  cacheFS st = Some fs -> ReadFile fs manifestPath = inl err ->
  GetRevision st = Ret EmptyString.
Proof. intros H1 H2. unfold GetRevision. by rewrite H1, H2. Qed.

Lemma GetRevision_unparsable st fs content err :
  cacheFS st = Some fs -> ReadFile fs manifestPath = inr content ->
  Unmarshal content = inl err ->
  GetRevision st = Ret EmptyString.
Proof. intros H1 H2 H3. unfold GetRevision. by rewrite H1, H2, H3. Qed.

Lemma GetRevision_returns st fs :
  cacheFS st = Some fs -> exists revision, GetRevision st = Ret revision.
Proof.
  intros H. unfold GetRevision. rewrite H.
  destruct (ReadFile fs manifestPath); [by eexists|].
  destruct (Unmarshal _); by eexists.
Qed.

(** C8: in the state the package starts in, with [cacheFS] still the
    nil interface, [GetRevision] does not return the empty string: the
    call panics. *)
Theorem GetRevision_panics_before_first_save (t : urlTables)
    (files : gmap string string) :
  GetRevision {| cacheFS := None; urls := t; disk := files |} = Panic.
Proof. reflexivity. Qed.

(** C7 (amended): with a non-empty current revision, a request whose
    If-None-Match equals it is answered 304 by the handler and nothing
    else (no header, no body, no call of the file server).  For any
    other request the handler sets Content-Type application/gzip and
    Etag equal to the revision, and leaves the status and the body to
    the file server, for the file that the request's [name] parameter
    names under the data path and with the host's files as they are.
    With an empty current revision every request goes to the file
    server in this way, without Etag. *)
Theorem DownloadBundle_conditional (c : Context) (st : state) (revision : string) :
  GetRevision st = Ret revision ->
  (revision <> EmptyString ->
   c_GetHeader c "If-None-Match" = revision ->
   DownloadBundle c st = Ret (c_Status c 304)) /\
  (revision <> EmptyString ->
   c_GetHeader c "If-None-Match" <> revision ->
   exists c', DownloadBundle c st = Ret c' /\
     Header c' = <["Etag" := revision]>
                   (<["Content-Type" := "application/gzip"]> (Header c)) /\
     (Status c', Body c') =
       ServeFile (disk st)
         (c_Header (c_Header c "Content-Type" "application/gzip")
                   "Etag" revision)
         (filepath_Join DataPath (c_Param c "name"))) /\
  (revision = EmptyString ->
   exists c', DownloadBundle c st = Ret c' /\
     Header c' = <["Content-Type" := "application/gzip"]> (Header c) /\
     (Status c', Body c') =
       ServeFile (disk st)
         (c_Header c "Content-Type" "application/gzip")
         (filepath_Join DataPath (c_Param c "name"))).
Proof.
  intros Hrev. unfold DownloadBundle. rewrite Hrev. split; [|split].
  - intros Hne Hm. rewrite Hm, String.eqb_refl.
    apply String.eqb_neq in Hne. by rewrite Hne.
  - intros Hne Hm.
    assert (String.eqb revision (c_GetHeader c "If-None-Match") = false) as Hm'
      by (apply String.eqb_neq; congruence).
    rewrite Hm', andb_false_r.
    assert (String.eqb revision EmptyString = false) as E
      by by apply String.eqb_neq.
    rewrite E. cbn [negb]. eexists. split; [reflexivity|].
    unfold c_File.
    destruct (ServeFile _ _ _) as [code body]. split; [|done].
    unfold c_Header. simpl. by rewrite E.
  - intros ->. simpl. eexists. split; [reflexivity|].
    unfold c_File.
    destruct (ServeFile _ _ _) as [code body]. by split.
Qed.

End PublisherFacts.

(** * Part V: the example repository, and the scenarios *)

(** ** The example rule expansion table does not depend on the order of
    the policies *)

Section FlattenMap.
Context {V Y : Type} (f : V -> list Y).

Let flatten (m : gmap string V) : list Y :=
  flat_map (fun kv => f (snd kv)) (map_to_list m).

Lemma flatten_insert m k x :
  flatten (<[k := x]> m) ≡ₚ f x ++ flatten (delete k m).
Proof.
  unfold flatten. rewrite <- (insert_delete_eq m k x).
  rewrite map_to_list_insert by apply lookup_delete_eq. done.
Qed.

Lemma flatten_lookup m k :
  flatten m ≡ₚ from_option f [] (m !! k) ++ flatten (delete k m).
Proof.
  unfold flatten. destruct (m !! k) as [x|] eqn:E; simpl.
  - by rewrite <- (map_to_list_delete m k x E).
  - by rewrite delete_id.
Qed.

End FlattenMap.

Module exampleFacts.
Import example.

Definition stepRule (m : gmap string (list rule)) (vr : string * list rule)
  : gmap string (list rule) :=
  <[fst vr := default [] (m !! fst vr) ++ snd vr]> m.

Definition stepPolicy (data : gmap string (gmap string (list rule))) (p : Policy)
  : gmap string (gmap string (list rule)) :=
  <[Resource p := foldl stepRule (default ∅ (data !! Resource p)) (Rules p)]> data.

Definition rulesUnder (v : string) (rules : list (string * list rule)) : list rule :=
  flat_map (fun vr => if decide (fst vr = v) then snd vr else []) rules.

Definition rulesFor (resource v : string) (ps : list Policy) : list rule :=
  flat_map (fun p => if decide (Resource p = resource)
                     then rulesUnder v (Rules p) else []) ps.

Lemma lookup_foldl_stepRule rules m v :
  default [] (foldl stepRule m rules !! v) =
  default [] (m !! v) ++ rulesUnder v rules.
Proof.
  revert m. induction rules as [|[v0 rs] rules IH]; intros m; simpl.
  - by rewrite app_nil_r.
  - rewrite IH. unfold stepRule. simpl.
    destruct (decide (v0 = v)) as [->|Hne].
    + rewrite lookup_insert_eq. simpl. by rewrite app_assoc.
    + by rewrite lookup_insert_ne.
Qed.

Lemma grantsAt_foldl_stepPolicy ps data resource v :
  grantsAt (foldl stepPolicy data ps) resource v =
  grantsAt data resource v ++ rulesFor resource v ps.
Proof.
  revert data. induction ps as [|p ps IH]; intros data; simpl.
  - by rewrite app_nil_r.
  - rewrite IH. unfold grantsAt at 1, stepPolicy.
    destruct (decide (Resource p = resource)) as [<-|Hne].
    + rewrite lookup_insert_eq. simpl.
      by rewrite lookup_foldl_stepRule, app_assoc.
    + rewrite lookup_insert_ne by done. done.
Qed.

Lemma GetRules_grantsAt tbl resource verbs :
  GetRules tbl resource verbs = flat_map (grantsAt tbl resource) verbs.
Proof.
  unfold GetRules, grantsAt. destruct (tbl !! resource) as [m|]; simpl; [done|].
  induction verbs as [|v verbs IH]; simpl; [done|].
  by rewrite lookup_empty.
Qed.

Lemma flatten_stepRule m vr :
  flat_map snd (map_to_list (stepRule m vr)) ≡ₚ
  flat_map snd (map_to_list m) ++ snd vr.
Proof.
  unfold stepRule.
  rewrite (flatten_insert (fun l => l) m), (flatten_lookup (fun l => l) m (fst vr)).
  destruct (m !! fst vr); simpl; by solve_Permutation.
Qed.

Lemma flatten_foldl_stepRule rules m :
  flat_map snd (map_to_list (foldl stepRule m rules)) ≡ₚ
  flat_map snd (map_to_list m) ++ flat_map snd rules.
Proof.
  revert m. induction rules as [|vr rules IH]; intros m; simpl.
  - by rewrite app_nil_r.
  - by rewrite IH, flatten_stepRule, <- app_assoc.
Qed.

Lemma mappedRules_stepPolicy data p :
  mappedRules (stepPolicy data p) ≡ₚ
  mappedRules data ++ flat_map snd (Rules p).
Proof.
  unfold stepPolicy, mappedRules.
  rewrite (flatten_insert (fun m => flat_map snd (map_to_list m)) data).
  rewrite (flatten_lookup (fun m => flat_map snd (map_to_list m)) data (Resource p)).
  rewrite flatten_foldl_stepRule.
  destruct (data !! Resource p); simpl.
  - by solve_Permutation.
  - rewrite map_to_list_empty. simpl. by solve_Permutation.
Qed.

Lemma mappedRules_foldl_stepPolicy ps data :
  mappedRules (foldl stepPolicy data ps) ≡ₚ
  mappedRules data ++ flat_map (fun p => flat_map snd (Rules p)) ps.
Proof.
  revert data. induction ps as [|p ps IH]; intros data; simpl.
  - by rewrite app_nil_r.
  - by rewrite IH, mappedRules_stepPolicy, <- app_assoc.
Qed.

Lemma exampleRepository_tableOrderInsensitive :
  @tableOrderInsensitive exampleRepository.
Proof.
  intros ps ps' Hps. simpl. split.
  - intros resource verbs. rewrite !GetRules_grantsAt.
    apply flat_map_pointwise_perm. intros v.
    change (getResourceActionMappings ps) with (foldl stepPolicy ∅ ps).
    change (getResourceActionMappings ps') with (foldl stepPolicy ∅ ps').
    rewrite !grantsAt_foldl_stepPolicy. apply Permutation_app_head.
    unfold rulesFor. by apply Permutation_flat_map.
  - change (getResourceActionMappings ps) with (foldl stepPolicy ∅ ps).
    change (getResourceActionMappings ps') with (foldl stepPolicy ∅ ps').
    rewrite !mappedRules_foldl_stepPolicy. apply Permutation_app_head.
    by apply Permutation_flat_map.
Qed.

End exampleFacts.

(** ** Scenarios *)

Section Scenarios.
#[local] Existing Instance insertionSorter.
#[local] Existing Instance forwardRange.
#[local] Existing Instance exampleRepository.
#[local] Existing Instance memMapFs.
#[local] Existing Instance exampleJson.

Example viewer_compiled :
  generateOPARoles [viewer] [] =
  ({| Roles :=
        [ {| role_Name := "viewer"; role_Namespace := "proj1";
             role_Rules :=
               [ {| Method := "DELETE"; Endpoint := "/api/builds" |};
                 {| Method := "GET"; Endpoint := "/api/builds" |};
                 {| Method := "PATCH"; Endpoint := "/api/builds" |};
                 {| Method := "POST"; Endpoint := "/api/builds" |};
                 {| Method := "PUT"; Endpoint := "/api/builds" |} ] |} ] |},
   [ {| Role_Name := "viewer"; Role_Namespace := "proj1";
        Role_Rules :=
          [ {| Rule_Verbs := ["GET"; "POST"; "PUT"; "PATCH"; "DELETE"];
               Rule_Resources := ["/api/builds"];
               Rule_Kind := "endpoint" |} ] |} ]).
Proof. reflexivity. Qed.

Example bindings_compiled :
  generateOPARoleBindings [userBinding; groupBinding; mixedBinding] =
  {| RoleBindings :=
       [ {| roleBinding_UID := "u1";
            roleBinding_Bindings :=
              [ {| binding_Namespace := "proj1";
                   binding_RoleRefs :=
                     [ {| roleRef_Name := "viewer";
                          roleRef_Namespace := "proj1" |} ] |} ] |};
         {| roleBinding_UID := "u2";
            roleBinding_Bindings :=
              [ {| binding_Namespace := "proj2";
                   binding_RoleRefs :=
                     [ {| roleRef_Name := "builder";
                          roleRef_Namespace := "proj2" |} ] |} ] |} ] |}.
Proof. by vm_compute. Qed.

(** C5, at the scenario of the spec. *)
Lemma wildcard_role_has_five_rules_witness :
  "endpoint" <> KindResource /\
  fst (generateOPARoles [viewer] []) =
  {| Roles :=
       [ {| role_Name := "viewer"; role_Namespace := "proj1";
            role_Rules :=
              [ {| Method := "DELETE"; Endpoint := "/api/builds" |};
                {| Method := "GET"; Endpoint := "/api/builds" |};
                {| Method := "PATCH"; Endpoint := "/api/builds" |};
                {| Method := "POST"; Endpoint := "/api/builds" |};
                {| Method := "PUT"; Endpoint := "/api/builds" |} ] |} ] |}.
Proof.
  split; [discriminate|].
  apply (wildcard_role_has_five_rules "viewer" "proj1" "endpoint" []).
  discriminate.
Defined.

(** C4: role [twice] compiles to a rule list that holds the pair
    (GET, /api/builds) twice. *)
Lemma compiled_rules_keep_duplicates :
  exists cr, cr ∈ Roles (fst (generateOPARoles [twice] [])) /\
    role_Rules cr =
      [ {| Method := "GET"; Endpoint := "/api/builds" |};
        {| Method := "GET"; Endpoint := "/api/builds" |};
        {| Method := "POST"; Endpoint := "/api/builds" |} ] /\
    ~ NoDup (role_Rules cr).
Proof.
  eexists. split; [left|]. split; [reflexivity|].
  simpl. intros H. apply NoDup_cons in H as [H _]. apply H. left.
Qed.

(** C9: after compiling role [viewer], its rule no longer carries the
    verbs ["*"]. *)
Lemma compile_rewrites_wildcard_verbs :
  Rule_Verbs viewerRule = ["*"] /\
  (exists ro r, snd (generateOPARoles [viewer] []) = [ro] /\
     Role_Rules ro = [r] /\
     Rule_Verbs r = ["GET"; "POST"; "PUT"; "PATCH"; "DELETE"]) /\
  snd (generateOPARoles [viewer] []) <> [viewer].
Proof.
  split; [reflexivity|]. split.
  - do 2 eexists. repeat split.
  - discriminate.
Qed.

(** C10, at verbs ["*"; "GET"] on /api/logs. *)
Lemma wildcard_only_when_alone_witness :
  MethodAll ∈ ["*"; "GET"] /\ ["*"; "GET"] <> [MethodAll] /\
  generateOPARoles
    [ {| Role_Name := "logs"; Role_Namespace := "proj2";
         Role_Rules := [ {| Rule_Verbs := ["*"; "GET"];
                            Rule_Resources := ["/api/logs"];
                            Rule_Kind := "endpoint" |} ] |} ] [] =
  ({| Roles :=
        [ {| role_Name := "logs"; role_Namespace := "proj2";
             role_Rules := [ {| Method := "*"; Endpoint := "/api/logs" |};
                             {| Method := "GET"; Endpoint := "/api/logs" |} ] |} ] |},
   [ {| Role_Name := "logs"; Role_Namespace := "proj2";
        Role_Rules := [ {| Rule_Verbs := ["*"; "GET"];
                           Rule_Resources := ["/api/logs"];
                           Rule_Kind := "endpoint" |} ] |} ]).
Proof.
  assert (MethodAll ∈ ["*"; "GET"]) as H1 by left.
  assert (["*"; "GET"] <> [MethodAll]) as H2 by discriminate.
  split; [exact H1|]. split; [exact H2|].
  destruct (wildcard_only_when_alone ["*"; "GET"] ["/api/logs"] H1 H2)
    as [Hrole _].
  apply (Hrole "logs" "proj2" "endpoint" []). discriminate.
Defined.

(** C2: with the example tables, the Public pair (GET, /api/health) and
    the Privileged pair (DELETE, /api/cluster) are not in Registered. *)
Lemma Registered_misses_Public_and_Privileged :
  ({| Method := "GET"; Endpoint := "/api/health" |}
     ∈ Public (fst (generateOPAExemptionURLs [workflowPolicy] exampleTables))) /\
  ({| Method := "GET"; Endpoint := "/api/health" |}
     ∉ Registered (fst (generateOPAExemptionURLs [workflowPolicy] exampleTables))) /\
  ({| Method := "DELETE"; Endpoint := "/api/cluster" |}
     ∈ Privileged (fst (generateOPAExemptionURLs [workflowPolicy] exampleTables))) /\
  ({| Method := "DELETE"; Endpoint := "/api/cluster" |}
     ∉ Registered (fst (generateOPAExemptionURLs [workflowPolicy] exampleTables))).
Proof.
  repeat split; apply (bool_decide_unpack _); by vm_compute.
Qed.

(** Why the invariant of the store matters to the order of the roles:
    two roles under one (namespace, name), which the store never
    holds, would come out in the order they went in. *)
Lemma duplicate_role_key_breaks_invariance :
  [editorA; editorB] ≡ₚ [editorB; editorA] /\
  fst (generateOPARoles [editorA; editorB] []) <>
  fst (generateOPARoles [editorB; editorA] []) /\
  MarshalIndent (ofRoles (fst (generateOPARoles [editorA; editorB] []))) <>
  MarshalIndent (ofRoles (fst (generateOPARoles [editorB; editorA] []))).
Proof.
  split; [apply perm_swap|]. split.
  - discriminate.
  - apply (bool_decide_unpack _). by vm_compute.
Qed.

(** C3, at a reordering of three roles, three bindings and two
    policies. *)
Lemma compile_permutation_invariant_witness :
  [viewer; twice; builder] ≡ₚ [builder; viewer; twice] /\
  [userBinding; groupBinding; mixedBinding] ≡ₚ
    [mixedBinding; groupBinding; userBinding] /\
  [workflowPolicy; testPolicy] ≡ₚ [testPolicy; workflowPolicy] /\
  NoDup (map (fun ro => (Role_Namespace ro, Role_Name ro))
             [viewer; twice; builder]) /\
  tableOrderInsensitive /\
  MarshalIndent
    (ofRoles (fst (generateOPARoles [viewer; twice; builder]
                                    [workflowPolicy; testPolicy]))) =
  MarshalIndent
    (ofRoles (fst (generateOPARoles [builder; viewer; twice]
                                    [testPolicy; workflowPolicy]))) /\
  MarshalIndent
    (ofRoleBindings
       (generateOPARoleBindings (rng := forwardRange)
          [userBinding; groupBinding; mixedBinding])) =
  MarshalIndent
    (ofRoleBindings
       (generateOPARoleBindings (rng := backwardRange)
          [mixedBinding; groupBinding; userBinding])) /\
  MarshalIndent
    (ofExemptionURLs
       (fst (generateOPAExemptionURLs (rng := forwardRange)
               [workflowPolicy; testPolicy] exampleTables))) =
  MarshalIndent
    (ofExemptionURLs
       (fst (generateOPAExemptionURLs (rng := backwardRange)
               [testPolicy; workflowPolicy] exampleTables))).
Proof.
  assert ([viewer; twice; builder] ≡ₚ [builder; viewer; twice]) as H1
    by (etransitivity; [apply perm_skip, perm_swap|apply perm_swap]).
  assert ([userBinding; groupBinding; mixedBinding] ≡ₚ
          [mixedBinding; groupBinding; userBinding]) as H2
    by (etransitivity; [apply perm_skip, perm_swap|];
        etransitivity; [apply perm_swap|]; apply perm_skip, perm_swap).
  assert ([workflowPolicy; testPolicy] ≡ₚ [testPolicy; workflowPolicy]) as H3
    by apply perm_swap.
  assert (NoDup (map (fun ro => (Role_Namespace ro, Role_Name ro))
                     [viewer; twice; builder])) as H4
    by (apply (bool_decide_unpack _); by vm_compute).
  pose proof exampleFacts.exampleRepository_tableOrderInsensitive as H5.
  repeat (split; [assumption|]).
  exact (proj2 (compile_permutation_invariant forwardRange backwardRange
                  [viewer; twice; builder] [builder; viewer; twice]
                  [userBinding; groupBinding; mixedBinding]
                  [mixedBinding; groupBinding; userBinding]
                  [workflowPolicy; testPolicy] [testPolicy; workflowPolicy]
                  exampleTables H1 H2 H3 H4 H5)).
Defined.

End Scenarios.

Section PublisherScenarios.
#[local] Existing Instance insertionSorter.
#[local] Existing Instance forwardRange.
#[local] Existing Instance exampleRepository.
#[local] Existing Instance memMapFs.
#[local] Existing Instance exampleJson.

(** The package after a first compile that went through, with revision
    [rev-1]. *)
Definition firstGeneration : @state memMapFs :=
  snd (GenerateOPABundle (host := workingHost) "rev-1"
         [viewer] [userBinding] [workflowPolicy] initialState).

Example first_compile_succeeds :
  fst (GenerateOPABundle (host := workingHost) "rev-1"
         [viewer] [userBinding] [workflowPolicy] initialState) = None /\
  GetRevision firstGeneration = Ret "rev-1".
Proof. split; by vm_compute. Qed.

(** The package with a tree in place that holds no manifest, and one
    whose manifest is not JSON. *)
Definition noManifest : @state memMapFs :=
  {| cacheFS := Some ∅; urls := exampleTables; disk := ∅ |}.

Definition brokenManifest : @state memMapFs :=
  {| cacheFS := Some {[ manifestPath := "{ revision" ]};
     urls := exampleTables; disk := ∅ |}.

Example GetRevision_fails_soft :
  GetRevision noManifest = Ret EmptyString /\
  GetRevision brokenManifest = Ret EmptyString.
Proof. split; by vm_compute. Qed.

(** C1: a second compile, with revision [rev-2], fails at the archive
    step.  The error is returned and the archive on the host is still
    the one of [rev-1], but [GetRevision] now answers [rev-2], and a
    gateway that holds [rev-1] is sent that same archive once more,
    under the Etag [rev-2]. *)
Lemma failed_compile_is_observed :
  GetRevision firstGeneration = Ret "rev-1" /\
  exists st',
    GenerateOPABundle (host := fullHost) "rev-2"
      [viewer; builder] [userBinding] [workflowPolicy] firstGeneration =
    (Some "no space left on device", st') /\
    disk st' = disk firstGeneration /\
    GetRevision st' = Ret "rev-2" /\
    exists c',
      DownloadBundle (host := fullHost)
        (newContext {["If-None-Match" := "rev-1"]}) st' = Ret c' /\
      Status c' = 200 /\
      Header c' !! "Etag" = Some "rev-2" /\
      Some (Body c') =
        disk firstGeneration !! "/var/lib/policy/bundle.tar.gz".
Proof.
  split; [by vm_compute|].
  eexists. split; [by vm_compute|]. split; [by vm_compute|].
  split; [by vm_compute|].
  eexists. split; [by vm_compute|]. repeat split; by vm_compute.
Qed.

(** An ordinary exchange: a gateway that holds an older revision is
    sent the archive with the current revision as Etag. *)
Example stale_gateway_is_sent_the_archive :
  exists c',
    DownloadBundle (host := workingHost)
      (newContext {["If-None-Match" := "rev-0"]}) firstGeneration = Ret c' /\
    Status c' = 200 /\
    Header c' !! "Etag" = Some "rev-1" /\
    Header c' !! "Content-Type" = Some "application/gzip" /\
    Some (Body c') = disk firstGeneration !! "/var/lib/policy/bundle.tar.gz".
Proof. eexists. split; [reflexivity|]. repeat split; by vm_compute. Qed.

(** C7: with [rev-1] published and its archive on the host, a request
    with If-None-Match [*], which is not the revision, is answered 304
    and not 200: the handler passes it on and the file server takes
    [*] to match whatever it serves.  And a request that names another
    revision and, as [name], a file that is not there is answered
    404. *)
Lemma file_server_decides_the_status :
  GetRevision firstGeneration = Ret "rev-1" /\
  (c_GetHeader (newContext {["If-None-Match" := "*"]}) "If-None-Match"
     <> "rev-1" /\
   exists c',
     DownloadBundle (host := workingHost)
       (newContext {["If-None-Match" := "*"]}) firstGeneration = Ret c' /\
     Status c' = 304 /\ Body c' = EmptyString) /\
  (exists c',
     DownloadBundle (host := workingHost)
       {| RequestHeader := {["If-None-Match" := "rev-0"]};
          Params := {["name" := "bundle.zip"]};
          Status := 200; Header := ∅; Body := EmptyString |}
       firstGeneration = Ret c' /\
     Status c' = 404).
Proof.
  split; [by vm_compute|]. split.
  - split; [by vm_compute|].
    eexists. split; [reflexivity|]. split; by vm_compute.
  - eexists. split; [reflexivity|]. by vm_compute.
Qed.

(** C7, at the first generation and a request that names its
    revision. *)
Lemma DownloadBundle_conditional_witness :
  GetRevision firstGeneration = Ret "rev-1" /\
  "rev-1" <> EmptyString /\
  c_GetHeader (newContext {["If-None-Match" := "rev-1"]}) "If-None-Match" = "rev-1" /\
  DownloadBundle (host := workingHost)
    (newContext {["If-None-Match" := "rev-1"]}) firstGeneration =
  Ret {| RequestHeader := {["If-None-Match" := "rev-1"]};
         Params := {["name" := "bundle.tar.gz"]};
         Status := 304; Header := ∅; Body := EmptyString |}.
Proof.
  assert (GetRevision firstGeneration = Ret "rev-1") as H by (by vm_compute).
  assert ("rev-1" <> EmptyString) as Hne by discriminate.
  assert (c_GetHeader (newContext {["If-None-Match" := "rev-1"]})
            "If-None-Match" = "rev-1") as Hm by (by vm_compute).
  repeat (split; [assumption|]).
  exact (proj1 (DownloadBundle_conditional (host := workingHost)
                  (newContext {["If-None-Match" := "rev-1"]})
                  firstGeneration "rev-1" H) Hne Hm).
Defined.

End PublisherScenarios.

(** * Part VI: more of package [bundle] *)

(** ** What is published can be read back *)

(** What the package relies on of an [afero.Fs]: a file reads back as
    written, and neither writing another file nor making a directory
    takes a readable file away. *)
Record AferoLaws `{Afero} : Prop := {
  read_after_write : forall fs name content fs',
    WriteFile fs name content = inr fs' -> ReadFile fs' name = inr content;
  write_keeps_others : forall fs name content fs' other c,
    WriteFile fs name content = inr fs' -> other <> name ->
    ReadFile fs other = inr c -> ReadFile fs' other = inr c;
  mkdir_keeps_files : forall fs dir fs' other c,
    MkdirAll fs dir = inr fs' ->
    ReadFile fs other = inr c -> ReadFile fs' other = inr c
}.

Lemma memMapFs_laws : @AferoLaws memMapFs.
Proof.
  split; simpl.
  - intros fs name content fs' [= <-]. by rewrite lookup_insert_eq.
  - intros fs name content fs' other c [= <-] Hne.
    by rewrite lookup_insert_ne.
  - by intros fs dir fs' other c [= <-].
Qed.

Lemma lockedFs_laws : @AferoLaws lockedFs.
Proof.
  split; simpl.
  - intros fs name content fs' [= <-]. by rewrite lookup_insert_eq.
  - intros fs name content fs' other c [= <-] Hne.
    by rewrite lookup_insert_ne.
  - intros fs dir fs' other c.
    by destruct (String.eqb dir "roles"); intros [= <-].
Qed.

Section ReadBack.
Context {afero : Afero} {json : Json}.
Hypothesis laws : AferoLaws.

(** The bytes [save] writes for a file: the data itself, or its JSON
    text. *)
Definition contentOf (file : opaDataSpec) : string + string :=
  match data file with
  | rawBytes c => inr c
  | structValue c => MarshalIndent c
  end.

(** A round of the loop of [save] told by the library calls it makes.
    It goes through when the content is there, the directory is made
    and the file is written; it fails with the error of the first call
    that fails, leaving the tree as the calls before left it. *)
Definition roundWrites (fs : Fs) (file : opaDataSpec) (fs' : Fs) : Prop :=
  exists c fs1,
    contentOf file = inr c /\
    MkdirAll fs (filepath_Dir (path file)) = inr fs1 /\
    WriteFile fs1 (path file) c = inr fs'.

Inductive roundFails (fs : Fs) (file : opaDataSpec) (err : string)
  : Fs -> Prop :=
| marshal_fails :
    contentOf file = inl err -> roundFails fs file err fs
| mkdir_fails c :
    contentOf file = inr c ->
    MkdirAll fs (filepath_Dir (path file)) = inl err ->
    roundFails fs file err fs
| write_fails c fs1 :
    contentOf file = inr c ->
    MkdirAll fs (filepath_Dir (path file)) = inr fs1 ->
    WriteFile fs1 (path file) c = inl err ->
    roundFails fs file err fs1.

Fixpoint roundsWrite (fs : Fs) (o : list opaDataSpec) (fs' : Fs) : Prop :=
  match o with
  | [] => fs' = fs
  | file :: o' => exists fs1, roundWrites fs file fs1 /\ roundsWrite fs1 o' fs'
  end.

Lemma roundWrites_saveFile fs file fs' :
  roundWrites fs file fs' <-> saveFile fs file = (None, fs').
Proof.
  unfold roundWrites, saveFile. fold (contentOf file). split.
  - intros (c & fs1 & -> & -> & ->). done.
  - destruct (contentOf file) as [e|c]; [done|].
    destruct (MkdirAll fs _) as [e|fs1]; [done|].
    destruct (WriteFile fs1 _ c) as [e|fs2] eqn:Hw; [done|].
    intros [= <-]. by exists c, fs1.
Qed.

Lemma roundFails_saveFile fs file err fs' :
  roundFails fs file err fs' -> saveFile fs file = (Some err, fs').
Proof.
  unfold saveFile. fold (contentOf file).
  intros [Hc|c Hc Hm|c fs1 Hc Hm Hw]; rewrite Hc; [done|..]; rewrite Hm;
    [done|]. by rewrite Hw.
Qed.

Lemma roundsWrite_saveFiles o fs fs' :
  roundsWrite fs o fs' <-> saveFiles fs o = (None, fs').
Proof.
  revert fs. induction o as [|file o IH]; intros fs; simpl.
  - split; [by intros ->|by intros [= ->]].
  - split.
    + intros (fs1 & Hw & Ho). apply roundWrites_saveFile in Hw.
      rewrite Hw. by apply IH.
    + destruct (saveFile fs file) as [[e|] fs1] eqn:E; [done|].
      intros Ho. exists fs1. split; [by apply roundWrites_saveFile|].
      by apply IH.
Qed.

(** The loop of [save] stops at the first round that fails, with its
    error and the tree as that round leaves it. *)
Lemma saveFiles_fails_at written file rest fs fs0 err fs' :
  roundsWrite fs written fs0 ->
  roundFails fs0 file err fs' ->
  saveFiles fs (written ++ file :: rest) = (Some err, fs').
Proof.
  revert fs. induction written as [|w written IH]; intros fs Hw Hf; simpl in *.
  - subst fs0. by rewrite (roundFails_saveFile _ _ _ _ Hf).
  - destruct Hw as (fs1 & Hw & Hws). apply roundWrites_saveFile in Hw.
    rewrite Hw. by apply IH.
Qed.

Lemma saveFile_written fs file fs' :
  saveFile fs file = (None, fs') ->
  exists c, contentOf file = inr c /\ ReadFile fs' (path file) = inr c.
Proof.
  unfold saveFile. fold (contentOf file).
  destruct (contentOf file) as [e|c]; [done|].
  destruct (MkdirAll fs _) as [e|fs1]; [done|].
  destruct (WriteFile fs1 _ c) as [e|fs2] eqn:Hw; [done|].
  intros [= <-]. exists c. split; [done|]. by eapply read_after_write.
Qed.

Lemma saveFile_keeps fs file r fs' other c :
  saveFile fs file = (r, fs') ->
  other <> path file \/ r <> None ->
  ReadFile fs other = inr c -> ReadFile fs' other = inr c.
Proof.
  unfold saveFile. fold (contentOf file).
  destruct (contentOf file) as [e|c']; [by intros [= <- <-]|].
  destruct (MkdirAll fs _) as [e|fs1] eqn:Hm; [by intros [= <- <-]|].
  destruct (WriteFile fs1 _ c') as [e|fs2] eqn:Hw.
  - intros [= <- <-] _ Hr. by eapply mkdir_keeps_files.
  - intros [= <- <-] [Hne|Hne] Hr; [|done].
    eapply write_keeps_others; [done..|]. by eapply mkdir_keeps_files.
Qed.

Lemma saveFiles_keeps o fs r fs' other c :
  saveFiles fs o = (r, fs') ->
  other ∉ map path o ->
  ReadFile fs other = inr c -> ReadFile fs' other = inr c.
Proof.
  revert fs. induction o as [|file o IH]; intros fs H Hnin Hr; simpl in *.
  - by simplify_eq.
  - apply not_elem_of_cons in Hnin as [Hne Hnin].
    destruct (saveFile fs file) as [[e|] fs1] eqn:E.
    + simplify_eq. eapply saveFile_keeps; [done| |done]. by left.
    + eapply IH; [done..|]. eapply saveFile_keeps; [done| |done]. by left.
Qed.

Lemma saveFiles_written o fs fs' :
  saveFiles fs o = (None, fs') ->
  NoDup (map path o) ->
  forall file, file ∈ o ->
    exists c, contentOf file = inr c /\ ReadFile fs' (path file) = inr c.
Proof.
  revert fs. induction o as [|f o IH]; intros fs H Hnd file Hin; simpl in *.
  - by apply elem_of_nil in Hin.
  - apply NoDup_cons in Hnd as [Hf Hnd].
    destruct (saveFile fs f) as [[e|] fs1] eqn:E; [done|].
    apply elem_of_cons in Hin as [->|Hin].
    + destruct (saveFile_written _ _ _ E) as (c & Hc & Hr).
      exists c. split; [done|]. by eapply saveFiles_keeps.
    + by eapply IH.
Qed.

(** The first round of a non-empty [save] decides what the first path
    reads as afterwards, unless a later file has the same path. *)
Lemma saveFiles_first file o fs1 r fs' c :
  saveFile NewMemMapFs file = (None, fs1) ->
  saveFiles fs1 o = (r, fs') ->
  path file ∉ map path o ->
  contentOf file = inr c ->
  ReadFile fs' (path file) = inr c.
Proof.
  intros Hf Ho Hnin Hc.
  destruct (saveFile_written _ _ _ Hf) as (c' & Hc' & Hr).
  rewrite Hc in Hc'. simplify_eq. by eapply saveFiles_keeps.
Qed.

End ReadBack.

Section PublishedBundle.
Context {srt : Sorter} {rng : MapRange} {repo : Repository}.
Context {afero : Afero} {json : Json} {host : Host}.

(** After a successful [save] of files with pairwise distinct paths,
    every file reads back from [cacheFS] with the bytes written for
    it. *)
Theorem save_publishes_every_file
    (o : list opaDataSpec) (st st' : state) :
  AferoLaws ->
  NoDup (map path o) ->
  save o st = (None, st') ->
  exists fs, cacheFS st' = Some fs /\
    forall file, file ∈ o ->
      exists c, contentOf file = inr c /\ ReadFile fs (path file) = inr c.
Proof.
  intros laws Hnd H. unfold save in H.
  destruct (saveFiles NewMemMapFs o) as [[e|] fs] eqn:Es; [done|].
  simpl in H. destruct (Tar fs _ (disk st)) as [e d].
  injection H as -> <-. exists fs. split; [done|].
  by apply (saveFiles_written laws o NewMemMapFs).
Qed.

Lemma GenerateOPABundle_cacheFS uuid rs bs ps st :
  cacheFS (snd (GenerateOPABundle uuid rs bs ps st)) =
  Some (snd (saveFiles NewMemMapFs (bundleFiles uuid rs bs ps (urls st)))).
Proof.
  rewrite GenerateOPABundle_eq. unfold save.
  destruct (saveFiles NewMemMapFs _) as [[e|] fs]; simpl; [done|].
  by destruct (Tar fs _ (disk st)).
Qed.

Lemma GenerateOPABundle_success_writes uuid rs bs ps st :
  fst (GenerateOPABundle uuid rs bs ps st) = None ->
  fst (saveFiles NewMemMapFs (bundleFiles uuid rs bs ps (urls st))) = None.
Proof.
  rewrite GenerateOPABundle_eq. unfold save.
  destruct (saveFiles NewMemMapFs _) as [[e|] fs]; simpl; [done|done].
Qed.

Lemma saveFiles_cons fs file o :
  saveFiles fs (file :: o) =
  match saveFile fs file with
  | (Some err, fs) => (Some err, fs)
  | (None, fs) => saveFiles fs o
  end.
Proof. reflexivity. Qed.

Definition manifestFile (uuid : string) : opaDataSpec :=
  {| data := structValue (ofManifest (generateOPAManifest uuid));
     path := manifestPath |}.

Lemma revision_once_manifest_written uuid rs bs ps st :
  AferoLaws ->
  (forall text,
     MarshalIndent (ofManifest (generateOPAManifest uuid)) = inr text ->
     exists mf, Unmarshal text = inr mf /\ Revision mf = uuid) ->
  fst (saveFile NewMemMapFs (manifestFile uuid)) = None ->
  GetRevision (snd (GenerateOPABundle uuid rs bs ps st)) = Ret uuid.
Proof.
  intros laws Hjson Hfirst.
  unfold GetRevision. rewrite GenerateOPABundle_cacheFS.
  unfold bundleFiles. fold (manifestFile uuid).
  rewrite saveFiles_cons.
  destruct (saveFile NewMemMapFs (manifestFile uuid)) as [r fs1] eqn:E1.
  simpl in Hfirst. subst r.
  destruct (saveFile_written laws _ _ _ E1) as (text & Hc & Hr).
  match goal with |- context [saveFiles fs1 ?rest] =>
    destruct (saveFiles fs1 rest) as [r fs'] eqn:Er;
    assert (ReadFile fs' manifestPath = inr text) as Hread
      by (eapply (saveFiles_keeps laws); [exact Er| |exact Hr];
          simpl; rewrite !not_elem_of_cons; repeat split;
          try discriminate; apply not_elem_of_nil)
  end.
  simpl. rewrite Hread.
  destruct (Hjson text Hc) as (mf & -> & <-). done.
Qed.

(** A fresh tree holds no file, also after a directory is made in
    it. *)
Definition FreshIsEmpty : Prop :=
  forall name,
    (exists e, ReadFile NewMemMapFs name = inl e) /\
    (forall dir fs, MkdirAll NewMemMapFs dir = inr fs ->
       exists e, ReadFile fs name = inl e).

Lemma roundFails_fresh file err fs :
  FreshIsEmpty -> roundFails NewMemMapFs file err fs ->
  exists e, ReadFile fs manifestPath = inl e.
Proof.
  intros Hfresh [Hc|c Hc Hm|c fs1 Hc Hm Hw].
  - apply Hfresh.
  - apply Hfresh.
  - by eapply Hfresh.
Qed.

(** C1 (amended): when a step of a bundle compile fails, that is the
    marshalling, the making of the directory or the writing of one of
    the five files, or the archive step after all five are written,
    [GenerateOPABundle] returns the error of that step; but whatever
    generation was published before, [cacheFS] is afterwards the fresh
    tree with the files written before the failing step, and
    [GetRevision] answers from it: the empty revision when the
    manifest itself was not written, and the revision of the failed
    compile otherwise, never the previous one.  The host's files are
    as they were unless the failing step is the archive step, which
    leaves what [fsutil.Tar] leaves.  (The file system is taken to read
    files back as written and to start empty, and the manifest of this
    revision to survive its JSON round trip.) *)
Theorem failed_compile_replaces_generation
    (uuid : string) (rs : list Role) (bs : list RoleBinding) (ps : list Policy)
    (st : state) (err : string) :
  AferoLaws ->
  FreshIsEmpty ->
  (forall text,
     MarshalIndent (ofManifest (generateOPAManifest uuid)) = inr text ->
     exists mf, Unmarshal text = inr mf /\ Revision mf = uuid) ->
  (forall written file rest fs0 fs,
     bundleFiles uuid rs bs ps (urls st) = written ++ file :: rest ->
     roundsWrite NewMemMapFs written fs0 ->
     roundFails fs0 file err fs ->
     fst (GenerateOPABundle uuid rs bs ps st) = Some err /\
     cacheFS (snd (GenerateOPABundle uuid rs bs ps st)) = Some fs /\
     disk (snd (GenerateOPABundle uuid rs bs ps st)) = disk st /\
     GetRevision (snd (GenerateOPABundle uuid rs bs ps st)) =
       Ret (match written with [] => EmptyString | _ :: _ => uuid end)) /\
  (forall fs disk',
     roundsWrite NewMemMapFs (bundleFiles uuid rs bs ps (urls st)) fs ->
     Tar fs (filepath_Join DataPath "bundle.tar.gz") (disk st) =
       (Some err, disk') ->
     fst (GenerateOPABundle uuid rs bs ps st) = Some err /\
     cacheFS (snd (GenerateOPABundle uuid rs bs ps st)) = Some fs /\
     disk (snd (GenerateOPABundle uuid rs bs ps st)) = disk' /\
     GetRevision (snd (GenerateOPABundle uuid rs bs ps st)) = Ret uuid).
Proof.
  intros laws Hfresh Hjson. split.
  - intros written file rest fs0 fs Hfiles Hw Hf.
    assert (GenerateOPABundle uuid rs bs ps st =
            (Some err,
             {| cacheFS := Some fs;
                urls := snd (generateOPAExemptionURLs ps (urls st));
                disk := disk st |})) as Hout.
    { rewrite GenerateOPABundle_eq. unfold save.
      by rewrite Hfiles, (saveFiles_fails_at _ _ rest _ _ _ _ Hw Hf). }
    split; [by rewrite Hout|]. split; [by rewrite Hout|].
    split; [by rewrite Hout|].
    destruct written as [|w written].
    + simpl in Hw. subst fs0.
      destruct (roundFails_fresh _ _ _ Hfresh Hf) as [e He].
      rewrite Hout. unfold GetRevision. simpl. by rewrite He.
    + apply revision_once_manifest_written; [done..|].
      unfold bundleFiles in Hfiles. fold (manifestFile uuid) in Hfiles.
      injection Hfiles as <- _.
      destruct Hw as (fs1 & Hw & _). apply roundWrites_saveFile in Hw.
      by rewrite Hw.
  - intros fs disk' Hw Ht. apply roundsWrite_saveFiles in Hw.
    assert (GenerateOPABundle uuid rs bs ps st =
            (Some err,
             {| cacheFS := Some fs;
                urls := snd (generateOPAExemptionURLs ps (urls st));
                disk := disk' |})) as Hout.
    { rewrite GenerateOPABundle_eq. unfold save. rewrite Hw. simpl.
      by rewrite Ht. }
    split; [by rewrite Hout|]. split; [by rewrite Hout|].
    split; [by rewrite Hout|].
    apply revision_once_manifest_written; [done..|].
    unfold bundleFiles in Hw. fold (manifestFile uuid) in Hw.
    rewrite saveFiles_cons in Hw.
    by destruct (saveFile NewMemMapFs (manifestFile uuid)) as [[e|] fs1].
Qed.

(** Revision round trip: as soon as [save] has written the manifest,
    [GetRevision] returns the revision drawn for this compile: after
    every successful compile, and also after one that fails at a later
    file or at the archive step.  (The file system is taken to read
    files back as written, and the manifest of this revision to
    survive its JSON round trip.) *)
Theorem GetRevision_after_compile
    (uuid : string) (rs : list Role) (bs : list RoleBinding) (ps : list Policy)
    (st : state) :
  AferoLaws ->
  (forall text,
     MarshalIndent (ofManifest (generateOPAManifest uuid)) = inr text ->
     exists mf, Unmarshal text = inr mf /\ Revision mf = uuid) ->
  fst (GenerateOPABundle uuid rs bs ps st) = None \/
  fst (saveFile NewMemMapFs (manifestFile uuid)) = None ->
  GetRevision (snd (GenerateOPABundle uuid rs bs ps st)) = Ret uuid.
Proof.
  intros laws Hjson [Hok|Hfirst]; apply revision_once_manifest_written; try done.
  apply GenerateOPABundle_success_writes in Hok.
  unfold bundleFiles in Hok. fold (manifestFile uuid) in Hok.
  rewrite saveFiles_cons in Hok.
  by destruct (saveFile NewMemMapFs (manifestFile uuid)) as [[e|] fs1].
Qed.

(** Once a compile has been attempted, successful or not, neither
    [GetRevision] nor [DownloadBundle] panics any more. *)
Theorem no_panic_after_first_compile
    (uuid : string) (rs : list Role) (bs : list RoleBinding) (ps : list Policy)
    (st : state) (c : Context) :
  (exists revision,
     GetRevision (snd (GenerateOPABundle uuid rs bs ps st)) = Ret revision) /\
  (exists c',
     DownloadBundle c (snd (GenerateOPABundle uuid rs bs ps st)) = Ret c').
Proof.
  assert (exists revision,
            GetRevision (snd (GenerateOPABundle uuid rs bs ps st)) = Ret revision)
    as [revision Hrev].
  { eapply GetRevision_returns. apply GenerateOPABundle_cacheFS. }
  split; [by exists revision|].
  unfold DownloadBundle. rewrite Hrev.
  destruct (_ && _); by eexists.
Qed.

(** Conditional GET after a successful compile: a gateway that names
    the new revision is answered 304 by the handler; for one that names
    anything else the handler sets the new revision as Etag and leaves
    the status and the body to the file server, for the file that the
    request names and with the host's files as the compile left
    them. *)
Theorem conditional_get_after_compile
    (uuid : string) (rs : list Role) (bs : list RoleBinding) (ps : list Policy)
    (st : state) (c : Context) :
  AferoLaws ->
  (forall text,
     MarshalIndent (ofManifest (generateOPAManifest uuid)) = inr text ->
     exists mf, Unmarshal text = inr mf /\ Revision mf = uuid) ->
  uuid <> EmptyString ->
  fst (GenerateOPABundle uuid rs bs ps st) = None ->
  (c_GetHeader c "If-None-Match" = uuid ->
   DownloadBundle c (snd (GenerateOPABundle uuid rs bs ps st)) =
     Ret (c_Status c 304)) /\
  (c_GetHeader c "If-None-Match" <> uuid ->
   exists c',
     DownloadBundle c (snd (GenerateOPABundle uuid rs bs ps st)) = Ret c' /\
     Header c' !! "Etag" = Some uuid /\
     (Status c', Body c') =
       ServeFile (disk (snd (GenerateOPABundle uuid rs bs ps st)))
         (c_Header (c_Header c "Content-Type" "application/gzip")
                   "Etag" uuid)
         (filepath_Join DataPath (c_Param c "name"))).
Proof.
  intros laws Hjson Hne Hok.
  assert (GetRevision (snd (GenerateOPABundle uuid rs bs ps st)) = Ret uuid)
    as Hrev.
  { apply revision_once_manifest_written; try done.
    apply GenerateOPABundle_success_writes in Hok.
    unfold bundleFiles in Hok. fold (manifestFile uuid) in Hok.
    rewrite saveFiles_cons in Hok.
    by destruct (saveFile NewMemMapFs (manifestFile uuid)) as [[e|] fs1]. }
  assert (String.eqb uuid EmptyString = false) as E by by apply String.eqb_neq.
  unfold DownloadBundle. rewrite Hrev, E. cbn [negb andb]. split.
  - intros ->. by rewrite String.eqb_refl.
  - intros Hm.
    assert (String.eqb uuid (c_GetHeader c "If-None-Match") = false) as ->
      by (apply String.eqb_neq; congruence).
    eexists. split; [reflexivity|]. unfold c_File.
    destruct (ServeFile _ _ _) as [code body]. split; [|done].
    unfold c_Header. simpl. rewrite E. by rewrite lookup_insert_eq.
Qed.

End PublishedBundle.

(** ** The five orders *)

(** A [Less] that is a strict order telling apart any two elements
    with different keys. *)
Definition strictOrderOn {A K} (less : A -> A -> bool) (key : A -> K) : Prop :=
  (forall a, less a a = false) /\
  (forall a b c, less a b = true -> less b c = true -> less a c = true) /\
  (forall a b, less a b = false -> less b a = false -> key a = key b).

Lemma strictOrderOn_lex2 {A} (key : A -> string * string) :
  strictOrderOn (fun a b => lex2 (key a) (key b)) key.
Proof.
  split; [|split].
  - intros a. unfold lex2. by rewrite String.eqb_refl, StrOrder.ltb_irrefl.
  - intros a b c. apply StrOrder.lex2_trans.
  - intros a b. apply StrOrder.lex2_trichotomy.
Qed.

Lemma strictOrderOn_ltb {A} (key : A -> string) :
  strictOrderOn (fun a b => String.ltb (key a) (key b)) key.
Proof.
  split; [|split].
  - intros a. apply StrOrder.ltb_irrefl.
  - intros a b c. apply StrOrder.ltb_trans.
  - intros a b. apply StrOrder.ltb_trichotomy.
Qed.

(** Each of the five [Less] methods is irreflexive and transitive.
    [rules.Less] and [roleRefs.Less] tell apart any two different
    structs, so a sorted slice of rules or of role references is
    determined by its elements; [roles.Less], [bindings.Less] and
    [roleBindings.Less] tell apart only different (namespace, name),
    namespace and UID. *)
Theorem Less_methods_are_strict_orders :
  strictOrderOn rules_Less (fun r => r) /\
  strictOrderOn roleRefs_Less (fun r => r) /\
  strictOrderOn roles_Less (fun r => (role_Namespace r, role_Name r)) /\
  strictOrderOn bindings_Less binding_Namespace /\
  strictOrderOn roleBindings_Less roleBinding_UID.
Proof.
  repeat apply conj.
  - apply (strictOrderOn_lex2 rule_key).
  - apply (strictOrderOn_lex2 rule_key).
  - intros a b H1 H2. by apply rules_before_antisym.
  - apply (strictOrderOn_lex2 roleRef_key).
  - apply (strictOrderOn_lex2 roleRef_key).
  - intros a b H1 H2. by apply roleRefs_before_antisym.
  - apply (strictOrderOn_lex2 role_key).
  - apply (strictOrderOn_lex2 role_key).
  - apply (strictOrderOn_lex2 role_key).
  - apply (strictOrderOn_ltb binding_Namespace).
  - apply (strictOrderOn_ltb binding_Namespace).
  - apply (strictOrderOn_ltb binding_Namespace).
  - apply (strictOrderOn_ltb roleBinding_UID).
  - apply (strictOrderOn_ltb roleBinding_UID).
  - apply (strictOrderOn_ltb roleBinding_UID).
Qed.

(** ** Compiling again *)

Lemma effectiveVerbs_idem v : effectiveVerbs (effectiveVerbs v) = effectiveVerbs v.
Proof.
  unfold effectiveVerbs. destruct (isMethodAll v) eqn:E; [done|]. by rewrite E.
Qed.

Section Recompile.
Context {srt : Sorter} {rng : MapRange} {repo : Repository}.

Lemma ruleAfter_idem r : ruleAfter (ruleAfter r) = ruleAfter r.
Proof.
  unfold ruleAfter.
  destruct (String.eqb (Rule_Kind r) KindResource) eqn:E; simpl; rewrite E;
    [done|]. by rewrite effectiveVerbs_idem.
Qed.

Lemma ruleExpansion_ruleAfter tbl r :
  ruleExpansion tbl (ruleAfter r) = ruleExpansion tbl r.
Proof.
  unfold ruleExpansion, ruleAfter.
  destruct (String.eqb (Rule_Kind r) KindResource) eqn:E; simpl; rewrite E;
    [done|]. by rewrite effectiveVerbs_idem.
Qed.

Lemma compiledRole_roleAfter tbl ro :
  compiledRole tbl (roleAfter ro) = compiledRole tbl ro.
Proof.
  unfold compiledRole, roleAfter. simpl. do 2 f_equal.
  induction (Role_Rules ro) as [|r rs IH]; simpl; [done|].
  by rewrite ruleExpansion_ruleAfter, IH.
Qed.

(** Compiling role objects that an earlier compile has already gone
    over gives what compiling the original objects gives, and changes
    them no further: the rewriting of wildcard verbs is not visible in
    the compiled roles and happens once. *)
Theorem generateOPARoles_again
    (roles : list Role) (policies policies' : list Policy) :
  generateOPARoles (snd (generateOPARoles roles policies')) policies =
  (fst (generateOPARoles roles policies), snd (generateOPARoles roles policies')).
Proof.
  rewrite !generateOPARoles_eq. simpl. f_equal.
  - do 2 f_equal. rewrite map_map. apply map_ext. apply compiledRole_roleAfter.
  - rewrite map_map. apply map_ext. intros ro. unfold roleAfter. simpl.
    f_equal. rewrite map_map. apply map_ext. apply ruleAfter_idem.
Qed.

Lemma tableExpansion_policyRuleAfter pr :
  tableExpansion (policyRuleAfter pr) = tableExpansion pr.
Proof.
  unfold tableExpansion, policyRuleAfter. simpl. by rewrite effectiveVerbs_idem.
Qed.

Lemma policyRuleAfter_idem pr : policyRuleAfter (policyRuleAfter pr) = policyRuleAfter pr.
Proof. unfold policyRuleAfter. simpl. by rewrite effectiveVerbs_idem. Qed.

Lemma flat_map_map {X Y Z} (f : Y -> list Z) (g : X -> Y) l :
  flat_map f (map g l) = flat_map (fun x => f (g x)) l.
Proof. induction l as [|x l IH]; simpl; congruence. Qed.

(** The three static tables are package variables that every compile
    rewrites in place; a later compile (over any policy list) reads the
    rewritten tables, yet compiles what it would have compiled from
    the original ones, and leaves the tables as the first compile left
    them. *)
Theorem generateOPAExemptionURLs_again
    (policies policies' : list Policy) (t : urlTables) :
  generateOPAExemptionURLs policies
    (snd (generateOPAExemptionURLs policies' t)) =
  (fst (generateOPAExemptionURLs policies t),
   snd (generateOPAExemptionURLs policies' t)).
Proof.
  assert (forall l, flat_map tableExpansion (map policyRuleAfter l) =
                    flat_map tableExpansion l) as H1.
  { intros l. rewrite flat_map_map. apply flat_map_ext.
    intros. apply tableExpansion_policyRuleAfter. }
  assert (forall l, map policyRuleAfter (map policyRuleAfter l) =
                    map policyRuleAfter l) as H2.
  { intros l. rewrite map_map. apply map_ext. apply policyRuleAfter_idem. }
  rewrite !generateOPAExemptionURLs_eq. simpl. by rewrite !H1, !H2.
Qed.

(** All three exemption lists come out sorted by (endpoint, then
    method), and the policies bear on Registered only: Public and
    Privileged are the same for every policy list. *)
Theorem exemption_lists_sorted
    (policies policies' : list Policy) (t : urlTables) :
  StronglySorted rule_le (Public (fst (generateOPAExemptionURLs policies t))) /\
  StronglySorted rule_le (Privileged (fst (generateOPAExemptionURLs policies t))) /\
  StronglySorted rule_le (Registered (fst (generateOPAExemptionURLs policies t))) /\
  Public (fst (generateOPAExemptionURLs policies t)) =
    Public (fst (generateOPAExemptionURLs policies' t)) /\
  Privileged (fst (generateOPAExemptionURLs policies t)) =
    Privileged (fst (generateOPAExemptionURLs policies' t)).
Proof.
  rewrite !generateOPAExemptionURLs_eq. simpl.
  repeat split;
    apply (StronglySorted_iff (before rules_Less)); try apply before_rules_Less;
    apply sort_Sort_sorted, StrictWeak_rules_Less.
Qed.

End Recompile.

(** ** The shape of the compiled bindings *)

Section FlattenMapKey.
Context {V Y : Type} (f : string -> V -> list Y).

Let flattenK (m : gmap string V) : list Y :=
  flat_map (fun kv => f (fst kv) (snd kv)) (map_to_list m).

Lemma flattenK_insert m k x :
  flattenK (<[k := x]> m) ≡ₚ f k x ++ flattenK (delete k m).
Proof.
  unfold flattenK. rewrite <- (insert_delete_eq m k x).
  rewrite map_to_list_insert by apply lookup_delete_eq. done.
Qed.

Lemma flattenK_lookup m k :
  flattenK m ≡ₚ from_option (f k) [] (m !! k) ++ flattenK (delete k m).
Proof.
  unfold flattenK. destruct (m !! k) as [x|] eqn:E; simpl.
  - by rewrite <- (map_to_list_delete m k x E).
  - by rewrite delete_id.
Qed.

End FlattenMapKey.

(** Sorted by a key that no two elements share is sorted strictly. *)
Lemma StronglySorted_strict {A} (key : A -> string) (l : list A) :
  StronglySorted (before (fun a b => String.ltb (key a) (key b))) l ->
  NoDup (map key l) ->
  StronglySorted (fun a b => String.ltb (key a) (key b) = true) l.
Proof.
  induction 1 as [|x l Hl IH Hx]; simpl; intros Hnd; constructor.
  - apply IH. by apply NoDup_cons in Hnd as [_ Hnd].
  - apply NoDup_cons in Hnd as [Hnin _].
    apply Forall_forall. intros y Hy.
    rewrite Forall_forall in Hx. specialize (Hx y Hy). unfold before in Hx.
    destruct (String.ltb (key x) (key y)) eqn:E; [done|].
    destruct Hnin. rewrite (StrOrder.ltb_trichotomy _ _ E Hx).
    apply list_elem_of_In, in_map, list_elem_of_In, Hy.
Qed.

Definition roleRef_le (a b : roleRef) : Prop :=
  pair_le (roleRef_Namespace a, roleRef_Name a) (roleRef_Namespace b, roleRef_Name b).

Section BindingShape.
Context {srt : Sorter} {rng : MapRange} {repo : Repository}.

Lemma canonicalBindings_strict nb :
  StronglySorted
    (fun a b => String.ltb (binding_Namespace a) (binding_Namespace b) = true)
    (canonicalBindings nb).
Proof.
  unfold canonicalBindings. apply StronglySorted_strict.
  - apply sort_Sort_sorted, StrictWeak_bindings_Less.
  - rewrite sort_Sort_perm, map_map. simpl. apply (NoDup_fst_map_to_list nb).
Qed.

(** The compiled bindings hold one entry per UID, in strictly
    increasing order of UID; each entry holds one group per namespace,
    in strictly increasing order of namespace; and the role references
    of a group are sorted by (namespace, then name). *)
Theorem compiled_bindings_shape (rbs : list RoleBinding) :
  StronglySorted
    (fun a b => String.ltb (roleBinding_UID a) (roleBinding_UID b) = true)
    (RoleBindings (generateOPARoleBindings rbs)) /\
  Forall (fun e =>
            StronglySorted
              (fun a b =>
                 String.ltb (binding_Namespace a) (binding_Namespace b) = true)
              (roleBinding_Bindings e) /\
            Forall (fun b => StronglySorted roleRef_le (binding_RoleRefs b))
                   (roleBinding_Bindings e))
         (RoleBindings (generateOPARoleBindings rbs)).
Proof.
  rewrite generateOPARoleBindings_eq. simpl. split.
  - apply StronglySorted_strict.
    + apply sort_Sort_sorted, StrictWeak_roleBindings_Less.
    + rewrite sort_Sort_perm, map_map. simpl.
      apply (NoDup_fst_map_to_list (buildUserRoleMap rbs)).
  - apply Forall_forall. intros e He.
    apply sort_Sort_elem_of, list_elem_of_In, in_map_iff in He
      as ([u nb] & <- & _). simpl. split.
    + apply canonicalBindings_strict.
    + apply Forall_forall. intros b Hb. unfold canonicalBindings in Hb.
      apply sort_Sort_elem_of, list_elem_of_In, in_map_iff in Hb
        as ([n refs] & <- & _). simpl.
      apply (StronglySorted_iff (before roleRefs_Less)).
      * intros x y. apply (lex2_before_iff (roleRef_key x) (roleRef_key y)).
      * apply sort_Sort_sorted, StrictWeak_roleRefs_Less.
Qed.

(** The grants the compiled bindings spell out: one (UID, namespace,
    role reference) per role reference of each group of each entry. *)
Definition compiledGrants (out : list roleBinding)
  : list (string * string * roleRef) :=
  flat_map (fun e =>
              flat_map (fun b =>
                          map (fun r => (roleBinding_UID e, binding_Namespace b, r))
                              (binding_RoleRefs b))
                       (roleBinding_Bindings e))
           out.

Definition groupGrants (u n : string) (refs : list roleRef)
  : list (string * string * roleRef) :=
  map (fun r => (u, n, r)) refs.

Definition entryGrants (u : string) (nb : gmap string (list roleRef))
  : list (string * string * roleRef) :=
  flat_map (fun kv => groupGrants u (fst kv) (snd kv)) (map_to_list nb).

Definition mapGrants (m : gmap string (gmap string (list roleRef)))
  : list (string * string * roleRef) :=
  flat_map (fun kv => entryGrants (fst kv) (snd kv)) (map_to_list m).

Lemma entryGrants_empty u : entryGrants u ∅ = [].
Proof. unfold entryGrants. by rewrite map_to_list_empty. Qed.

Lemma mapGrants_addGrant m g : mapGrants (addGrant m g) ≡ₚ mapGrants m ++ [g].
Proof.
  destruct g as [[u n] r]. unfold addGrant, mapGrants. simpl.
  rewrite (flattenK_insert entryGrants m u).
  rewrite (flattenK_lookup entryGrants m u).
  assert (from_option (entryGrants u) [] (m !! u) =
          entryGrants u (default ∅ (m !! u))) as ->.
  { destruct (m !! u); simpl; [done|]. by rewrite entryGrants_empty. }
  unfold grantsAt. generalize (default ∅ (m !! u)). intros nb.
  unfold entryGrants at 1 2.
  rewrite (flattenK_insert (groupGrants u) nb n).
  rewrite (flattenK_lookup (groupGrants u) nb n).
  unfold groupGrants at 1 3. rewrite map_app. simpl.
  destruct (nb !! n); simpl; by solve_Permutation.
Qed.

Lemma mapGrants_foldl gs m :
  mapGrants (foldl addGrant m gs) ≡ₚ mapGrants m ++ gs.
Proof.
  revert m. induction gs as [|g gs IH]; intros m; simpl.
  - by rewrite app_nil_r.
  - rewrite IH, mapGrants_addGrant, <- app_assoc. done.
Qed.

Lemma compiledGrants_canonical u nb :
  flat_map (fun b => map (fun r => (u, binding_Namespace b, r)) (binding_RoleRefs b))
           (canonicalBindings nb) ≡ₚ entryGrants u nb.
Proof.
  unfold canonicalBindings, entryGrants. rewrite sort_Sort_perm.
  generalize (map_to_list nb). intros l.
  induction l as [|[n refs] l IH]; simpl; [done|].
  rewrite IH. apply Permutation_app_tail. unfold groupGrants.
  apply Permutation_map, sort_Sort_perm.
Qed.

(** Nothing is dropped and nothing is merged: the grants spelled out by
    the compiled bindings are, as a multiset, the grants of the stored
    bindings, one per subject of kind User (the subject's UID, the
    binding's namespace, the binding's role reference); a grant stored
    twice is compiled twice. *)
Theorem compiled_bindings_conserve_grants (rbs : list RoleBinding) :
  compiledGrants (RoleBindings (generateOPARoleBindings rbs)) ≡ₚ
  flat_map (fun rb =>
              map (fun s =>
                     (Subject_UID s, RoleBinding_Namespace rb,
                      {| roleRef_Name := RoleRef_Name (RoleBinding_RoleRef rb);
                         roleRef_Namespace :=
                           RoleRef_Namespace (RoleBinding_RoleRef rb) |}))
                  (List.filter
                     (fun s => String.eqb (Subject_Kind s) UserKind)
                     (RoleBinding_Subjects rb)))
           rbs.
Proof.
  change (compiledGrants (RoleBindings (generateOPARoleBindings rbs)) ≡ₚ
          userGrants rbs).
  rewrite generateOPARoleBindings_eq. simpl. unfold compiledGrants.
  rewrite sort_Sort_perm.
  transitivity (mapGrants (buildUserRoleMap rbs)).
  - unfold mapGrants. generalize (map_to_list (buildUserRoleMap rbs)).
    intros l. induction l as [|[u nb] l IH]; simpl; [done|].
    by rewrite IH, compiledGrants_canonical.
  - rewrite buildUserRoleMap_eq, mapGrants_foldl.
    unfold mapGrants. by rewrite map_to_list_empty.
Qed.

End BindingShape.

(** ** The bundle properties on the example host *)

Section BundleScenarios.
#[local] Existing Instance insertionSorter.
#[local] Existing Instance forwardRange.
#[local] Existing Instance exampleRepository.
#[local] Existing Instance memMapFs.
#[local] Existing Instance exampleJson.

Lemma save_publishes_every_file_witness :
  @AferoLaws memMapFs /\
  NoDup (map path (bundleFiles (host := workingHost) "rev-1"
                     [viewer] [userBinding] [workflowPolicy] exampleTables)) /\
  save (host := workingHost)
    (bundleFiles (host := workingHost) "rev-1"
       [viewer] [userBinding] [workflowPolicy] exampleTables)
    initialState =
  (None,
   snd (save (host := workingHost)
          (bundleFiles (host := workingHost) "rev-1"
             [viewer] [userBinding] [workflowPolicy] exampleTables)
          initialState)) /\
  exists fs,
    cacheFS (snd (save (host := workingHost)
                    (bundleFiles (host := workingHost) "rev-1"
                       [viewer] [userBinding] [workflowPolicy] exampleTables)
                    initialState)) = Some fs /\
    forall file,
      file ∈ bundleFiles (host := workingHost) "rev-1"
               [viewer] [userBinding] [workflowPolicy] exampleTables ->
      exists c, contentOf file = inr c /\ ReadFile fs (path file) = inr c.
Proof.
  pose proof memMapFs_laws as L.
  assert (NoDup (map path (bundleFiles (host := workingHost) "rev-1"
                             [viewer] [userBinding] [workflowPolicy]
                             exampleTables))) as Hnd
    by (apply (bool_decide_unpack _); by vm_compute).
  assert (save (host := workingHost)
            (bundleFiles (host := workingHost) "rev-1"
               [viewer] [userBinding] [workflowPolicy] exampleTables)
            initialState =
          (None,
           snd (save (host := workingHost)
                  (bundleFiles (host := workingHost) "rev-1"
                     [viewer] [userBinding] [workflowPolicy] exampleTables)
                  initialState))) as Hs by (by vm_compute).
  repeat (split; [assumption|]).
  exact (save_publishes_every_file (host := workingHost) _ _ _ L Hnd Hs).
Defined.

Lemma exampleJson_manifest_round_trip uuid text :
  uuid = "rev-1" \/ uuid = "rev-2" ->
  @MarshalIndent exampleJson (ofManifest (generateOPAManifest uuid)) = inr text ->
  exists mf, @Unmarshal exampleJson text = inr mf /\ Revision mf = uuid.
Proof.
  intros [->| ->] [= <-]; eexists; split; by vm_compute.
Qed.

Lemma GetRevision_after_compile_witness :
  @AferoLaws memMapFs /\
  (forall text,
     MarshalIndent (ofManifest (generateOPAManifest "rev-2")) = inr text ->
     exists mf, Unmarshal text = inr mf /\ Revision mf = "rev-2") /\
  fst (saveFile NewMemMapFs (manifestFile "rev-2")) = None /\
  GetRevision
    (snd (GenerateOPABundle (host := fullHost) "rev-2"
            [viewer; builder] [userBinding] [workflowPolicy] firstGeneration)) =
  Ret "rev-2".
Proof.
  pose proof memMapFs_laws as L.
  assert (forall text,
            MarshalIndent (ofManifest (generateOPAManifest "rev-2")) = inr text ->
            exists mf, Unmarshal text = inr mf /\ Revision mf = "rev-2") as Hj
    by (intros text; apply exampleJson_manifest_round_trip; by right).
  assert (fst (saveFile NewMemMapFs (manifestFile "rev-2")) = None) as Hf
    by (by vm_compute).
  repeat (split; [assumption|]).
  exact (GetRevision_after_compile (host := fullHost) "rev-2"
           [viewer; builder] [userBinding] [workflowPolicy] firstGeneration
           L Hj (or_intror Hf)).
Defined.

(** The first generation, held by the package on the locked file
    system. *)
Definition firstGenerationLocked : @state lockedFs :=
  @Build_state lockedFs (cacheFS firstGeneration) (urls firstGeneration)
    (disk firstGeneration).

(** C1, at a second compile whose archive step fails on a full host,
    and at one that cannot make the directory of its third file. *)
Lemma failed_compile_replaces_generation_witness :
  (@AferoLaws memMapFs /\
   @FreshIsEmpty memMapFs /\
   (forall text,
      MarshalIndent (ofManifest (generateOPAManifest "rev-2")) = inr text ->
      exists mf, Unmarshal text = inr mf /\ Revision mf = "rev-2") /\
   GetRevision firstGeneration = Ret "rev-1" /\
   fst (GenerateOPABundle (host := fullHost) "rev-2"
          [viewer; builder] [userBinding] [workflowPolicy] firstGeneration) =
     Some "no space left on device" /\
   cacheFS (snd (GenerateOPABundle (host := fullHost) "rev-2"
                   [viewer; builder] [userBinding] [workflowPolicy]
                   firstGeneration)) =
     Some (snd (saveFiles NewMemMapFs
                  (bundleFiles (host := fullHost) "rev-2"
                     [viewer; builder] [userBinding] [workflowPolicy]
                     (urls firstGeneration)))) /\
   disk (snd (GenerateOPABundle (host := fullHost) "rev-2"
                [viewer; builder] [userBinding] [workflowPolicy]
                firstGeneration)) = disk firstGeneration /\
   GetRevision (snd (GenerateOPABundle (host := fullHost) "rev-2"
                       [viewer; builder] [userBinding] [workflowPolicy]
                       firstGeneration)) = Ret "rev-2") /\
  (@AferoLaws lockedFs /\
   @FreshIsEmpty lockedFs /\
   @GetRevision lockedFs exampleJson firstGenerationLocked = Ret "rev-1" /\
   fst (GenerateOPABundle (afero := lockedFs) (host := lockedHost) "rev-2"
          [viewer; builder] [userBinding] [workflowPolicy]
          firstGenerationLocked) =
     Some "mkdir roles: permission denied" /\
   @cacheFS lockedFs
     (snd (GenerateOPABundle (afero := lockedFs) (host := lockedHost)
             "rev-2" [viewer; builder] [userBinding] [workflowPolicy]
             firstGenerationLocked)) =
     Some (snd (saveFiles (afero := lockedFs) (@NewMemMapFs lockedFs)
                  [manifestFile "rev-2";
                   {| data := rawBytes (@authz _ lockedHost);
                      path := policyPath |}])) /\
   @disk lockedFs
     (snd (GenerateOPABundle (afero := lockedFs) (host := lockedHost)
             "rev-2" [viewer; builder] [userBinding] [workflowPolicy]
             firstGenerationLocked)) = @disk lockedFs firstGenerationLocked /\
   @GetRevision lockedFs exampleJson
     (snd (GenerateOPABundle (afero := lockedFs) (host := lockedHost) "rev-2"
             [viewer; builder] [userBinding] [workflowPolicy]
             firstGenerationLocked)) = Ret "rev-2").
Proof.
  assert (forall text,
            MarshalIndent (ofManifest (generateOPAManifest "rev-2")) = inr text ->
            exists mf, Unmarshal text = inr mf /\ Revision mf = "rev-2") as Hj
    by (intros text; apply exampleJson_manifest_round_trip; by right).
  split.
  - pose proof memMapFs_laws as L.
    assert (@FreshIsEmpty memMapFs) as Hfresh.
    { intros name. split.
      - eexists. simpl. by rewrite lookup_empty.
      - intros dir fs [= <-]. eexists. simpl. by rewrite lookup_empty. }
    assert (GetRevision firstGeneration = Ret "rev-1") as Hprev
      by (by vm_compute).
    split; [exact L|]. split; [exact Hfresh|]. split; [exact Hj|].
    split; [exact Hprev|].
    apply (proj2 (failed_compile_replaces_generation
                    (srt := insertionSorter) (rng := forwardRange)
                    (repo := exampleRepository) (json := exampleJson)
                    (host := fullHost) "rev-2"
                    [viewer; builder] [userBinding] [workflowPolicy]
                    firstGeneration "no space left on device" L Hfresh Hj)
             _ (disk firstGeneration)).
    + apply roundsWrite_saveFiles. by vm_compute.
    + reflexivity.
  - pose proof lockedFs_laws as L.
    assert (@FreshIsEmpty lockedFs) as Hfresh.
    { intros name. split.
      - eexists. simpl. by rewrite lookup_empty.
      - intros dir fs. simpl.
        destruct (String.eqb dir "roles"); intros [= <-].
        eexists. by rewrite lookup_empty. }
    split; [exact L|]. split; [exact Hfresh|]. split; [by vm_compute|].
    eapply (proj1 (failed_compile_replaces_generation
                     (srt := insertionSorter) (rng := forwardRange)
                     (repo := exampleRepository) (afero := lockedFs)
                     (json := exampleJson) (host := lockedHost) "rev-2"
                     [viewer; builder] [userBinding] [workflowPolicy]
                     firstGenerationLocked "mkdir roles: permission denied"
                     L Hfresh Hj)
              [manifestFile "rev-2";
               {| data := rawBytes (@authz _ lockedHost);
                  path := policyPath |}]).
    + reflexivity.
    + apply roundsWrite_saveFiles. reflexivity.
    + eapply mkdir_fails; reflexivity.
Defined.

Lemma conditional_get_after_compile_witness :
  @AferoLaws memMapFs /\
  (forall text,
     MarshalIndent (ofManifest (generateOPAManifest "rev-1")) = inr text ->
     exists mf, Unmarshal text = inr mf /\ Revision mf = "rev-1") /\
  "rev-1" <> EmptyString /\
  fst (GenerateOPABundle (host := workingHost) "rev-1"
         [viewer] [userBinding] [workflowPolicy] initialState) = None /\
  c_GetHeader (newContext {["If-None-Match" := "rev-0"]}) "If-None-Match"
    <> "rev-1" /\
  exists c',
    DownloadBundle (host := workingHost)
      (newContext {["If-None-Match" := "rev-0"]})
      (snd (GenerateOPABundle (host := workingHost) "rev-1"
              [viewer] [userBinding] [workflowPolicy] initialState)) = Ret c' /\
    Header c' !! "Etag" = Some "rev-1" /\
    (Status c', Body c') =
      @ServeFile _ workingHost
        (disk (snd (GenerateOPABundle (host := workingHost) "rev-1"
                      [viewer] [userBinding] [workflowPolicy] initialState)))
        (c_Header
           (c_Header (newContext {["If-None-Match" := "rev-0"]})
                     "Content-Type" "application/gzip")
           "Etag" "rev-1")
        (filepath_Join (@DataPath _ workingHost)
           (c_Param (newContext {["If-None-Match" := "rev-0"]}) "name")).
Proof.
  pose proof memMapFs_laws as L.
  assert (forall text,
            MarshalIndent (ofManifest (generateOPAManifest "rev-1")) = inr text ->
            exists mf, Unmarshal text = inr mf /\ Revision mf = "rev-1") as Hj
    by (intros text; apply exampleJson_manifest_round_trip; by left).
  assert ("rev-1" <> EmptyString) as Hne by discriminate.
  assert (fst (GenerateOPABundle (host := workingHost) "rev-1"
                 [viewer] [userBinding] [workflowPolicy] initialState) = None)
    as Hok by (by vm_compute).
  assert (c_GetHeader (newContext {["If-None-Match" := "rev-0"]}) "If-None-Match"
          <> "rev-1") as Hm by (by vm_compute).
  repeat (split; [assumption|]).
  exact (proj2 (conditional_get_after_compile (host := workingHost) "rev-1"
                  [viewer] [userBinding] [workflowPolicy] initialState
                  (newContext {["If-None-Match" := "rev-0"]}) L Hj Hne Hok) Hm).
Defined.

Example compiled_bindings_keep_repeated_grant :
  generateOPARoleBindings [userBinding; userBinding] =
  {| RoleBindings :=
       [ {| roleBinding_UID := "u1";
            roleBinding_Bindings :=
              [ {| binding_Namespace := "proj1";
                   binding_RoleRefs :=
                     [ {| roleRef_Name := "viewer"; roleRef_Namespace := "proj1" |};
                       {| roleRef_Name := "viewer"; roleRef_Namespace := "proj1" |} ]
                |} ] |} ] |}.
Proof. by vm_compute. Qed.

End BundleScenarios.

(** * Part VII: the project service of picket *)

(** Package [service] of picket (the gateway's aggregation layer): the
    project operations, which keep the role bindings of the policy
    service in step with the projects of aslan, and the input they hand
    to the policy decision engine. *)

Module picket.

(** ** Strings *)

(** [strings.ToLower] on ASCII letters (other bytes are left alone). *)
Definition lowerByte (c : ascii) : ascii :=
  let n := nat_of_ascii c in
  if (65 <=? n)%nat && (n <=? 90)%nat then ascii_of_nat (n + 32) else c.

Fixpoint strings_ToLower (s : string) : string :=
  match s with
  | EmptyString => EmptyString
  | String c s' => String (lowerByte c) (strings_ToLower s')
  end.

(** [strings.Trim(s, cutset)] for a cutset of one byte: all leading and
    all trailing occurrences of the byte are removed. *)
Fixpoint trimLeft (cut : ascii) (s : string) : string :=
  match s with
  | String c s' => if Ascii.eqb c cut then trimLeft cut s' else s
  | EmptyString => EmptyString
  end.

Fixpoint trimRight (cut : ascii) (s : string) : string :=
  match s with
  | EmptyString => EmptyString
  | String c s' =>
      match trimRight cut s' with
      | EmptyString => if Ascii.eqb c cut then EmptyString else String c EmptyString
      | t => String c t
      end
  end.

Definition strings_Trim (s : string) (cut : ascii) : string :=
  trimRight cut (trimLeft cut s).

(** [strings.Split(s, sep)] for a separator of one byte: the pieces
    between the occurrences of the separator, empty pieces included; a
    string without the separator (the empty string too) is one
    piece. *)
Fixpoint strings_Split (s : string) (sep : ascii) : list string :=
  match s with
  | EmptyString => [EmptyString]
  | String c s' =>
      if Ascii.eqb c sep then EmptyString :: strings_Split s' sep
      else
        match strings_Split s' sep with
        | piece :: pieces => String c piece :: pieces
        | [] => [String c EmptyString]
        end
  end.

(** ** Data *)

(** [url.Values] *)
Abbreviation Values := (gmap string (list string)) (only parsing).

(** [qs.Add(key, value)] appends the value to the key's values. *)
Definition Values_Add (qs : Values) (key value : string) : Values :=
  <[key := default [] (qs !! key) ++ [value]]> qs.

Record CreateProjectArgs := {
  Public : bool;
  ProductName : string;
  Admins : list string
}.

(** [policy.RoleBinding], the argument of the policy client, with the
    fields the service sets. *)
Record RoleBinding := {
  Name : string;
  UID : string;
  Role : string;
  rb_Public : bool
}.

(** [opa.Input]: the nested request attributes (headers and method)
    and the parsed path. *)
Record Input := {
  Headers : gmap string string;
  Method : string;
  ParsedPath : list string
}.

(** The constants of package [setting] and the [http.Header] type, which
    are not among the sources.  [RoleBindingNameFmt uid role project]
    stands for [fmt.Sprintf(setting.RoleBindingNameFmt, uid, role,
    project)]. *)
Class Setting := {
  HTTPHeader : Type;
  header_Get : HTTPHeader -> string -> string;
  AuthorizationHeader : string;
  RoleBindingNameFmt : string -> string -> string -> string;
  Admin : string;
  ReadOnly : string
}.

Section Service.
Context {setting : Setting}.

(** The calls the service makes to its three collaborators: the policy
    service, aslan, and the policy decision engine. *)
Inductive Call : Type :=
| policy_CreateOrUpdateRoleBinding (ns : string) (rb : RoleBinding)
| policy_DeleteRoleBinding (name ns : string)
| policy_DeleteRoleBindings (names : list string) (ns : string)
| policy_DeleteRoles (names : list string) (ns : string)
| aslan_CreateProject (header : HTTPHeader) (qs : Values) (body : string)
| aslan_UpdateProject (header : HTTPHeader) (qs : Values) (body : string)
| aslan_ListProjects (header : HTTPHeader) (qs : Values)
| aslan_DeleteProject (header : HTTPHeader) (qs : Values) (productName : string)
| opa_Evaluate (query : string) (input : Input).

(** What a call answers: the policy client an error or none, aslan an
    error or the response body, the engine an error or the [Result] it
    decodes into [allowedProjectsData]. *)
Definition Response (c : Call) : Type :=
  match c with
  | policy_CreateOrUpdateRoleBinding _ _
  | policy_DeleteRoleBinding _ _
  | policy_DeleteRoleBindings _ _
  | policy_DeleteRoles _ _ => option string
  | aslan_CreateProject _ _ _
  | aslan_UpdateProject _ _ _
  | aslan_ListProjects _ _
  | aslan_DeleteProject _ _ _ => (string + string)%type
  | opa_Evaluate _ _ => (string + list string)%type
  end.

(** A function of the service as the calls it makes, each continued
    with the answer it gets. *)
Inductive prog (A : Type) : Type :=
| Return (a : A)
| Invoke (c : Call) (k : Response c -> prog A).
Arguments Return {A} a.
Arguments Invoke {A} c k.

Fixpoint bind {A B} (p : prog A) (f : A -> prog B) : prog B :=
  match p with
  | Return a => f a
  | Invoke c k => Invoke c (fun r => bind (k r) f)
  end.

(** Running a function against collaborators that answer from a state
    of their own: the result, the state they end in, and the calls
    made, in order. *)
Fixpoint run {A W} (answer : forall c, W -> Response c * W)
    (p : prog A) (w : W) : A * W * list Call :=
  match p with
  | Return a => (a, w, [])
  | Invoke c k =>
      let '(r, w) := answer c w in
      let '(a, w, calls) := run answer (k r) w in
      (a, w, c :: calls)
  end.

(** [generateOPAInput] *)
Definition generateOPAInput (header : HTTPHeader) (method endpoint : string)
  : Input :=
  let authorization := header_Get header (strings_ToLower AuthorizationHeader) in
  let parsedPath := strings_Split (strings_Trim endpoint "/") "/" in
  {| Headers := {[ strings_ToLower AuthorizationHeader := authorization ]};
     Method := method;
     ParsedPath := parsedPath |}.

(** [getVisibleProjects] *)
Definition getVisibleProjects (headers : HTTPHeader)
  : prog (string + list string) :=
  Invoke (opa_Evaluate "rbac.user_visible_projects"
            (generateOPAInput headers EmptyString EmptyString))
         Return.

(** The role bindings [CreateProject] asks for: one per administrator,
    then one for everybody if the project is public. *)
Definition projectRoleBindings (args : CreateProjectArgs) : list RoleBinding :=
  let rbs :=
    foldl (fun rbs uid =>
             rbs ++ [ {| Name := RoleBindingNameFmt uid Admin (ProductName args);
                         UID := uid; Role := Admin; rb_Public := true |} ])
          [] (Admins args) in
  if Public args
  then rbs ++ [ {| Name := RoleBindingNameFmt "*" ReadOnly (ProductName args);
                   UID := "*"; Role := ReadOnly; rb_Public := true |} ]
  else rbs.

(** [for _, rb := range rbs] with [CreateOrUpdateRoleBinding], left at
    the first error. *)
Fixpoint createRoleBindings (ns : string) (rbs : list RoleBinding)
  : prog (option string) :=
  match rbs with
  | [] => Return None
  | rb :: rbs =>
      Invoke (policy_CreateOrUpdateRoleBinding ns rb)
             (fun err =>
                match err with
                | Some err => Return (Some err)
                | None => createRoleBindings ns rbs
                end)
  end.

(** [for _, rb := range rbs] with [DeleteRoleBinding], errors only
    logged. *)
Fixpoint deleteRoleBindings (ns : string) (rbs : list RoleBinding) : prog unit :=
  match rbs with
  | [] => Return tt
  | rb :: rbs =>
      Invoke (policy_DeleteRoleBinding (Name rb) ns)
             (fun _ => deleteRoleBindings ns rbs)
  end.

(** [CreateProject] *)
Definition CreateProject (header : HTTPHeader) (body : string) (qs : Values)
    (args : CreateProjectArgs) : prog (string + string) :=
  let rbs := projectRoleBindings args in
  bind (createRoleBindings (ProductName args) rbs)
    (fun err =>
       match err with
       | Some err => Return (inl err)
       | None =>
           Invoke (aslan_CreateProject header qs body)
                  (fun res =>
                     match res with
                     | inl err =>
                         bind (deleteRoleBindings (ProductName args) rbs)
                              (fun _ => Return (inl err))
                     | inr res => Return (inr res)
                     end)
       end).

(** [UpdateProject] *)
Definition UpdateProject (header : HTTPHeader) (qs : Values) (body : string)
    (projectName : string) (public : bool) : prog (string + string) :=
  let roleBindingName := RoleBindingNameFmt "*" ReadOnly projectName in
  let update (err : option string) : prog (string + string) :=
    match err with
    | Some err => Return (inl err)
    | None => Invoke (aslan_UpdateProject header qs body) Return
    end in
  if negb public
  then Invoke (policy_DeleteRoleBinding roleBindingName projectName) update
  else Invoke (policy_CreateOrUpdateRoleBinding projectName
                 {| Name := roleBindingName; UID := "*"; Role := ReadOnly;
                    rb_Public := true |})
              update.

(** [ListProjects]: the answer, and the caller's query values as the
    call leaves them ([qs.Add] works on the caller's map, which is
    taken to be allocated: [Add] on a nil map panics). *)
Definition ListProjects (header : HTTPHeader) (qs : Values)
  : prog ((string + string) * Values) :=
  bind (getVisibleProjects header)
    (fun names =>
       match names with
       | inl err => Return (inl err, qs)
       | inr names =>
           if (length names =? 0)%nat then Return (inr "[]", qs)
           else
             let qs :=
               if negb (match names with
                        | [name] => String.eqb name "*"
                        | _ => false
                        end)
               then foldl (fun qs name => Values_Add qs "names" name) qs names
               else qs in
             Invoke (aslan_ListProjects header qs) (fun res => Return (res, qs))
       end).

(** [DeleteProject]: the errors of the two policy calls are only
    logged. *)
Definition DeleteProject (header : HTTPHeader) (qs : Values)
    (productName : string) : prog (string + string) :=
  Invoke (policy_DeleteRoleBindings ["*"] productName)
    (fun _ =>
       Invoke (policy_DeleteRoles ["*"] productName)
         (fun _ => Invoke (aslan_DeleteProject header qs productName) Return)).

End Service.
End picket.

Module picketFacts.
Import picket.

Section Protocol.
Context {setting : Setting} {W : Type}.
Variable answer : forall c : Call, W -> Response c * W.

Definition resultOf {A} (out : A * W * list Call) : A := fst (fst out).
Definition callsOf {A} (out : A * W * list Call) : list Call := snd out.
Definition worldOf {A} (out : A * W * list Call) : W := snd (fst out).

Lemma run_bind {A B} (p : prog A) (f : A -> prog B) w :
  run answer (bind p f) w =
  (resultOf (run answer (f (resultOf (run answer p w)))
                 (worldOf (run answer p w))),
   worldOf (run answer (f (resultOf (run answer p w)))
                (worldOf (run answer p w))),
   callsOf (run answer p w) ++
   callsOf (run answer (f (resultOf (run answer p w)))
                (worldOf (run answer p w)))).
Proof.
  unfold resultOf, worldOf, callsOf.
  revert w. induction p as [a|c k IH]; intros w; simpl.
  - by destruct (run answer (f a) w) as [[b w'] calls].
  - destruct (answer c w) as [r w1]. rewrite IH.
    destruct (run answer (k r) w1) as [[a w2] calls]. reflexivity.
Qed.

(** The state the collaborators are in once they have answered the
    given calls, in order. *)
Fixpoint replay (calls : list Call) (w : W) : W :=
  match calls with
  | [] => w
  | c :: calls => replay calls (snd (answer c w))
  end.

(** The policy service, asked for the role bindings one after the
    other from the state [w] on, makes each of them. *)
Definition allMade (ns : string) (rbs : list RoleBinding) (w : W) : Prop :=
  forall made rb rest,
    rbs = made ++ rb :: rest ->
    fst (answer (policy_CreateOrUpdateRoleBinding ns rb)
           (replay (map (policy_CreateOrUpdateRoleBinding ns) made) w)) = None.

Lemma allMade_cons ns rb rbs w :
  allMade ns (rb :: rbs) w ->
  fst (answer (policy_CreateOrUpdateRoleBinding ns rb) w) = None /\
  allMade ns rbs (snd (answer (policy_CreateOrUpdateRoleBinding ns rb) w)).
Proof.
  intros H. split.
  - apply (H [] rb rbs). reflexivity.
  - intros made rb' rest ->. apply (H (rb :: made) rb' rest). reflexivity.
Qed.

Lemma run_createRoleBindings_made ns rbs w :
  allMade ns rbs w ->
  run answer (createRoleBindings ns rbs) w =
  (None, replay (map (policy_CreateOrUpdateRoleBinding ns) rbs) w,
   map (policy_CreateOrUpdateRoleBinding ns) rbs).
Proof.
  revert w. induction rbs as [|rb rbs IH]; intros w H; simpl; [done|].
  apply allMade_cons in H as [Hrb H].
  destruct (answer (policy_CreateOrUpdateRoleBinding ns rb) w) as [r w1].
  simpl in *. subst r. by rewrite (IH w1 H).
Qed.

Lemma run_createRoleBindings_fails ns pre rb post err w :
  allMade ns pre w ->
  fst (answer (policy_CreateOrUpdateRoleBinding ns rb)
         (replay (map (policy_CreateOrUpdateRoleBinding ns) pre) w)) = Some err ->
  run answer (createRoleBindings ns (pre ++ rb :: post)) w =
  (Some err,
   replay (map (policy_CreateOrUpdateRoleBinding ns) (pre ++ [rb])) w,
   map (policy_CreateOrUpdateRoleBinding ns) (pre ++ [rb])).
Proof.
  revert w. induction pre as [|p pre IH]; intros w H Hf; simpl in *.
  - destruct (answer (policy_CreateOrUpdateRoleBinding ns rb) w) as [r w1].
    simpl in *. by subst r.
  - apply allMade_cons in H as [Hp H].
    destruct (answer (policy_CreateOrUpdateRoleBinding ns p) w) as [r w1].
    simpl in *. subst r. by rewrite (IH w1 H Hf).
Qed.

Lemma run_deleteRoleBindings ns rbs w :
  callsOf (run answer (deleteRoleBindings ns rbs) w) =
  map (fun rb => policy_DeleteRoleBinding (Name rb) ns) rbs.
Proof.
  revert w. induction rbs as [|rb rbs IH]; intros w; simpl; [done|].
  destruct (answer (policy_DeleteRoleBinding (Name rb) ns) w) as [r w1].
  specialize (IH w1).
  destruct (run answer (deleteRoleBindings ns rbs) w1) as [[u w2] calls].
  unfold callsOf in *. simpl in *. by rewrite IH.
Qed.

(** [CreateProject] asks the policy service for the role bindings one
    by one.  If the policy service makes the first ones and answers
    the next with an error, [CreateProject] stops there: it makes no
    further call (none to aslan, none that takes back the bindings
    already made) and returns that error.  If the policy service makes
    all of them, aslan is called next, in the state the policy service
    was left in; if aslan answers with an error, the deletion of every
    binding is asked for, in the same order and whatever the answers,
    and aslan's error is returned; if aslan answers with a response,
    that response is returned and nothing more is called. *)
Theorem CreateProject_calls (header : HTTPHeader) (body : string) (qs : Values)
    (args : CreateProjectArgs) (w : W) :
  let ns := ProductName args in
  let rbs := projectRoleBindings args in
  let make := policy_CreateOrUpdateRoleBinding ns in
  let out := run answer (CreateProject header body qs args) w in
  (forall pre rb post err,
     rbs = pre ++ rb :: post ->
     allMade ns pre w ->
     fst (answer (make rb) (replay (map make pre) w)) = Some err ->
     callsOf out = map make (pre ++ [rb]) /\
     resultOf out = inl err) /\
  (allMade ns rbs w ->
   (forall err,
      fst (answer (aslan_CreateProject header qs body)
             (replay (map make rbs) w)) = inl err ->
      callsOf out =
        map make rbs
        ++ aslan_CreateProject header qs body
        :: map (fun rb => policy_DeleteRoleBinding (Name rb) ns) rbs /\
      resultOf out = inl err) /\
   (forall res,
      fst (answer (aslan_CreateProject header qs body)
             (replay (map make rbs) w)) = inr res ->
      callsOf out = map make rbs ++ [aslan_CreateProject header qs body] /\
      resultOf out = inr res)).
Proof.
  intros ns rbs make out. subst out. unfold CreateProject.
  fold rbs. fold ns. rewrite run_bind. split.
  - intros pre rb post err Hrbs Hmade Hfail. rewrite Hrbs.
    rewrite (run_createRoleBindings_fails ns pre rb post err w Hmade Hfail).
    unfold resultOf, callsOf, worldOf. simpl. by rewrite app_nil_r.
  - intros Hmade. rewrite (run_createRoleBindings_made ns rbs w Hmade).
    unfold resultOf, worldOf, callsOf. cbn [fst snd run]. fold make.
    destruct (answer (aslan_CreateProject header qs body)
                (replay (map make rbs) w)) as [r w2].
    cbn [fst]. split.
    + intros err ->. rewrite run_bind.
      pose proof (run_deleteRoleBindings ns rbs w2) as Hd.
      destruct (run answer (deleteRoleBindings ns rbs) w2) as [[u w3] calls].
      unfold resultOf, callsOf, worldOf in *. simpl in *.
      subst calls. by rewrite app_nil_r.
    + by intros res ->.
Qed.

End Protocol.
End picketFacts.

Module picketLists.
Import picket picketFacts.

Lemma Values_Add_some (names : list string) (qs : gmap string (list string))
    (key : string) (v : list string) :
  qs !! key = Some v ->
  foldl (fun qs name => Values_Add qs key name) qs names !! key =
    Some (v ++ names).
Proof.
  revert qs v. induction names as [|name names IH]; intros qs v H; simpl.
  - by rewrite app_nil_r.
  - rewrite (IH _ (v ++ [name])).
    + by rewrite <- app_assoc.
    + unfold Values_Add. rewrite lookup_insert_eq, H. done.
Qed.

Lemma Values_Add_names (names : list string) (qs : gmap string (list string))
    (key : string) :
  (names <> [] ->
   foldl (fun qs name => Values_Add qs key name) qs names !! key =
     Some (default [] (qs !! key) ++ names)) /\
  forall other, other <> key ->
    foldl (fun qs name => Values_Add qs key name) qs names !! other = qs !! other.
Proof.
  split.
  - destruct names as [|name names]; [done|]. intros _. simpl.
    rewrite (Values_Add_some names _ key (default [] (qs !! key) ++ [name])).
    + by rewrite <- app_assoc.
    + unfold Values_Add. by rewrite lookup_insert_eq.
  - revert qs. induction names as [|name names IH]; intros qs other Hne; simpl.
    + done.
    + rewrite IH by done. unfold Values_Add. by rewrite lookup_insert_ne.
Qed.

Section Lists.
Context {setting : Setting} {W : Type}.
Variable answer : forall c : Call, W -> Response c * W.

(** [ListProjects] first asks the decision engine which projects the
    caller may see.  An error there is returned as it is; an empty
    answer yields the body "[]" without asking aslan; the answer ["*"]
    alone passes the caller's query on to aslan unchanged; any other
    answer (one that holds "*" among other names too) is appended,
    name by name, to the values of the query key "names", the other
    keys staying as they are, and the caller's query values are left
    changed in this way. *)
Theorem ListProjects_calls (header : HTTPHeader) (qs : gmap string (list string))
    (w : W) :
  let ask := opa_Evaluate "rbac.user_visible_projects"
               (generateOPAInput header EmptyString EmptyString) in
  let out := run answer (ListProjects header qs) w in
  (forall err, fst (answer ask w) = inl err ->
     callsOf out = [ask] /\ resultOf out = (inl err, qs)) /\
  (fst (answer ask w) = inr [] ->
     callsOf out = [ask] /\ resultOf out = (inr "[]", qs)) /\
  (fst (answer ask w) = inr ["*"] ->
     callsOf out = [ask; aslan_ListProjects header qs] /\
     resultOf out =
       (fst (answer (aslan_ListProjects header qs) (snd (answer ask w))), qs)) /\
  (forall names, fst (answer ask w) = inr names ->
     names <> [] -> names <> ["*"] ->
     exists qs',
       callsOf out = [ask; aslan_ListProjects header qs'] /\
       resultOf out =
         (fst (answer (aslan_ListProjects header qs') (snd (answer ask w))), qs') /\
       qs' !! "names" = Some (default [] (qs !! "names") ++ names) /\
       forall key, key <> "names" -> qs' !! key = qs !! key).
Proof.
  intros ask out. subst out. unfold ListProjects, getVisibleProjects.
  fold ask. simpl. destruct (answer ask w) as [r w1]. simpl.
  split; [|split; [|split]].
  - by intros err ->.
  - by intros ->.
  - intros ->. simpl.
    by destruct (answer (aslan_ListProjects header qs) w1) as [res w2].
  - intros names -> Hne Hstar.
    exists (foldl (fun qs name => Values_Add qs "names" name) qs names).
    assert ((length names =? 0)%nat = false) as ->
      by (by destruct names).
    assert (match names with
            | [name] => String.eqb name "*"
            | _ => false
            end = false) as ->.
    { destruct names as [|name [|name' names]]; try done.
      apply String.eqb_neq. congruence. }
    simpl.
    destruct (answer (aslan_ListProjects header _) w1) as [res w2]. simpl.
    destruct (Values_Add_names names qs "names") as [H1 H2].
    repeat split; [by apply H1|exact H2].
Qed.

(** [UpdateProject] changes the public read-only role binding first
    (deleting it for a private project, creating or updating it for a
    public one) and calls aslan only if that went through; if aslan
    then fails, its error is returned and the change of the role
    binding is not taken back. *)
Theorem UpdateProject_calls (header : HTTPHeader) (qs : gmap string (list string))
    (body projectName : string) (public : bool) (w : W) :
  let name := RoleBindingNameFmt "*" ReadOnly projectName in
  let change :=
    if public
    then policy_CreateOrUpdateRoleBinding projectName
           {| Name := name; UID := "*"; Role := ReadOnly; rb_Public := true |}
    else policy_DeleteRoleBinding name projectName in
  let out := run answer (UpdateProject header qs body projectName public) w in
  (exists err, callsOf out = [change] /\ resultOf out = inl err) \/
  (callsOf out = [change; aslan_UpdateProject header qs body] /\
   exists w1, resultOf out = fst (answer (aslan_UpdateProject header qs body) w1)).
Proof.
  intros name change out. subst out change name. unfold UpdateProject.
  destruct public; simpl.
  - destruct (answer (policy_CreateOrUpdateRoleBinding _ _) w) as [[err|] w1];
      simpl.
    + left. by exists err.
    + right. destruct (answer (aslan_UpdateProject header qs body) w1)
        as [res w2] eqn:E. simpl. split; [done|]. exists w1. by rewrite E.
  - destruct (answer (policy_DeleteRoleBinding _ _) w) as [[err|] w1]; simpl.
    + left. by exists err.
    + right. destruct (answer (aslan_UpdateProject header qs body) w1)
        as [res w2] eqn:E. simpl. split; [done|]. exists w1. by rewrite E.
Qed.

(** [DeleteProject] always makes the same three calls, whatever the
    policy service answers: delete all role bindings of the project,
    delete all its roles, delete the project in aslan; its result is
    aslan's. *)
Theorem DeleteProject_calls (header : HTTPHeader) (qs : gmap string (list string))
    (productName : string) (w : W) :
  callsOf (run answer (DeleteProject header qs productName) w) =
    [ policy_DeleteRoleBindings ["*"] productName;
      policy_DeleteRoles ["*"] productName;
      aslan_DeleteProject header qs productName ] /\
  exists w2,
    resultOf (run answer (DeleteProject header qs productName) w) =
    fst (answer (aslan_DeleteProject header qs productName) w2).
Proof.
  unfold DeleteProject. simpl.
  destruct (answer (policy_DeleteRoleBindings _ _) w) as [r1 w1].
  destruct (answer (policy_DeleteRoles _ _) w1) as [r2 w2].
  destruct (answer (aslan_DeleteProject header qs productName) w2)
    as [res w3] eqn:E.
  simpl. split; [done|]. exists w2. by rewrite E.
Qed.

End Lists.
End picketLists.

Module picketPaths.
Import picket.

Fixpoint repeatByte (c : ascii) (n : nat) : string :=
  match n with
  | 0 => EmptyString
  | S n => String c (repeatByte c n)
  end.

Definition firstByte (s : string) : option ascii :=
  match s with
  | String c _ => Some c
  | EmptyString => None
  end.

Fixpoint lastByte (s : string) : option ascii :=
  match s with
  | EmptyString => None
  | String c EmptyString => Some c
  | String _ s' => lastByte s'
  end.

Definition hasByte (c : ascii) (s : string) : Prop :=
  In c (list_ascii_of_string s).

Lemma append_cons (c : ascii) (a b : string) :
  String.append (String c a) b = String c (String.append a b).
Proof. reflexivity. Qed.

Lemma append_nil (b : string) : String.append EmptyString b = b.
Proof. reflexivity. Qed.

Lemma trimLeft_spec cut s :
  exists n, s = String.append (repeatByte cut n) (trimLeft cut s).
Proof.
  induction s as [|c s [n IH]]; simpl.
  - by exists 0.
  - destruct (Ascii.eqb c cut) eqn:E.
    + apply Ascii.eqb_eq in E. subst. exists (S n). simpl.
      rewrite append_cons. congruence.
    + by exists 0.
Qed.

Lemma trimLeft_first cut s : firstByte (trimLeft cut s) <> Some cut.
Proof.
  induction s as [|c s IH]; simpl; [done|].
  destruct (Ascii.eqb c cut) eqn:E; [done|].
  apply Ascii.eqb_neq in E. simpl. congruence.
Qed.

Lemma trimRight_spec cut s :
  exists m, s = String.append (trimRight cut s) (repeatByte cut m).
Proof.
  induction s as [|c s [m IH]]; simpl.
  - by exists 0.
  - destruct (trimRight cut s) as [|c' t] eqn:Et.
    + destruct (Ascii.eqb c cut) eqn:E.
      * apply Ascii.eqb_eq in E. subst c. exists (S m).
        rewrite append_nil in *. simpl. by f_equal.
      * exists m. rewrite append_cons. by f_equal.
    + exists m. rewrite append_cons. by f_equal.
Qed.

Lemma trimRight_last cut s : lastByte (trimRight cut s) <> Some cut.
Proof.
  induction s as [|c s IH]; simpl; [done|].
  destruct (trimRight cut s) as [|c' t] eqn:Et.
  - destruct (Ascii.eqb c cut) eqn:E; [done|].
    apply Ascii.eqb_neq in E. simpl. congruence.
  - exact IH.
Qed.

Lemma trimRight_first cut s :
  firstByte s <> Some cut -> firstByte (trimRight cut s) <> Some cut.
Proof.
  destruct s as [|c s]; simpl; [done|]. intros H.
  destruct (trimRight cut s); [|done].
  by destruct (Ascii.eqb c cut).
Qed.

Lemma Split_nonempty s sep : strings_Split s sep <> [].
Proof.
  destruct s as [|c s]; simpl; [done|].
  destruct (Ascii.eqb c sep); [done|]. by destruct (strings_Split s sep).
Qed.

Lemma concat_Split s sep :
  String.concat (String sep EmptyString) (strings_Split s sep) = s.
Proof.
  induction s as [|c s IH]; simpl; [done|].
  pose proof (Split_nonempty s sep) as Hne.
  destruct (Ascii.eqb c sep) eqn:E.
  - apply Ascii.eqb_eq in E. subst.
    destruct (strings_Split s sep) as [|piece pieces]; [done|].
    rewrite <- IH. reflexivity.
  - destruct (strings_Split s sep) as [|piece pieces]; [done|].
    destruct pieces; rewrite <- IH; reflexivity.
Qed.

Lemma Split_pieces s sep :
  Forall (fun piece => ~ hasByte sep piece) (strings_Split s sep).
Proof.
  induction s as [|c s IH]; simpl.
  - constructor; [|constructor]. intros [].
  - destruct (Ascii.eqb c sep) eqn:E.
    + constructor; [|exact IH]. intros [].
    + apply Ascii.eqb_neq in E.
      destruct (strings_Split s sep) as [|piece pieces].
      * constructor; [|constructor]. intros [H|[]]. congruence.
      * inversion IH as [|? ? Hp Hps]; subst. constructor; [|exact Hps].
        intros [H|H]; [congruence|]. by apply Hp.
Qed.

Lemma Split_first s sep :
  s <> EmptyString -> firstByte s <> Some sep ->
  hd EmptyString (strings_Split s sep) <> EmptyString.
Proof.
  destruct s as [|c s]; simpl; [done|]. intros _ H.
  destruct (Ascii.eqb c sep) eqn:E.
  - apply Ascii.eqb_eq in E. congruence.
  - by destruct (strings_Split s sep).
Qed.

Lemma Split_last s sep :
  s <> EmptyString -> lastByte s <> Some sep ->
  List.last (strings_Split s sep) EmptyString <> EmptyString.
Proof.
  induction s as [|c s IH]; [done|]. intros _ H.
  pose proof (Split_nonempty s sep) as Hne. simpl.
  destruct (Ascii.eqb c sep) eqn:E.
  - apply Ascii.eqb_eq in E. subst.
    destruct s as [|c' s']; [simpl in H; congruence|].
    destruct (strings_Split (String c' s') sep) as [|piece pieces] eqn:Es;
      [done|].
    change (List.last (piece :: pieces) EmptyString <> EmptyString).
    apply IH; [done|exact H].
  - destruct s as [|c' s'].
    + simpl. done.
    + destruct (strings_Split (String c' s') sep) as [|piece pieces] eqn:Es;
        [done|].
      destruct pieces as [|p ps]; [simpl; done|].
      change (List.last (piece :: p :: ps) EmptyString <> EmptyString).
      apply IH; [done|exact H].
Qed.

Section Paths.
Context {setting : Setting}.

(** The parsed path that [generateOPAInput] hands to the decision
    engine is the endpoint without its leading and trailing slashes,
    cut at every remaining slash: joining the segments with slashes
    gives the endpoint back up to the slashes removed at its ends, no
    segment holds a slash, and there is always at least one segment.
    For an endpoint of nothing but slashes (the empty endpoint too) the
    path is the single empty segment; otherwise its first and its last
    segment are not empty (an empty segment can only come from a
    doubled slash inside). *)
Theorem generateOPAInput_parsed_path
    (header : HTTPHeader) (method endpoint : string) :
  let path := ParsedPath (generateOPAInput header method endpoint) in
  (exists n m,
     endpoint =
     String.append (repeatByte "/" n)
       (String.append (String.concat "/" path) (repeatByte "/" m))) /\
  path <> [] /\
  Forall (fun segment => ~ hasByte "/" segment) path /\
  (path = [EmptyString] \/
   hd EmptyString path <> EmptyString /\
   List.last path EmptyString <> EmptyString).
Proof.
  intros path. subst path. unfold generateOPAInput. simpl.
  unfold strings_Trim.
  split; [|split; [|split]].
  - rewrite (concat_Split _ "/").
    destruct (trimLeft_spec "/" endpoint) as [n Hn].
    destruct (trimRight_spec "/" (trimLeft "/" endpoint)) as [m Hm].
    exists n, m. by rewrite <- Hm.
  - apply Split_nonempty.
  - apply Split_pieces.
  - destruct (trimRight "/" (trimLeft "/" endpoint)) as [|c t] eqn:E.
    + by left.
    + right. rewrite <- E. split.
      * apply Split_first; [by rewrite E|].
        apply trimRight_first, trimLeft_first.
      * apply Split_last; [by rewrite E|]. apply trimRight_last.
Qed.

End Paths.
End picketPaths.

(** * Part VIII: merging the charts of a helm product *)

(** [compareHelmVariable] of aslan's service package builds the next
    render set of a product from the charts of the latest render set and
    the charts of the current request.  The chart type is the
    repository's [templatemodels.RenderChart]; only its service name is
    looked at, so the type and that field are parameters here. *)

Module helm.
Section Compare.
Context {rng : MapRange}.
Variable RenderChart : Type.
Variable ServiceName : RenderChart -> string.

(** [models.RenderSet], with the fields the function sets. *)
Record RenderSet := {
  Name : string;
  Revision : Z;
  ProductTmpl : string;
  UpdateBy : string;
  ChartInfos : list RenderChart
}.

(** The first loop: [currentChartInfoMap[chartInfo.ServiceName] =
    chartInfo] for every chart of the request, in order. *)
Definition currentChartInfoMap (chartInfos : list RenderChart)
  : gmap string RenderChart :=
  foldl (fun m chartInfo => <[ServiceName chartInfo := chartInfo]> m)
        ∅ chartInfos.

(** The second loop, over the charts of the latest render set: a chart
    whose service is in the map is replaced by the map's chart, which is
    then deleted from the map; the others are kept. *)
Fixpoint mixLatest (latestChartInfos : list RenderChart)
    (currentMap : gmap string RenderChart)
    (mixtureChartInfos : list RenderChart)
  : list RenderChart * gmap string RenderChart :=
  match latestChartInfos with
  | [] => (mixtureChartInfos, currentMap)
  | latestChartInfo :: rest =>
      match currentMap !! ServiceName latestChartInfo with
      | Some currentChartInfo =>
          mixLatest rest
            (delete (ServiceName latestChartInfo) currentMap)
            (mixtureChartInfos ++ [currentChartInfo])
      | None =>
          mixLatest rest currentMap (mixtureChartInfos ++ [latestChartInfo])
      end
  end.

(** The three loops: what is left in the map after the second loop is
    appended in the order in which the map is ranged over. *)
Definition mixtureChartInfos (latestChartInfos chartInfos : list RenderChart)
  : list RenderChart :=
  let '(mixture, currentMap) :=
    mixLatest latestChartInfos (currentChartInfoMap chartInfos) [] in
  mixture ++ map snd (rangeOf currentMap).

(** The latest charts: those of the render set [Find] gives for the
    product, none when [Find] fails. *)
Definition latestOf (Find : string -> option RenderSet) (productName : string)
  : list RenderChart :=
  match Find productName with
  | Some latestDefaultRenderSet => ChartInfos latestDefaultRenderSet
  | None => []
  end.

(** [compareHelmVariable]: [Find] is the lookup of the latest render set
    of the product ([None] when it fails); the result is the render set
    handed to [CreateHelmRenderSet], whose error is only logged. *)
Definition compareHelmVariable (Find : string -> option RenderSet)
    (chartInfos : list RenderChart) (productName createdBy : string)
  : RenderSet :=
  let latestChartInfos := latestOf Find productName in
  {| Name := productName;
     Revision := 0;
     ProductTmpl := productName;
     UpdateBy := createdBy;
     ChartInfos := mixtureChartInfos latestChartInfos chartInfos |}.

(** The chart of the request that counts for a service: the last one
    with that service name. *)
Definition requested (chartInfos : list RenderChart) (service : string)
  : option RenderChart :=
  find (fun chartInfo => String.eqb (ServiceName chartInfo) service)
       (rev chartInfos).

End Compare.
End helm.

Module helmFacts.
Import helm.
Section Merge.
Context {rng : MapRange}.
Variable RenderChart : Type.
Variable ServiceName : RenderChart -> string.

#[local] Abbreviation currentChartInfoMap := (helm.currentChartInfoMap RenderChart ServiceName) (only parsing).
#[local] Abbreviation mixLatest := (helm.mixLatest RenderChart ServiceName) (only parsing).
#[local] Abbreviation mixtureChartInfos := (helm.mixtureChartInfos RenderChart ServiceName) (only parsing).
#[local] Abbreviation requested := (helm.requested RenderChart ServiceName) (only parsing).

(** A map is keyed by service when every chart sits under its own
    service name. *)
Definition keyed (m : gmap string RenderChart) : Prop :=
  forall k c, m !! k = Some c -> ServiceName c = k.

Lemma currentChartInfoMap_lookup chartInfos service :
  currentChartInfoMap chartInfos !! service = requested chartInfos service.
Proof.
  unfold helm.currentChartInfoMap, helm.requested.
  induction chartInfos as [|c l IH] using rev_ind; [done|].
  rewrite foldl_app, rev_app_distr. simpl.
  destruct (String.eqb (ServiceName c) service) eqn:E.
  - apply String.eqb_eq in E. subst. by rewrite lookup_insert_eq.
  - apply String.eqb_neq in E. by rewrite lookup_insert_ne.
Qed.

Lemma requested_name chartInfos service c :
  requested chartInfos service = Some c -> ServiceName c = service.
Proof.
  unfold helm.requested. intros H. apply find_some in H as [_ H].
  by apply String.eqb_eq.
Qed.

Lemma requested_In chartInfos service c :
  requested chartInfos service = Some c -> In c chartInfos.
Proof.
  unfold helm.requested. intros H. apply find_some in H as [H _].
  by apply in_rev.
Qed.

Lemma currentChartInfoMap_keyed chartInfos :
  keyed (currentChartInfoMap chartInfos).
Proof.
  intros k c H. rewrite currentChartInfoMap_lookup in H.
  by apply requested_name in H.
Qed.

Lemma keyed_delete m k : keyed m -> keyed (delete k m).
Proof.
  intros Hm k' c H. apply lookup_delete_Some in H as [_ H]. by apply Hm.
Qed.

(** The second loop in general: one chart per latest chart, under the
    same service name. *)
Lemma mixLatest_names latest : forall m mix,
  keyed m ->
  exists out,
    fst (mixLatest latest m mix) = mix ++ out /\
    map ServiceName out = map ServiceName latest.
Proof.
  induction latest as [|l rest IH]; intros m mix Hm; simpl.
  - exists []. by rewrite app_nil_r.
  - destruct (m !! ServiceName l) as [cur|] eqn:E.
    + destruct (IH (delete (ServiceName l) m) (mix ++ [cur])
                  (keyed_delete _ _ Hm)) as (out & H1 & H2).
      exists (cur :: out). rewrite H1, <- app_assoc. split; [done|].
      simpl. by rewrite H2, (Hm _ _ E).
    + destruct (IH m (mix ++ [l]) Hm) as (out & H1 & H2).
      exists (l :: out). rewrite H1, <- app_assoc. split; [done|].
      simpl. by rewrite H2.
Qed.

(** The second loop when no two latest charts share a service. *)
Lemma mixLatest_eq latest : forall m mix,
  NoDup (map ServiceName latest) ->
  mixLatest latest m mix =
  (mix ++ map (fun l => default l (m !! ServiceName l)) latest,
   foldl (fun m l => delete (ServiceName l) m) m latest).
Proof.
  induction latest as [|l rest IH]; intros m mix Hnd; simpl.
  - by rewrite app_nil_r.
  - change (NoDup (ServiceName l :: map ServiceName rest)) in Hnd.
    apply NoDup_cons in Hnd as [Hl Hnd].
    assert (forall m' : gmap string RenderChart,
      (forall k, k <> ServiceName l -> m' !! k = m !! k) ->
      map (fun l0 => default l0 (m' !! ServiceName l0)) rest =
      map (fun l0 => default l0 (m !! ServiceName l0)) rest) as Hext.
    { intros m' Hm'. apply map_ext_in. intros l0 Hin.
      rewrite Hm'; [done|]. intros Heq. apply Hl. rewrite <- Heq.
      apply list_elem_of_In, in_map, Hin. }
    destruct (m !! ServiceName l) as [cur|] eqn:E.
    + rewrite IH by done. rewrite <- app_assoc. simpl.
      rewrite (Hext (delete (ServiceName l) m)); [done|].
      intros k Hk. by rewrite lookup_delete_ne.
    + rewrite IH by done. rewrite <- app_assoc. simpl.
      assert (delete (ServiceName l) m = m) as -> by by apply delete_id.
      done.
Qed.

Lemma foldl_delete_lookup latest : forall (m : gmap string RenderChart) k,
  foldl (fun m l => delete (ServiceName l) m) m latest !! k =
  if bool_decide (k ∈ map ServiceName latest) then None else m !! k.
Proof.
  induction latest as [|l rest IH]; intros m k; simpl; [done|].
  rewrite IH. destruct (decide (k = ServiceName l)) as [->|Hne].
  - rewrite lookup_delete_eq.
    rewrite (bool_decide_eq_true_2 (ServiceName l ∈ _ :: _))
      by apply list_elem_of_here.
    by destruct (bool_decide _).
  - rewrite lookup_delete_ne by done.
    destruct (bool_decide (k ∈ map ServiceName rest)) eqn:Eb.
    + apply bool_decide_eq_true in Eb.
      rewrite bool_decide_eq_true_2; [done|]. by apply list_elem_of_further.
    + apply bool_decide_eq_false in Eb.
      rewrite bool_decide_eq_false_2; [done|].
      intros H. apply elem_of_cons in H as [H|H]; done.
Qed.

Lemma range_values (m : gmap string RenderChart) c :
  c ∈ map snd (rangeOf m) <-> exists k, m !! k = Some c.
Proof.
  rewrite (rangeOf_perm _ m). rewrite list_elem_of_fmap. split.
  - intros ([k c'] & -> & H). exists k. by apply elem_of_map_to_list in H.
  - intros [k H]. exists (k, c). split; [done|]. by apply elem_of_map_to_list.
Qed.

Lemma range_names (m : gmap string RenderChart) :
  keyed m ->
  map ServiceName (map snd (rangeOf m)) = map fst (rangeOf m).
Proof.
  intros Hm. rewrite map_map. apply map_ext_in. intros [k c] Hin. simpl.
  apply Hm. apply elem_of_map_to_list. rewrite <- (rangeOf_perm _ m).
  by apply list_elem_of_In.
Qed.

(** *** What the merge keeps of the latest render set *)

(** The charts of the latest render set keep their places: the render
    set submitted starts with one chart per latest chart, in the same
    order and under the same service names, whatever the request holds
    and in whatever order the map is ranged over.  When the lookup of
    the latest render set fails there is nothing to keep. *)
Theorem compareHelmVariable_keeps_places
    (Find : string -> option (RenderSet RenderChart))
    (chartInfos : list RenderChart) (productName createdBy : string) :
  let latest := latestOf RenderChart Find productName in
  let submitted :=
    ChartInfos RenderChart
      (compareHelmVariable RenderChart ServiceName Find chartInfos
         productName createdBy) in
  map ServiceName (take (length latest) submitted) = map ServiceName latest /\
  (Find productName = None -> latest = []).
Proof.
  intros latest submitted. split.
  - subst submitted. unfold helm.compareHelmVariable.
    cbn [ChartInfos]. fold latest. unfold helm.mixtureChartInfos.
    destruct (mixLatest_names latest (currentChartInfoMap chartInfos) []
                (currentChartInfoMap_keyed chartInfos)) as (out & H1 & H2).
    destruct (mixLatest latest (currentChartInfoMap chartInfos) [])
      as [mix m] eqn:E.
    simpl in H1. subst mix.
    assert (length out = length latest) as Hlen
      by by rewrite <- (length_map ServiceName out), H2, length_map.
    rewrite <- Hlen. by rewrite take_app_length.
  - intros H. subst latest. unfold helm.latestOf. by rewrite H.
Qed.

(** *** The merge when the latest charts have distinct services *)

(** When no two charts of the latest render set share a service name,
    the render set submitted holds exactly one chart per service: a
    chart is in it exactly when it is the chart the request gives for
    its service (the last one of that name), or a latest chart whose
    service the request does not mention.  So a service of the request
    replaces the latest chart of that service, new services are added,
    and no service is dropped. *)
Theorem compareHelmVariable_merges
    (Find : string -> option (RenderSet RenderChart))
    (chartInfos : list RenderChart) (productName createdBy : string) :
  let latest := latestOf RenderChart Find productName in
  let submitted :=
    ChartInfos RenderChart
      (compareHelmVariable RenderChart ServiceName Find chartInfos
         productName createdBy) in
  NoDup (map ServiceName latest) ->
  NoDup (map ServiceName submitted) /\
  forall c,
    c ∈ submitted <->
    requested chartInfos (ServiceName c) = Some c \/
    (c ∈ latest /\ requested chartInfos (ServiceName c) = None).
Proof.
  intros latest submitted Hnd.
  subst submitted. unfold helm.compareHelmVariable.
  cbn [ChartInfos]. fold latest. unfold helm.mixtureChartInfos.
  rewrite (mixLatest_eq latest _ [] Hnd). cbn [app].
  pose proof (currentChartInfoMap_keyed chartInfos) as Hk.
  set (m := currentChartInfoMap chartInfos) in *.
  set (m' := foldl (fun m l => delete (ServiceName l) m) m latest).
  assert (keyed m') as Hk'.
  { intros k c H. subst m'. rewrite foldl_delete_lookup in H.
    destruct (bool_decide _); [done|]. by apply Hk. }
  assert (map ServiceName
            (map (fun l => default l (m !! ServiceName l)) latest) =
          map ServiceName latest) as Hnames.
  { rewrite map_map. apply map_ext. intros l.
    destruct (m !! ServiceName l) as [cur|] eqn:E; simpl; [|done].
    by apply Hk. }
  split.
  - rewrite map_app, Hnames, (range_names _ Hk').
    apply NoDup_app. split; [done|]. split.
    + intros k Hin Hin'.
      apply list_elem_of_fmap in Hin' as ([k' c] & -> & Hin'). simpl in *.
      rewrite (rangeOf_perm _ m') in Hin'.
      apply elem_of_map_to_list in Hin'. subst m'.
      rewrite foldl_delete_lookup in Hin'.
      by rewrite bool_decide_eq_true_2 in Hin'.
    + rewrite (rangeOf_perm _ m'). apply NoDup_fst_map_to_list.
  - intros c. rewrite <- (currentChartInfoMap_lookup chartInfos).
    fold m. rewrite elem_of_app, range_values. split.
    + intros [H|[k H]].
      * apply list_elem_of_fmap in H as (l & -> & Hl).
        destruct (m !! ServiceName l) as [cur|] eqn:E; simpl.
        -- left. by rewrite (Hk _ _ E).
        -- right. by rewrite E.
      * left. subst m'. rewrite foldl_delete_lookup in H.
        destruct (bool_decide _); [done|]. by rewrite (Hk _ _ H).
    + intros [H|[Hl H]].
      * destruct (decide (ServiceName c ∈ map ServiceName latest)) as [Hin|Hout].
        -- left. apply list_elem_of_fmap in Hin as (l & Heq & Hl).
           apply list_elem_of_fmap. exists l. split; [|done].
           by rewrite <- Heq, H.
        -- right. exists (ServiceName c). subst m'.
           rewrite foldl_delete_lookup. by rewrite bool_decide_eq_false_2.
      * left. apply list_elem_of_fmap. exists c. split; [|done]. by rewrite H.
Qed.

End Merge.
End helmFacts.

(** A product with two latest charts; the request brings a new version
    of one of them and a new service. *)
Module helmScenario.
Import helm.

Definition chart : Type := string * string.

Definition latestSet : RenderSet chart := {|
  Name := "shop";
  Revision := 3;
  ProductTmpl := "shop";
  UpdateBy := "alice";
  ChartInfos := [("api", "1.0"); ("web", "1.0")]
|}.

Definition exampleFind (productName : string) : option (RenderSet chart) :=
  if String.eqb productName "shop" then Some latestSet else None.

Definition request : list chart := [("web", "2.0"); ("db", "1.0")].

Lemma compareHelmVariable_merges_witness :
  NoDup (map fst (latestOf chart exampleFind "shop")) /\
  NoDup (map fst
           (ChartInfos chart
              (compareHelmVariable (rng := forwardRange) chart fst
                 exampleFind request "shop" "bob"))) /\
  forall c,
    c ∈ ChartInfos chart
          (compareHelmVariable (rng := forwardRange) chart fst
             exampleFind request "shop" "bob") <->
    requested chart fst request (fst c) = Some c \/
    (c ∈ latestOf chart exampleFind "shop" /\
     requested chart fst request (fst c) = None).
Proof.
  assert (NoDup (map fst (latestOf chart exampleFind "shop"))) as Hnd
    by (apply (bool_decide_unpack _); by vm_compute).
  split; [exact Hnd|].
  exact (helmFacts.compareHelmVariable_merges (rng := forwardRange)
           chart fst exampleFind request "shop" "bob" Hnd).
Defined.

Example compareHelmVariable_shop :
  ChartInfos chart
    (compareHelmVariable (rng := forwardRange) chart fst
       exampleFind request "shop" "bob") =
  [("api", "1.0"); ("web", "2.0"); ("db", "1.0")].
Proof. by vm_compute. Qed.

End helmScenario.
